(** * ECDSA monitoring core: scanner, decision policy, scheduler loop

    A shallow embedding of [server/scanner.ts], [server/watsonx.ts]
    (including the decision module concatenated to it) and
    [server/scheduler.ts], with the properties the specification states
    about them.

    Conventions of the embedding:
    - a JavaScript string is a [string]; its characters stand for UTF-16
      code units below 256;
    - a JavaScript [bigint] is a [Z]; a [number] that only ever holds an
      integer is a [Z] too, and the single place where a fraction enters
      ([sigs.length * 0.3]) is modelled with binary64 rounding written out;
    - a function that can throw returns a [result];
    - a [Map] is an association list in insertion order, the order in
      which [for ... of] visits it. *)

From Stdlib Require Import ZArith List String Ascii Bool Lia Arith.
From Stdlib Require Import DecimalString.
From Stdlib Require SpecFloat.
Import ListNotations.

Local Open Scope string_scope.

(** ** JavaScript values shared by the modules *)

(** Outcome of a call that may throw; the payload of [Throw] is the
    message of the exception. *)
Inductive result (A : Type) : Type :=
| Ok (a : A)
| Throw (msg : string).
Arguments Ok {A} a.
Arguments Throw {A} msg.

(** Template-literal rendering of a non-negative integer: [`${n}`]. *)
Definition string_of_nat (n : nat) : string :=
  NilEmpty.string_of_uint (Nat.to_uint n).

(** Template-literal rendering of an integer-valued number. *)
Definition string_of_Z (z : Z) : string :=
  NilZero.string_of_int (Z.to_int z).

(** ** [BigInt(string)]: the StringToBigInt grammar *)
Module JSBigInt.

(** White space and line terminators that [BigInt] trims (those below
    256: TAB, LF, VT, FF, CR, SP, NBSP). *)
Definition is_ws (c : ascii) : bool :=
  let n := nat_of_ascii c in
  (((9 <=? n) && (n <=? 13)) || (n =? 32) || (n =? 160))%nat.

Fixpoint trim_left (s : string) : string :=
  match s with
  | String c s' => if is_ws c then trim_left s' else s
  | EmptyString => EmptyString
  end.

(** Drops trailing white space: the tail is trimmed first, and a white
    space character followed by nothing goes too. *)
Fixpoint trim_right (s : string) : string :=
  match s with
  | EmptyString => EmptyString
  | String c s' =>
      match trim_right s' with
      | EmptyString => if is_ws c then EmptyString else String c EmptyString
      | t => String c t
      end
  end.

Definition trim (s : string) : string := trim_right (trim_left s).

(** Value of a digit in the given radix, [None] for any other character. *)
Definition digit_val (radix : Z) (c : ascii) : option Z :=
  (let n := Z.of_nat (nat_of_ascii c) in
   let v :=
     if (48 <=? n) && (n <=? 57) then Some (n - 48)
     else if (97 <=? n) && (n <=? 102) then Some (n - 87)
     else if (65 <=? n) && (n <=? 70) then Some (n - 55)
     else None in
   match v with
   | Some d => if d <? radix then Some d else None
   | None => None
   end)%Z.

Fixpoint digits_from (radix acc : Z) (s : string) : option Z :=
  match s with
  | EmptyString => Some acc
  | String c s' =>
      match digit_val radix c with
      | Some d => digits_from radix (acc * radix + d)%Z s'
      | None => None
      end
  end.

(** One digit at least. *)
Definition digits (radix : Z) (s : string) : option Z :=
  match s with
  | EmptyString => None
  | _ => digits_from radix 0 s
  end.

(** [BigInt(s)]: [None] stands for the [SyntaxError] it throws.  The
    empty (or all-blank) string is [0n]; a radix prefix excludes a sign. *)
Definition BigInt (s : string) : option Z :=
  match trim s with
  | EmptyString => Some 0%Z
  | String "0" (String "x" ds) | String "0" (String "X" ds) => digits 16 ds
  | String "0" (String "o" ds) | String "0" (String "O" ds) => digits 8 ds
  | String "0" (String "b" ds) | String "0" (String "B" ds) => digits 2 ds
  | String "-" ds => option_map Z.opp (digits 10 ds)
  | String "+" ds => digits 10 ds
  | ds => digits 10 ds
  end.

End JSBigInt.

(** ** The one fractional computation: [count > length * 0.3] *)
Module JSNumber.
Local Open Scope Z_scope.

(** The binary64 literal [0.3] is exactly [m03 * 2^-54]. *)
Definition m03 : Z := 5404319552844595.

(** [n * 0.3] in binary64, for an integer [0 <= n < 2^53] (such an [n]
    is a double, and the product is neither subnormal nor infinite).
    The exact product is [n * m03 * 2^-54]; it is rounded to 53
    significant bits, ties to even.  The result is the pair [(q, s)]
    standing for the double [q * 2^(s-54)]. *)
Definition times_0_3 (n : Z) : Z * Z :=
  let p := n * m03 in
  let s := Z.max 0 (Z.log2 p - 52) in
  let q := Z.shiftr p s in
  let rem := p mod 2 ^ s in
  let half := 2 ^ (s - 1) in
  let up := (0 <? s) && ((half <? rem) || ((half =? rem) && Z.odd q)) in
  (if up then q + 1 else q, s).

(** [w > n * 0.3] for integers [w], [n]: exact comparison of the
    integer [w] with the rounded product. *)
Definition gt_times_0_3 (w n : Z) : bool :=
  let '(q, s) := times_0_3 n in
  q * 2 ^ s <? w * 2 ^ 54.

(** The same comparison through the Standard Library's IEEE 754
    specification ([SpecFloat]), used to cross-check [gt_times_0_3]. *)
Definition b64_of_Z (n : Z) : SpecFloat.spec_float :=
  SpecFloat.binary_normalize 53 1024 n 0 false.

Definition b64_0_3 : SpecFloat.spec_float :=
  SpecFloat.S754_finite false 5404319552844595 (-54).

Definition gt_times_0_3_ieee (w n : Z) : bool :=
  SpecFloat.SFltb (SpecFloat.SFmul 53 1024 (b64_of_Z n) b64_0_3) (b64_of_Z w).

(** Pairs [(w, n)] on which the two formulations are compared: every
    [0 <= w <= n < 100] and, for some large lengths, the counts around
    three tenths of the length. *)
Definition ieee_samples : list (Z * Z) :=
  (flat_map (fun n => map (fun w => (Z.of_nat w, Z.of_nat n)) (seq 0 (S n)))
     (seq 0 100)
   ++ flat_map (fun n => map (fun d => (3 * n / 10 + d, n)) [-2; -1; 0; 1; 2])
        [1000; 65535; 1000000; 2 ^ 31; 4294967290; 2 ^ 32 - 1])%list.

End JSNumber.

(** ** [server/scanner.ts] *)
Module Scanner.

Record Signature : Type := mkSignature {
  sig_r : string;
  sig_s : string;
  sig_v : Z;
  sig_hash : string
}.

Inductive ScanType : Type := nonce_reuse | polynomial_attack | weak_nonce.

Record ScanResult : Type := mkScanResult {
  type : ScanType;
  details : string;
  severity : Z
}.

(** *** [Map<string, number>] in insertion order *)
Definition RMap := list (string * nat).

Fixpoint map_get (m : RMap) (k : string) : option nat :=
  match m with
  | [] => None
  | (k', v) :: m' => if String.eqb k' k then Some v else map_get m' k
  end.

(** [set] keeps the position of a key that is already present. *)
Fixpoint map_set (m : RMap) (k : string) (v : nat) : RMap :=
  match m with
  | [] => [(k, v)]
  | (k', v') :: m' =>
      if String.eqb k' k then (k', v) :: m' else (k', v') :: map_set m' k v
  end.

(** First loop of [nonceReuse]: [(rValues.get(sig.r) || 0) + 1]. *)
Definition count_step (rValues : RMap) (sig : Signature) : RMap :=
  let count :=
    (match map_get rValues (sig_r sig) with
     | Some c => c
     | None => 0
     end + 1)%nat in
  map_set rValues (sig_r sig) count.

Definition rValues_of (sigs : list Signature) : RMap :=
  fold_left count_step sigs [].

Definition nonce_reuse_details (count : nat) (r : string) : string :=
  "Found " ++ string_of_nat count ++ " signatures with same R value ("
    ++ substring 0 10 r ++ "...). Private key recovery is possible.".

(** Second loop of [nonceReuse]: the first entry with [count > 1]. *)
Fixpoint first_repeated (rValues : RMap) : option ScanResult :=
  match rValues with
  | [] => None
  | (r, count) :: rest =>
      if (1 <? count)%nat
      then Some (mkScanResult nonce_reuse (nonce_reuse_details count r) 95)
      else first_repeated rest
  end.

Definition nonceReuse (sigs : list Signature) : option ScanResult :=
  first_repeated (rValues_of sigs).

(** [sigs.map((s) => BigInt(s.r))]: throws at the first [r] that is not
    an integer literal. *)
Fixpoint rInts_of (sigs : list Signature) : result (list Z) :=
  match sigs with
  | [] => Ok []
  | sig :: rest =>
      match JSBigInt.BigInt (sig_r sig) with
      | None =>
          Throw ("SyntaxError: Cannot convert " ++ sig_r sig ++ " to a BigInt")
      | Some z =>
          match rInts_of rest with
          | Ok zs => Ok (z :: zs)
          | Throw msg => Throw msg
          end
      end
  end.

(** [for (let i = 1; i < xs.length; i++) out.push(xs[i] - xs[i - 1])]. *)
Fixpoint diffs_of (xs : list Z) : list Z :=
  match xs with
  | a :: (b :: _) as tl => (b - a)%Z :: diffs_of tl
  | _ => []
  end.

(** [d === 0n || (d > 0n && d < 1000n)]. *)
Definition small_second_diff (d : Z) : bool :=
  ((d =? 0) || ((0 <? d) && (d <? 1000)))%Z.

Definition polynomial_finding : ScanResult :=
  mkScanResult polynomial_attack
    "Detected polynomial nonce generation pattern. Nonce sequence is predictable."
    85.

Definition polynomialAttack (sigs : list Signature)
  : result (option ScanResult) :=
  if (List.length sigs <? 3)%nat then Ok None
  else
    match rInts_of sigs with
    | Throw msg => Throw msg
    | Ok rInts =>
        let diffs := diffs_of rInts in
        if (2 <=? List.length diffs)%nat then
          let secondDiffs := diffs_of diffs in
          let isPolynomial := forallb small_second_diff secondDiffs in
          if isPolynomial then Ok (Some polynomial_finding) else Ok None
        else Ok None
    end.

Definition maxR : Z := (2 ^ 256 - 1)%Z.

(** [maxR / 1000n]: bigint division truncates. *)
Definition weak_bound : Z := Z.quot maxR 1000.

Definition weak_count (rInts : list Z) : nat :=
  List.length (filter (fun r => (r <? weak_bound)%Z) rInts).

Definition weak_details (weakCount total : nat) : string :=
  string_of_nat weakCount ++ " out of " ++ string_of_nat total
    ++ " signatures use low-entropy nonces.".

Definition weakNonce (sigs : list Signature) : result (option ScanResult) :=
  match rInts_of sigs with
  | Throw msg => Throw msg
  | Ok rInts =>
      let weakCount := weak_count rInts in
      if JSNumber.gt_times_0_3 (Z.of_nat weakCount) (Z.of_nat (List.length sigs))
      then Ok (Some (mkScanResult weak_nonce
                       (weak_details weakCount (List.length sigs)) 70))
      else Ok None
  end.

(** Body of [scan] once the signatures are there.  [a || b || c || null]
    evaluates [b] only when [a] is [null], and so on. *)
Definition scanSignatures (sigs : list Signature)
  : result (option ScanResult) :=
  if (List.length sigs <? 2)%nat then Ok None
  else
    match nonceReuse sigs with
    | Some found => Ok (Some found)
    | None =>
        match polynomialAttack sigs with
        | Throw msg => Throw msg
        | Ok (Some found) => Ok (Some found)
        | Ok None => weakNonce sigs
        end
    end.

Definition mockSigs : list Signature :=
  [ mkSignature
      "0x1234567890abcdef1234567890abcdef1234567890abcdef1234567890abcdef"
      "0xfedcba0987654321fedcba0987654321fedcba0987654321fedcba0987654321"
      27 "0xhash1";
    mkSignature
      "0x1234567890abcdef1234567890abcdef1234567890abcdef1234567890abcdef"
      "0x9876543210fedcba9876543210fedcba9876543210fedcba9876543210fedcba"
      28 "0xhash2" ].

(** The built-in signature source does not look at the address. *)
Definition extractSignatures (addr : string) : list Signature := mockSigs.

Definition scan (addr : string) : result (option ScanResult) :=
  scanSignatures (extractSignatures addr).

(** Sample sets: ten signatures with pairwise distinct [r], not in
    arithmetic progression, of which four, respectively two, are small. *)
Definition sample_sigs (rs : list string) : list Signature :=
  map (fun r => mkSignature r "0x01" 27 "0xhash") rs.

Definition four_weak_of_ten : list Signature :=
  sample_sigs
    [ "1"; "5"; "2"; "7";
      "0x8000000000000000000000000000000000000000000000000000000000000000";
      "0x9000000000000000000000000000000000000000000000000000000000000000";
      "0xa000000000000000000000000000000000000000000000000000000000000000";
      "0xb000000000000000000000000000000000000000000000000000000000000000";
      "0xc000000000000000000000000000000000000000000000000000000000000000";
      "0xd000000000000000000000000000000000000000000000000000000000000000" ].

Definition two_weak_of_ten : list Signature :=
  sample_sigs
    [ "1"; "5";
      "0x8000000000000000000000000000000000000000000000000000000000000000";
      "0x9000000000000000000000000000000000000000000000000000000000000000";
      "0xa000000000000000000000000000000000000000000000000000000000000000";
      "0xb000000000000000000000000000000000000000000000000000000000000000";
      "0xc000000000000000000000000000000000000000000000000000000000000000";
      "0xd000000000000000000000000000000000000000000000000000000000000000";
      "0xe000000000000000000000000000000000000000000000000000000000000000";
      "0xf000000000000000000000000000000000000000000000000000000000000000" ].

End Scanner.

(** ** [server/watsonx.ts]: prioritization *)
Module Watsonx.
Local Open Scope Z_scope.

Inductive Priority : Type := H | M | L.

Record PrioritizationResult : Type := mkPrioritization {
  priority : Priority;
  risk : Z;
  depth : Z
}.

(** ToInt32: the operand of a shift is reduced modulo 2^32 into
    [-2^31, 2^31). *)
Definition toInt32 (z : Z) : Z :=
  let m := z mod 2 ^ 32 in
  if 2 ^ 31 <=? m then m - 2 ^ 32 else m.

(** [h << 5]. *)
Definition shl5 (h : Z) : Z := toInt32 (Z.shiftl (toInt32 h) 5).

(** The reducer [(h, c) => ((h << 5) - h) + c.charCodeAt(0)].  Only the
    shift wraps: the subtraction and the addition are on numbers, which
    are exact integers as long as they stay below 2^53 in magnitude. *)
Definition hash_step (h c : Z) : Z := (shl5 h - h) + c.

Definition charCodes (s : string) : list Z :=
  map (fun c => Z.of_nat (nat_of_ascii c)) (list_ascii_of_string s).

(** [addr.split("").reduce(..., 0)]. *)
Definition addr_hash (addr : string) : Z :=
  fold_left hash_step (charCodes addr) 0.

Definition priorityMap : list Priority := [H; M; L].

(** Everything after the hash.  [%] is the truncating remainder
    ([Z.rem]); [priorityMap[i]] is [nth], whose default stands for
    [undefined] and is shown below never to be used. *)
Definition prioritization_of_hash (hash : Z) : PrioritizationResult :=
  let priority := nth (Z.to_nat (Z.rem (Z.abs hash) 3)) priorityMap L in
  let risk := Z.abs (Z.rem hash 100) in
  let depth := Z.rem (Z.abs hash) 3 + 1 in
  mkPrioritization priority risk depth.

Definition generateMockPrioritization (addr : string) : PrioritizationResult :=
  prioritization_of_hash (addr_hash addr).

(** [prioritize]: the [try] block only calls the mock, which cannot
    throw, so the [catch] default [{M, 50, 2}] is dead code here. *)
Definition prioritize (addr : string) : PrioritizationResult :=
  match Ok (generateMockPrioritization addr) with
  | Ok mockResult => mockResult
  | Throw _ => mkPrioritization M 50 2
  end.

End Watsonx.

(** ** Values that come out of [JSON.parse] *)
Module JS.

(** Numbers are kept as integers, which is all the modelled code
    produces itself. *)
#[local] Unset Elimination Schemes.
Inductive json : Type :=
| JNull
| JBool (b : bool)
| JNum (n : Z)
| JStr (s : string)
| JArr (items : list json)
| JObj (props : list (string * json)).
#[local] Set Elimination Schemes.

(** A JavaScript value read from a parsed object: [None] is
    [undefined]. *)
Definition jsval : Type := option json.

Fixpoint lookup (props : list (string * json)) (k : string) : jsval :=
  match props with
  | [] => None
  | (k', v) :: rest => if String.eqb k' k then Some v else lookup rest k
  end.

(** Property read [v.k]: [null.k] throws a [TypeError]; a primitive or an
    array has no such own property. *)
Definition get_prop (v : json) (k : string) : result jsval :=
  match v with
  | JObj props => Ok (lookup props k)
  | JNull => Throw ("TypeError: Cannot read properties of null (reading '" ++ k ++ "')")
  | _ => Ok None
  end.

(** Truthiness of an environment variable: set and not empty. *)
Definition env_truthy (v : option string) : bool :=
  match v with
  | Some (String _ _) => true
  | _ => false
  end.

(** One constructor per [console] call of the modelled code, carrying
    the values interpolated into its message. *)
Inductive log_line : Type :=
| LogStarted (intervalSeconds : Z)
    (* `Scanner started. Checking addresses every ${intervalSeconds}s` *)
| LogStopped
    (* "Scanner stopped" *)
| LogSleep (addr10 : string) (reasoning : jsval)
    (* `[SLEEP] ${addr.substring(0, 10)}... - ${decision.reasoning}` *)
| LogVulnerability (addr10 : string) (kind : Scanner.ScanType) (severity : Z)
    (* `[VULNERABILITY] ${...}... - Type: ${type}, Severity: ${severity}` *)
| LogDecision (action confidence reasoning : jsval)
    (* `[DECISION] Action: ${..}, Confidence: ${..}%, Reasoning: ${..}` *)
| LogClean (addr10 : string)
    (* `[SCAN] ${...}... - No vulnerabilities found` *)
| ErrProcessing (addr : string) (error : string)
    (* console.error(`Error processing address ${addr}:`, error) *)
| ErrCycle (error : string)
    (* console.error("Error in scan cycle:", error) *)
| WarnFallback
    (* console.warn("Watsonx API unavailable, using fallback decision logic") *)
| ErrParse (error : string)
    (* console.error("Failed to parse decision response:", error) *)
| ErrApi (error : string).
    (* console.error("Error calling Watsonx API:", error) *)

End JS.

(** ** The decision module (second half of [server/watsonx.ts]) *)
Module DecisionAI.
Import JS.
Local Open Scope Z_scope.

Inductive DecisionAction : Type := SCAN | DEEP | SLEEP.

Record DecisionState : Type := mkState {
  address : string;
  priority : Watsonx.Priority;
  risk : Z;
  depth : Z;
  lastScanned : option string
}.

Record DecisionResult : Type := mkDecision {
  action : DecisionAction;
  reasoning : string;
  confidence : Z
}.

Definition fallbackDecide (state : DecisionState) : DecisionResult :=
  match priority state with
  | Watsonx.H =>
      if 70 <? risk state
      then mkDecision DEEP
             "Critical priority with high risk requires deep analysis" 98
      else mkDecision SCAN
             "Critical priority address needs immediate scan" 95
  | Watsonx.M =>
      if 60 <? risk state
      then mkDecision SCAN
             "Medium priority with elevated risk warrants scan" 85
      else mkDecision SLEEP
             "Medium priority with normal risk, will check again later" 80
  | Watsonx.L =>
      if 80 <? risk state
      then mkDecision SCAN
             "Low priority but unusually high risk detected" 75
      else mkDecision SLEEP
             "Low priority and normal risk, no action needed" 90
  end.

(** The rule table as the specification prints it, one row per line:
    priority, condition on the risk, action, confidence. *)
Definition rule_table
  : list (Watsonx.Priority * (Z -> bool) * DecisionAction * Z) :=
  [ (Watsonx.H, fun risk => risk >? 70, DEEP, 98);
    (Watsonx.H, fun risk => risk <=? 70, SCAN, 95);
    (Watsonx.M, fun risk => risk >? 60, SCAN, 85);
    (Watsonx.M, fun risk => risk <=? 60, SLEEP, 80);
    (Watsonx.L, fun risk => risk >? 80, SCAN, 75);
    (Watsonx.L, fun risk => risk <=? 80, SLEEP, 90) ].

Definition priority_eqb (p q : Watsonx.Priority) : bool :=
  match p, q with
  | Watsonx.H, Watsonx.H | Watsonx.M, Watsonx.M | Watsonx.L, Watsonx.L => true
  | _, _ => false
  end.

(** The rows of the table that apply to a state. *)
Definition rows_for (state : DecisionState)
  : list (Watsonx.Priority * (Z -> bool) * DecisionAction * Z) :=
  filter (fun '(p, cond, _, _) => priority_eqb p (priority state) && cond (risk state))
         rule_table.

(** What [decide] hands back at run time.  The model path copies the
    parsed fields without checking them ([parsed.action as
    DecisionAction] is a cast, not a test), so each field is whatever
    value the response carried. *)
Record RawDecision : Type := mkRaw {
  raw_action : jsval;
  raw_reasoning : jsval;
  raw_confidence : jsval
}.

Definition action_name (a : DecisionAction) : string :=
  match a with SCAN => "SCAN" | DEEP => "DEEP" | SLEEP => "SLEEP" end.

Definition raw_of (d : DecisionResult) : RawDecision :=
  mkRaw (Some (JStr (action_name (action d))))
        (Some (JStr (reasoning d)))
        (Some (JNum (confidence d))).
(** *** The prompt *)

Definition nl : string := String (ascii_of_nat 10) EmptyString.
Definition dq : string := String (ascii_of_nat 34) EmptyString.

Definition priority_name (p : Watsonx.Priority) : string :=
  match p with Watsonx.H => "H" | Watsonx.M => "M" | Watsonx.L => "L" end.

(** [state.lastScanned || "Never"]: the empty string is falsy too. *)
Definition lastScanned_or_never (state : DecisionState) : string :=
  match lastScanned state with
  | Some (String c rest) => String c rest
  | _ => "Never"
  end.

Definition quoted (s : string) : string := (dq ++ s ++ dq)%string.

Definition decide_prompt (state : DecisionState) : string :=
  (nl ++ "You are a security analyst AI. Make a decision on how to proceed with scanning a blockchain address." ++ nl
   ++ nl
   ++ "Current State:" ++ nl
   ++ "- Address: " ++ address state ++ nl
   ++ "- Priority: " ++ priority_name (priority state) ++ " (H=Critical, M=Medium, L=Low)" ++ nl
   ++ "- Risk Level: " ++ string_of_Z (risk state) ++ "/100" ++ nl
   ++ "- Analysis Depth: Level " ++ string_of_Z (depth state) ++ "/3" ++ nl
   ++ "- Last Scanned: " ++ lastScanned_or_never state ++ nl
   ++ nl
   ++ "Available Actions:" ++ nl
   ++ "- SCAN: Run standard ECDSA vulnerability scan" ++ nl
   ++ "- DEEP: Run comprehensive deep analysis with polynomial attack detection" ++ nl
   ++ "- SLEEP: Skip this address and check again later" ++ nl
   ++ nl
   ++ "Consider:" ++ nl
   ++ "1. High priority (H) addresses should be scanned immediately" ++ nl
   ++ "2. High risk (>70) addresses need deep analysis" ++ nl
   ++ "3. Recently scanned addresses can sleep" ++ nl
   ++ "4. Medium priority needs standard scan only" ++ nl
   ++ nl
   ++ "Respond with ONLY valid JSON:" ++ nl
   ++ "{" ++ quoted "action" ++ ":" ++ quoted "SCAN|DEEP|SLEEP" ++ ","
   ++ quoted "reasoning" ++ ":" ++ quoted "brief explanation" ++ ","
   ++ quoted "confidence" ++ ":0-100}" ++ nl)%string.

(** *** [response.match(/\{[\s\S]*\}/)]

    The pattern is greedy and matches any character, so the match, when
    there is one, runs from the first opening brace to the last closing
    brace of the response. *)

Definition is_char (n : nat) (c : ascii) : bool := Nat.eqb (nat_of_ascii c) n.

Fixpoint from_first_open (s : string) : option string :=
  match s with
  | EmptyString => None
  | String c s' => if is_char 123 c then Some s else from_first_open s'
  end.

Fixpoint upto_last_close (s : string) : option string :=
  match s with
  | EmptyString => None
  | String c s' =>
      match upto_last_close s' with
      | Some t => Some (String c t)
      | None => if is_char 125 c then Some (String c EmptyString) else None
      end
  end.

Definition jsonMatch (response : string) : option string :=
  match from_first_open response with
  | Some tail => upto_last_close tail
  | None => None
  end.

(** The fixed answer of the [catch] of [parseDecisionResponse]. *)
Definition parse_error_decision : DecisionResult :=
  mkDecision SLEEP "Error parsing AI decision, defaulting to sleep" 0.

Section WithCollaborators.

(** [JSON.parse]; [Throw] is its [SyntaxError]. *)
Variable JSON_parse : string -> result json.

(** [process.env]. *)
Variable WATSONX_API_KEY : option string.
Variable WATSONX_SPACE_ID : option string.

(** The [try] block of [callWatsonxAPI]: the POST to the text
    generation endpoint and the extraction of
    [results[0].generated_text || ""]; [Throw] covers a network
    failure as well as a response that is not [ok]. *)
Variable generate : string -> result string.

Definition callWatsonxAPI (prompt : string) : result string * list log_line :=
  if negb (env_truthy WATSONX_API_KEY) || negb (env_truthy WATSONX_SPACE_ID)
  then (Throw "Error: Watsonx API credentials not configured. Set WATSONX_API_KEY and WATSONX_SPACE_ID", [])
  else
    match generate prompt with
    | Ok text => (Ok text, [])
    | Throw error => (Throw error, [ErrApi error])
    end.

(** The [try] block of [parseDecisionResponse]. *)
Definition parse_response (response : string) : result RawDecision :=
  match jsonMatch response with
  | None => Throw "Error: No JSON found in response"
  | Some text =>
      match JSON_parse text with
      | Throw error => Throw error
      | Ok parsed =>
          match get_prop parsed "action" with
          | Throw error => Throw error
          | Ok a =>
              match get_prop parsed "reasoning" with
              | Throw error => Throw error
              | Ok r =>
                  match get_prop parsed "confidence" with
                  | Throw error => Throw error
                  | Ok c => Ok (mkRaw a r c)
                  end
              end
          end
      end
  end.

Definition parseDecisionResponse (response : string)
  : RawDecision * list log_line :=
  match parse_response response with
  | Ok d => (d, [])
  | Throw error => (raw_of parse_error_decision, [ErrParse error])
  end.

(** [decide]: the model path inside [try], then the fallback. *)
Definition decide (state : DecisionState) : RawDecision * list log_line :=
  let prompt := decide_prompt state in
  if env_truthy WATSONX_API_KEY then
    match callWatsonxAPI prompt with
    | (Ok response, logs) =>
        let '(d, logs') := parseDecisionResponse response in
        (d, logs ++ logs')%list
    | (Throw _, logs) =>
        (raw_of (fallbackDecide state), logs ++ [WarnFallback])%list
    end
  else (raw_of (fallbackDecide state), []).

End WithCollaborators.

End DecisionAI.

(** ** [server/scheduler.ts] *)
Module Scheduler.
Import JS.

(** A row of the [schedules] table, with the columns the loop reads. *)
Record Schedule : Type := mkSchedule {
  target : string;
  isActive : bool
}.

(** The argument of [storage.storeVulnerability]. *)
Record VulnerabilityRecord : Type := mkVulnerability {
  vr_address : string;
  vr_type : Scanner.ScanType;
  vr_metadata : string * Z;
  vr_severity : Z
}.

(** Calls that leave the loop, recorded as they are made. *)
Inductive call : Type :=
| CallGetSchedules
| CallPrioritize (addr : string)
| CallDecide (addr : string)
| CallScan (addr : string)
| CallStore (addr : string).

(** The targets whose processing has begun, in order: [processAddress]
    opens with the call of [prioritize]. *)
Definition started (cs : list call) : list string :=
  flat_map (fun c => match c with CallPrioritize addr => [addr] | _ => [] end) cs.

(** The loop object: [isRunning] and [interval]. *)
Record Loop : Type := mkLoop {
  isRunning : bool;
  interval : option nat
}.

(** A cycle between two of its [await]s: waiting for the schedules, or
    in the [for] loop with these targets still to process. *)
Inductive Cycle : Type :=
| CycleFetching
| CycleTargets (remaining : list string).

(** An awaited call on the outside world [W] (database, network): a
    value or an exception, console output, and the world after it.  The
    promise is taken to settle; one that stays pending for ever is not
    modelled. *)
Definition Collab (W A : Type) : Type := W -> result A * list log_line * W.

(** What [scheduler.ts] imports: [prioritize], [decisionAI.decide],
    [scanner.scan] and the two [storage] methods it calls. *)
Class Collaborators (W : Type) : Type := {
  prioritize : string -> Collab W Watsonx.PrioritizationResult;
  decide : DecisionAI.DecisionState -> Collab W DecisionAI.RawDecision;
  scan : string -> Collab W (option Scanner.ScanResult);
  storeVulnerability : VulnerabilityRecord -> Collab W unit;
  getSchedules : Collab W (list Schedule)
}.

Section Loop.

Context {W : Type} {collaborators : Collaborators W}.

(** State threaded through a cycle.  [calls] is a record of the
    collaborator calls made so far, kept for stating properties. *)
Record Env : Type := mkEnv {
  world : W;
  console : list log_line;
  calls : list call
}.

(** Computations of the loop: state passing with exceptions. *)
Definition M (A : Type) : Type := Env -> result A * Env.

Definition ret {A} (a : A) : M A := fun e => (Ok a, e).

Definition bind {A B} (c : M A) (k : A -> M B) : M B :=
  fun e =>
    match c e with
    | (Ok a, e') => k a e'
    | (Throw error, e') => (Throw error, e')
    end.

Definition log (line : log_line) : M unit :=
  fun e => (Ok tt, mkEnv (world e) (console e ++ [line]) (calls e)).

(** [await collaborator(...)]. *)
Definition invoke {A} (c : call) (f : Collab W A) : M A :=
  fun e =>
    let '(r, lines, w) := f (world e) in
    (r, mkEnv w (console e ++ lines) (calls e ++ [c])).

(** [try { body } catch (error) { handler }]. *)
Definition try_catch {A} (body : M A) (handler : string -> M A) : M A :=
  fun e =>
    match body e with
    | (Ok a, e') => (Ok a, e')
    | (Throw error, e') => handler error e'
    end.

Notation "x <- c ;; k" := (bind c (fun x => k))
  (at level 61, c at next level, right associativity).
Notation "c ;;; k" := (bind c (fun _ => k))
  (at level 61, right associativity).

(** [decision.action === name]. *)
Definition action_is (decision : DecisionAI.RawDecision) (name : string) : bool :=
  match DecisionAI.raw_action decision with
  | Some (JStr a) => String.eqb a name
  | _ => false
  end.

(** The [try] block of [processAddress]. *)
Definition processAddress_body (addr : string) : M unit :=
  prioritization <- invoke (CallPrioritize addr) (prioritize addr) ;;
  let decisionState :=
    DecisionAI.mkState addr
      (Watsonx.priority prioritization)
      (Watsonx.risk prioritization)
      (Watsonx.depth prioritization)
      None in
  decision <- invoke (CallDecide addr) (decide decisionState) ;;
  if action_is decision "SLEEP" then
    log (LogSleep (substring 0 10 addr) (DecisionAI.raw_reasoning decision))
  else if action_is decision "SCAN" || action_is decision "DEEP" then
    vulnerability <- invoke (CallScan addr) (scan addr) ;;
    match vulnerability with
    | Some v =>
        invoke (CallStore addr)
          (storeVulnerability
             (mkVulnerability addr (Scanner.type v)
                (Scanner.details v, Scanner.severity v)
                (Scanner.severity v))) ;;;
        log (LogVulnerability (substring 0 10 addr) (Scanner.type v)
               (Scanner.severity v)) ;;;
        log (LogDecision (DecisionAI.raw_action decision)
               (DecisionAI.raw_confidence decision)
               (DecisionAI.raw_reasoning decision))
    | None => log (LogClean (substring 0 10 addr))
    end
  else ret tt.

Definition processAddress (addr : string) : M unit :=
  try_catch (processAddress_body addr)
            (fun error => log (ErrProcessing addr error)).

Definition getAddressesToCheck : M (list string) :=
  schedules <- invoke CallGetSchedules getSchedules ;;
  ret (map target (filter isActive schedules)).

(** [for (const addr of addresses) await f(addr)]: an exception that
    escapes [f] ends the loop. *)
Fixpoint for_each (addresses : list string) (f : string -> M unit) : M unit :=
  match addresses with
  | [] => ret tt
  | addr :: rest => f addr ;;; for_each rest f
  end.

(** One cycle, run from start to end. *)
Definition scanCycle : M unit :=
  try_catch
    (addresses <- getAddressesToCheck ;;
     for_each addresses processAddress)
    (fun error => log (ErrCycle error)).

(** The environment after [processAddress] on each of these targets
    in turn. *)
Definition after (addresses : list string) (e : Env) : Env :=
  fold_left (fun e' addr => snd (processAddress addr e')) addresses e.

(** [starts l c]: running [c] begins the processing of exactly the
    targets [l], and only adds lines to the console. *)
Definition starts {A} (l : list string) (c : M A) : Prop :=
  forall e,
    started (calls (snd (c e))) = (started (calls e) ++ l)%list /\
    exists lines, console (snd (c e)) = (console e ++ lines)%list.

(** *** The timer and the cycles in flight *)

(** The loop object, the interval timers armed in the runtime with
    their period in milliseconds, the next timer handle, the state the
    cycles act on, and the cycles that have started and not ended. *)
Record Sys : Type := mkSys {
  loop : Loop;
  timers : list (nat * Z);
  next_timer : nat;
  env : Env;
  inflight : list Cycle
}.

Definition say (line : log_line) (e : Env) : Env :=
  mkEnv (world e) (console e ++ [line]) (calls e).

Definition start (intervalSeconds : Z) (s : Sys) : Sys :=
  if isRunning (loop s) then s
  else
    let id := next_timer s in
    mkSys (mkLoop true (Some id))
          (timers s ++ [(id, intervalSeconds * 1000)%Z])
          (S id)
          (say (LogStarted intervalSeconds) (env s))
          (inflight s).

Definition clearInterval (id : nat) (ts : list (nat * Z)) : list (nat * Z) :=
  filter (fun t => negb (Nat.eqb (fst t) id)) ts.

Definition stop (s : Sys) : Sys :=
  mkSys (mkLoop false None)
        (match interval (loop s) with
         | Some id => clearInterval id (timers s)
         | None => timers s
         end)
        (next_timer s)
        (say LogStopped (env s))
        (inflight s).

Definition armed (id : nat) (s : Sys) : bool :=
  existsb (fun t => Nat.eqb (fst t) id) (timers s).

(** A firing of timer [id]: the callback calls [scanCycle()] and does
    not wait for it; the new cycle runs up to its first [await]. *)
Definition tick (id : nat) (s : Sys) : option Sys :=
  if armed id s
  then Some (mkSys (loop s) (timers s) (next_timer s) (env s)
                   (inflight s ++ [CycleFetching]))
  else None.

Definition next_of (remaining : list string) : option Cycle :=
  match remaining with
  | [] => None
  | _ => Some (CycleTargets remaining)
  end.

(** A cycle goes on from where it waits: with the schedules it takes
    up the [for] loop, with a target it runs [processAddress] on it.
    [None] says the cycle has ended.  An exception ends it in the
    [catch] of [scanCycle]. *)
Definition step_cycle (c : Cycle) (e : Env) : option Cycle * Env :=
  match c with
  | CycleFetching =>
      match getAddressesToCheck e with
      | (Ok addresses, e') => (next_of addresses, e')
      | (Throw error, e') => (None, say (ErrCycle error) e')
      end
  | CycleTargets [] => (None, e)
  | CycleTargets (addr :: rest) =>
      match processAddress addr e with
      | (Ok _, e') => (next_of rest, e')
      | (Throw error, e') => (None, say (ErrCycle error) e')
      end
  end.

(** A cycle left alone for [n] of its steps. *)
Fixpoint drain (n : nat) (c : option Cycle) (e : Env) : option Cycle * Env :=
  match n, c with
  | S n', Some c' => let '(c'', e') := step_cycle c' e in drain n' c'' e'
  | _, _ => (c, e)
  end.

Definition put_cycle (i : nat) (c : option Cycle) (cs : list Cycle)
  : list Cycle :=
  firstn i cs ++ match c with Some c' => [c'] | None => [] end ++ skipn (S i) cs.

Definition resume (i : nat) (s : Sys) : option Sys :=
  match nth_error (inflight s) i with
  | None => None
  | Some c =>
      let '(c', e') := step_cycle c (env s) in
      Some (mkSys (loop s) (timers s) (next_timer s) e'
                  (put_cycle i c' (inflight s)))
  end.

(** What can happen next: a call of [start] or [stop], a timer
    firing, a cycle in flight going on. *)
Inductive label : Type :=
| Start (intervalSeconds : Z)
| Stop
| Tick (id : nat)
| Resume (i : nat).

Definition exec (l : label) (s : Sys) : option Sys :=
  match l with
  | Start secs => Some (start secs s)
  | Stop => Some (stop s)
  | Tick id => tick id s
  | Resume i => resume i s
  end.

Fixpoint run (ls : list label) (s : Sys) : option Sys :=
  match ls with
  | [] => Some s
  | l :: rest =>
      match exec l s with
      | Some s' => run rest s'
      | None => None
      end
  end.

(** A fresh process: [new MainScannerLoop()], no timer, no cycle. *)
Definition init (w : W) : Sys :=
  mkSys (mkLoop false None) [] 0 (mkEnv w [] []) [].

Definition reachable (w : W) (s : Sys) : Prop :=
  exists ls, run ls (init w) = Some s.

(** The loop object and the runtime agree on the timer: running with
    exactly the one timer whose handle [interval] holds, or not
    running with none. *)
Definition timer_inv (s : Sys) : Prop :=
  match interval (loop s) with
  | Some id =>
      isRunning (loop s) = true /\ exists period, timers s = [(id, period)]
  | None => isRunning (loop s) = false /\ timers s = []
  end.

(** At most one cycle between its start and its end. *)
Definition non_overlapping (s : Sys) : Prop :=
  (List.length (inflight s) <= 1)%nat.

(** Labels under which time passes and cycles go on, without any call
    of [start] or [stop]. *)
Definition passive (l : label) : bool :=
  match l with
  | Tick _ | Resume _ => true
  | Start _ | Stop => false
  end.

End Loop.

Arguments Env W : clear implicits.
Arguments M W A : clear implicits.
Arguments Sys W : clear implicits.

(** *** The collaborators as the repository has them

    The world is the [schedules] table.  [prioritize] is the mock of
    [watsonx.ts]; [decide] runs without credentials; [scan] is the
    scanner with its built-in signatures; and [storage], an instance of
    [DatabaseStorage], has no [storeVulnerability] method, so that call
    is a [TypeError]. *)
Definition Database : Type := list Schedule.

Definition sample_db : Database :=
  [ mkSchedule "0xaaa" true; mkSchedule "0xbbb" false;
    mkSchedule "0xabcdef0123456789" true; mkSchedule "zz" true ].

#[export] Instance wired : Collaborators Database := {
  prioritize := fun addr db => (Ok (Watsonx.prioritize addr), [], db);
  decide := fun state db =>
    let '(d, lines) :=
      DecisionAI.decide (fun _ => Throw "SyntaxError") None None
                        (fun _ => Throw "unreachable") state in
    (Ok d, lines, db);
  scan := fun addr db => (Scanner.scan addr, [], db);
  storeVulnerability := fun _ db =>
    (Throw "TypeError: storage.storeVulnerability is not a function", [], db);
  getSchedules := fun db => (Ok db, [], db)
}.

End Scheduler.

(** * Further parts of the code

    The background pipeline of [server/routes.ts], and of the collectors
    and the client set-up that come with the server: the block cache, the
    DER signature parser with [extractSignatures], and the watsonx.ai
    client singleton.  The modules that only serve to state properties
    (orders on actions and priorities, console lines by kind) are here
    as well. *)

(** ** Orders and string predicates used to state further properties *)
Module Ranks.

(** How much work an action asks for. *)
Definition action_level (a : DecisionAI.DecisionAction) : nat :=
  match a with
  | DecisionAI.SLEEP => 0
  | DecisionAI.SCAN => 1
  | DecisionAI.DEEP => 2
  end.

Definition priority_level (p : Watsonx.Priority) : nat :=
  match p with
  | Watsonx.L => 0
  | Watsonx.M => 1
  | Watsonx.H => 2
  end.

(** Does the character with code [n] occur in [s]? *)
Fixpoint occurs (n : nat) (s : string) : bool :=
  match s with
  | EmptyString => false
  | String c s' => DecisionAI.is_char n c || occurs n s'
  end.

Definition open_brace : string := String (ascii_of_nat 123) EmptyString.
Definition close_brace : string := String (ascii_of_nat 125) EmptyString.

End Ranks.

(** ** Console lines by what they report *)
Module Reports.
Import JS.

(** Lines that report the outcome of a scan that ran to its end: a
    vulnerability stored, the decision behind it, or a clean result. *)
Definition reports_scan (line : log_line) : bool :=
  match line with
  | LogVulnerability _ _ _ | LogDecision _ _ _ | LogClean _ => true
  | _ => false
  end.

(** Collaborators for trying the loop on a model that answers with an
    action outside the three it should choose from. *)
Definition stray_model : Scheduler.Collaborators unit := {|
  Scheduler.prioritize := fun addr w => (Ok (Watsonx.prioritize addr), [], w);
  Scheduler.decide := fun state w =>
    (Ok (DecisionAI.mkRaw (Some (JStr "WAIT")) (Some (JStr "not sure")) None), [], w);
  Scheduler.scan := fun addr w => (Scanner.scan addr, [], w);
  Scheduler.storeVulnerability := fun _ w => (Ok tt, [], w);
  Scheduler.getSchedules := fun w => (Ok [], [], w)
|}.

(** What calling the missing method [storage.storeVulnerability]
    throws. *)
Definition no_store_method : string :=
  "TypeError: storage.storeVulnerability is not a function".

End Reports.

(** ** [server/routes.ts]: the background pipeline of a manual scan *)
Module Routes.

(** The writes [processScanInBackground] asks of [storage], with their
    arguments. *)
Inductive storage_write : Type :=
| UpdateScanStatus (scanId : Z) (status : string)
| CreateScanResult (scanId : Z) (rawData : list (string * string))
                   (vulnerabilityScore : Z) (findings : string)
| CreateDecision (scanId : Z) (priority reasoning modelUsed : string)
                 (confidence : Z).

(** [const priorityMap = { H: "critical", M: "high", L: "low" }]. *)
Definition priorityMap (p : Watsonx.Priority) : string :=
  match p with
  | Watsonx.H => "critical"
  | Watsonx.M => "high"
  | Watsonx.L => "low"
  end.

Definition reasoning_text (p : Watsonx.PrioritizationResult) (isVulnerable : bool)
  : string :=
  "Watsonx Granite analysis: Risk Level " ++ string_of_Z (Watsonx.risk p)
    ++ "/100. Analysis Depth: Level " ++ string_of_Z (Watsonx.depth p) ++ ". "
    ++ (if isVulnerable
        then "Detected repeating nonce patterns in ECDSA signatures. Probability of private key recovery is high. Immediate remediation recommended."
        else "Standard transaction patterns observed. No critical vulnerabilities identified in this scan.").

Definition starting_line (scanId : Z) : string :=
  "Starting background scan for " ++ string_of_Z scanId ++ "...".

Definition completed_line (scanId : Z) (priority : string) : string :=
  "Scan " ++ string_of_Z scanId ++ " completed with priority " ++ priority ++ ".".

Section Pipeline.

(** The database and the random source. *)
Variable W : Type.

(** A write either succeeds or throws. *)
Variable storage : storage_write -> W -> result unit * W.

(** [Math.random() > 0.5]. *)
Variable random_above_half : W -> bool * W.

(** The world, the console, and the writes that went through. *)
Record Env : Type := mkEnv {
  world : W;
  console : list string;
  written : list storage_write
}.

Definition R (A : Type) : Type := Env -> result A * Env.

Definition bind {A B} (c : R A) (k : A -> R B) : R B :=
  fun e =>
    match c e with
    | (Ok a, e') => k a e'
    | (Throw error, e') => (Throw error, e')
    end.

Definition log (line : string) : R unit :=
  fun e => (Ok tt, mkEnv (world e) (console e ++ [line]) (written e)).

(** [await storage.<write>(...)]. *)
Definition write (c : storage_write) : R unit :=
  fun e =>
    match storage c (world e) with
    | (Ok _, w) => (Ok tt, mkEnv w (console e) (written e ++ [c]))
    | (Throw error, w) => (Throw error, mkEnv w (console e) (written e))
    end.

Definition random : R bool :=
  fun e =>
    let '(b, w) := random_above_half (world e) in
    (Ok b, mkEnv w (console e) (written e)).

Notation "x <- c ;; k" := (bind c (fun x => k))
  (at level 61, c at next level, right associativity).
Notation "c ;;; k" := (bind c (fun _ => k))
  (at level 61, right associativity).

(** [processScanInBackground]; the two [setTimeout] waits pass without
    effect on the state.  There is no [try] in it. *)
Definition processScanInBackground (scanId : Z) (target : string) : R unit :=
  log (starting_line scanId) ;;;
  write (UpdateScanStatus scanId "processing") ;;;
  isVulnerable <- random ;;
  write (CreateScanResult scanId
           [("signature", "0x..."); ("r", "0x..."); ("s", "0x...")]
           (if isVulnerable then 85 else 10)
           (if isVulnerable
            then "Detected repeated R value in ECDSA signature. Private key recovery possible."
            else "No critical ECDSA vulnerabilities found.")) ;;;
  let prioritization := Watsonx.prioritize target in
  let priority := priorityMap (Watsonx.priority prioritization) in
  let reasoning := reasoning_text prioritization isVulnerable in
  write (CreateDecision scanId priority reasoning "ibm/granite-13b-chat-v2"
           (if (70 <? Watsonx.risk prioritization)%Z then 98 else 95)) ;;;
  write (UpdateScanStatus scanId "completed") ;;;
  log (completed_line scanId priority).

End Pipeline.

Arguments mkEnv {W} world console written.
Arguments world {W} e.
Arguments console {W} e.
Arguments written {W} e.

(** A database whose every write is refused, and one that takes them
    all, for trying the pipeline. *)
Definition refusing (c : storage_write) (w : unit) : result unit * unit :=
  (Throw "Error: connection terminated", w).


End Routes.

(** ** The block cache of the node collector: [cacheData] *)
Module BlockCache.

Section Cache.

(** [BlockData]. *)
Variable V : Type.

(** [Map<string, BlockData>], entries in insertion order. *)
Definition Cache : Type := list (string * V).

Fixpoint get (c : Cache) (k : string) : option V :=
  match c with
  | [] => None
  | (k', v) :: rest => if String.eqb k' k then Some v else get rest k
  end.

(** [set]: a key that is present keeps its place. *)
Fixpoint set (c : Cache) (k : string) (v : V) : Cache :=
  match c with
  | [] => [(k, v)]
  | (k', v') :: rest =>
      if String.eqb k' k then (k', v) :: rest else (k', v') :: set rest k v
  end.

Definition delete (c : Cache) (k : string) : Cache :=
  filter (fun kv => negb (String.eqb (fst kv) k)) c.

Definition maxCacheSize : nat := 1000.

(** [cacheData]: at the size limit the first key in iteration order
    goes ([keys().next().value]; on an empty map that is [undefined] and
    the [delete] does nothing), then the entry is set. *)
Definition cacheData (key : string) (data : V) (c : Cache) : Cache :=
  let c1 :=
    if (maxCacheSize <=? List.length c)%nat then
      match c with
      | [] => c
      | (firstKey, _) :: _ => delete c firstKey
      end
    else c in
  set c1 key data.

(** [clearCache] (the event it emits aside). *)
Definition clearCache (c : Cache) : Cache := [].

(** The cache after a series of [cacheData] calls on a fresh collector. *)
Definition filled (entries : list (string * V)) : Cache :=
  fold_left (fun c kv => cacheData (fst kv) (snd kv) c) entries [].

(** Keys are distinct and the size limit is kept. *)
Definition well_formed (c : Cache) : Prop :=
  NoDup (map fst c) /\ (List.length c <= maxCacheSize)%nat.

End Cache.

Arguments get {V} c k.
Arguments set {V} c k v.
Arguments delete {V} c k.
Arguments cacheData {V} key data c.
Arguments filled {V} entries.
Arguments well_formed {V} c.

(** A cache at the size limit: blocks 0 to 999 cached in turn on a fresh
    collector, each under its number. *)
Definition full_entries : list (string * nat) :=
  map (fun i => (string_of_nat i, i)) (seq 0 1000).

Definition full_cache : Cache nat := filled full_entries.

End BlockCache.

(** ** The DER signature parser of the address collector *)
Module DerParser.

(** *** [Buffer]: bytes, hexadecimal in and out *)

(** A byte is a [nat] below 256; a [Buffer] is the list of its bytes. *)
Definition Buffer : Type := list nat.

Definition hex_value (c : ascii) : option nat :=
  option_map Z.to_nat (JSBigInt.digit_val 16 c).

(** [Buffer.from(s, 'hex')]: two digits make a byte; decoding stops at
    the first pair that is not two hexadecimal digits, and a last single
    character is dropped. *)
Fixpoint hex_decode (s : string) : Buffer :=
  match s with
  | String a (String b rest) =>
      match hex_value a, hex_value b with
      | Some x, Some y => (16 * x + y) :: hex_decode rest
      | _, _ => []
      end
  | _ => []
  end.

Definition hex_digit (n : nat) : ascii :=
  match n with
  | 0 => "0" | 1 => "1" | 2 => "2" | 3 => "3" | 4 => "4" | 5 => "5"
  | 6 => "6" | 7 => "7" | 8 => "8" | 9 => "9" | 10 => "a" | 11 => "b"
  | 12 => "c" | 13 => "d" | 14 => "e" | _ => "f"
  end%char.

(** [buf.toString('hex')]. *)
Fixpoint hex_encode (bytes : Buffer) : string :=
  match bytes with
  | [] => EmptyString
  | b :: rest =>
      String (hex_digit (b / 16)) (String (hex_digit (b mod 16)) (hex_encode rest))
  end.

(** [buf[i]]: [None] is [undefined]. *)
Definition at_ (buffer : Buffer) (i : nat) : option nat := nth_error buffer i.

(** [buf[i] !== b]. *)
Definition is_not (x : option nat) (b : nat) : bool :=
  match x with
  | Some y => negb (Nat.eqb y b)
  | None => true
  end.

(** [buf.slice(start, end)] for [start] within the numbers and [end] a
    number or [NaN] ([None]), which [slice] takes for 0; both ends are
    clamped to the buffer, and an end before the start gives nothing. *)
Definition slice (buffer : Buffer) (start : nat) (end_ : option nat) : Buffer :=
  match end_ with
  | Some e => firstn (e - start) (skipn start buffer)
  | None => []
  end.

(** [a + x] where [x] may be [undefined]: [NaN] then. *)
Definition plus_opt (a : nat) (x : option nat) : option nat :=
  option_map (fun y => a + y)%nat x.

(** *** The signatures it returns *)

Record ECDSASignature : Type := mkECDSASignature {
  r : Z;
  s : Z;
  recoveryId : option Z;
  derEncoded : Buffer;
  rawHex : string;
  messageHash : Buffer;
  timestamp : Z;
  txid : string
}.

(** [crypto.createHash('sha256').digest()]: nothing is fed to the hash,
    so this is the SHA-256 digest of the empty input. *)
Definition sha256_of_nothing : Buffer :=
  hex_decode "e3b0c44298fc1c149afbf4c8996fb92427ae41e4649b934ca495991b7852b855".

Definition syntax_error (literal : string) : string :=
  "SyntaxError: Cannot convert " ++ literal ++ " to a BigInt".

(** [BigInt('0x' + bytes.toString('hex'))]. *)
Definition bigint_of_bytes (bytes : Buffer) : result Z :=
  match JSBigInt.BigInt ("0x" ++ hex_encode bytes) with
  | Some z => Ok z
  | None => Throw (syntax_error ("0x" ++ hex_encode bytes))
  end.

(** *** The loop *)

(** How a turn of the [while] loop ends: [continue] after [offset++],
    [break], an exception out of [BigInt], or a signature pushed and
    [offset += totalLength + 2] (the advance; [None] would be [NaN]). *)
Inductive turn : Type :=
| Continue
| Break
| Raise (error : string)
| Push (found : ECDSASignature) (advance : option nat).

(** The body of the loop at [offset], which is within the buffer. *)
Definition loop_body (buffer : Buffer) (txid : string) (timestamp : Z)
           (offset : nat) : turn :=
  if is_not (at_ buffer offset) 48 then Continue
  else
    let totalLength := at_ buffer (offset + 1) in
    if match totalLength with
       | Some t => (List.length buffer <? offset + t + 2)%nat
       | None => false
       end
    then Break
    else if is_not (at_ buffer (offset + 2)) 2 then Continue
    else
      let rLength := at_ buffer (offset + 3) in
      let rStart := (offset + 4)%nat in
      let rBuffer := slice buffer rStart (plus_opt rStart rLength) in
      match bigint_of_bytes rBuffer with
      | Throw error => Raise error
      | Ok r =>
          match plus_opt rStart rLength with
          | None => Continue
          | Some sOffset =>
              if (List.length buffer <=? sOffset + 2)%nat
                 || is_not (at_ buffer sOffset) 2
              then Continue
              else
                let sLength := at_ buffer (sOffset + 1) in
                let sStart := (sOffset + 2)%nat in
                let sBuffer := slice buffer sStart (plus_opt sStart sLength) in
                match bigint_of_bytes sBuffer with
                | Throw error => Raise error
                | Ok s =>
                    let derBuffer :=
                      slice buffer offset
                            (plus_opt offset (option_map (fun t => t + 2)%nat totalLength)) in
                    Push (mkECDSASignature r s None derBuffer (hex_encode derBuffer)
                                           sha256_of_nothing timestamp txid)
                         (option_map (fun t => t + 2)%nat totalLength)
                end
          end
      end.

(** [parse_from fuel ... offset signatures] is the [while] loop entered
    with these values of [offset] and [signatures]; every turn moves
    [offset] forward, and [fuel] bounds the number of turns.  [None] says
    the fuel ran out; [Some (Throw _)] that [BigInt] threw. *)
Fixpoint parse_from (fuel : nat) (buffer : Buffer) (txid : string) (timestamp : Z)
         (offset : nat) (signatures : list ECDSASignature)
  : option (result (list ECDSASignature)) :=
  match fuel with
  | O => None
  | S fuel' =>
      if (List.length buffer <=? offset)%nat then Some (Ok signatures)
      else
        match loop_body buffer txid timestamp offset with
        | Continue => parse_from fuel' buffer txid timestamp (S offset) signatures
        | Break => Some (Ok signatures)
        | Raise error => Some (Throw error)
        | Push found (Some advance) =>
            parse_from fuel' buffer txid timestamp (offset + advance)
                       (signatures ++ [found])%list
        | Push found None => Some (Ok (signatures ++ [found])%list)
        end
  end.

(** [parseDERSignature]: the signatures found, or [null] when there are
    none or when the [catch] was reached, and then the line it logs. *)
Definition parseDERSignature (scriptSigHex : string) (txid : string) (timestamp : Z)
  : option (list ECDSASignature) * list string :=
  let buffer := hex_decode scriptSigHex in
  match parse_from (S (List.length buffer)) buffer txid timestamp 0 [] with
  | Some (Ok []) => (None, [])
  | Some (Ok signatures) => (Some signatures, [])
  | Some (Throw error) => (None, ["[!] Error parsing DER signature: " ++ error])
  | None => (None, [])
  end.

(** The loop as a relation, without fuel: [runs buffer txid timestamp
    offset signatures res] says that the loop entered at [offset] with
    [signatures] ends with [res]. *)
Inductive runs (buffer : Buffer) (txid : string) (timestamp : Z)
  : nat -> list ECDSASignature -> result (list ECDSASignature) -> Prop :=
| runs_end offset signatures :
    (List.length buffer <= offset)%nat ->
    runs buffer txid timestamp offset signatures (Ok signatures)
| runs_continue offset signatures res :
    (offset < List.length buffer)%nat ->
    loop_body buffer txid timestamp offset = Continue ->
    runs buffer txid timestamp (S offset) signatures res ->
    runs buffer txid timestamp offset signatures res
| runs_break offset signatures :
    (offset < List.length buffer)%nat ->
    loop_body buffer txid timestamp offset = Break ->
    runs buffer txid timestamp offset signatures (Ok signatures)
| runs_raise offset signatures error :
    (offset < List.length buffer)%nat ->
    loop_body buffer txid timestamp offset = Raise error ->
    runs buffer txid timestamp offset signatures (Throw error)
| runs_push offset signatures found advance res :
    (offset < List.length buffer)%nat ->
    loop_body buffer txid timestamp offset = Push found (Some advance) ->
    runs buffer txid timestamp (offset + advance) (signatures ++ [found])%list res ->
    runs buffer txid timestamp offset signatures res.

(** *** Encoding, to state what the parser recovers *)

(** The integer a run of bytes stands for, most significant first. *)
Definition be_value (bytes : Buffer) : Z :=
  fold_left (fun acc b => acc * 256 + Z.of_nat b)%Z bytes 0%Z.

(** [0x30 total 0x02 |r| r 0x02 |s| s]. *)
Definition der (rBytes sBytes : Buffer) : Buffer :=
  ([48; 4 + List.length rBytes + List.length sBytes; 2; List.length rBytes]
     ++ rBytes ++ [2; List.length sBytes] ++ sBytes)%list.

Definition is_bytes (bytes : Buffer) : Prop := Forall (fun b => b < 256)%nat bytes.

Definition sample_scriptSig : string :=
  "483045022100884d142d86652a3f47ba4746ec719bbfbd040a570b1deccbb6498c75c4ae24cb02204b9f039ff08df09cbe9f6addac960298cad530a863ea8f53982c09db8f6e381301410484ecc0d46f1918b30928fa0e4ed99f16a0fb4fde0735e7ade8416ab9fe423cc5412336376789d172787ec3457eee41c04f4938de5cc17b4a10fa336a8d752adf".

(** The signature [parseDERSignature] makes of the encoding of [rBytes]
    and [sBytes]. *)
Definition signature_of (rBytes sBytes : Buffer) (txid : string) (timestamp : Z)
  : ECDSASignature :=
  mkECDSASignature (be_value rBytes) (be_value sBytes) None (der rBytes sBytes)
                   (hex_encode (der rBytes sBytes)) sha256_of_nothing timestamp txid.

(** What a signature cut from [buffer] at a marker looks like: the two
    numbers are not negative, the fields the parser fills in blindly have
    their fixed values, [derEncoded] is a contiguous part of the buffer
    that starts with [0x30] and the length byte, and is as long as that
    byte says. *)
Definition cut_at_marker (buffer : Buffer) (of_txid : string) (at_time : Z)
           (sg : ECDSASignature) : Prop :=
  (0 <= r sg)%Z /\ (0 <= s sg)%Z /\
  recoveryId sg = None /\
  messageHash sg = sha256_of_nothing /\
  timestamp sg = at_time /\
  txid sg = of_txid /\
  rawHex sg = hex_encode (derEncoded sg) /\
  exists before body after : Buffer,
    buffer = (before ++ derEncoded sg ++ after)%list /\
    derEncoded sg = (48 :: List.length body :: body)%nat.

(** *** [extractSignatures] *)

(** Of a transaction and its inputs, the fields [extractSignatures]
    reads. *)
Record TransactionInput : Type := mkTransactionInput {
  scriptSig : string
}.

Record Transaction : Type := mkTransaction {
  tx_txid : string;
  tx_timestamp : Z;
  inputs : list TransactionInput
}.

(** The collector, as far as [extractSignatures] touches it: the
    signatures kept, the console, and the ['signatures-extracted'] events
    emitted. *)
Record Collector : Type := mkCollector {
  collectedSignatures : list ECDSASignature;
  console : list string;
  emitted : list (list ECDSASignature)
}.

(** One turn of the inner loop.  [!scriptSig] holds of the empty string
    only, which is shorter than 144 as well. *)
Definition scan_input (tx : Transaction) (acc : list ECDSASignature * list string)
           (input : TransactionInput) : list ECDSASignature * list string :=
  let '(signatures, lines) := acc in
  if (String.length (scriptSig input) <? 144)%nat then acc
  else
    match parseDERSignature (scriptSig input) (tx_txid tx) (tx_timestamp tx) with
    | (Some extracted, logged) => (signatures ++ extracted, lines ++ logged)%list
    | (None, logged) => (signatures, lines ++ logged)%list
    end.

Definition extracting_line (count : nat) : string :=
  "[*] Extracting signatures from " ++ string_of_nat count ++ " transactions...".

Definition extracted_line (count : nat) : string :=
  "[+] Extracted " ++ string_of_nat count ++ " signatures".

(** [extractSignatures].  Nothing in the [try] block throws
    ([parseDERSignature] catches its own exceptions), so its [catch] is
    not reached. *)
Definition extractSignatures (transactions : list Transaction) (c : Collector)
  : list ECDSASignature * Collector :=
  let '(signatures, lines) :=
    fold_left (fun acc tx => fold_left (scan_input tx) (inputs tx) acc)
              transactions ([], []) in
  (signatures,
   mkCollector
     (collectedSignatures c ++ signatures)%list
     (console c ++ [extracting_line (List.length transactions)] ++ lines
        ++ [extracted_line (List.length signatures)])%list
     (emitted c ++ [signatures])%list).

Definition sample_transaction : Transaction :=
  mkTransaction "f4184fc5" 1231731025 [mkTransactionInput sample_scriptSig].

(** A signature cut from a script of at least 144 characters of an
    input of one of the transactions. *)
Definition from_a_long_script (transactions : list Transaction)
           (sg : ECDSASignature) : Prop :=
  exists tx input,
    In tx transactions /\ In input (inputs tx) /\
    (144 <= String.length (scriptSig input))%nat /\
    cut_at_marker (hex_decode (scriptSig input)) (tx_txid tx) (tx_timestamp tx) sg.

End DerParser.

(** ** The watsonx.ai client singleton *)
Module WatsonxClient.

Record WatsonxConfig : Type := mkWatsonxConfig {
  apiKey : string;
  projectId : string;
  serviceUrl : option string;
  region : option string
}.

(** An [Authenticator] object of the SDK, known by a number. *)
Definition Authenticator : Type := nat.

(** What [new Authenticator()] does: it returns an object, or throws an
    [Error] with a message, or throws something that is not an [Error]. *)
Inductive construction : Type :=
| Constructed (a : Authenticator)
| ThrewError (message : string)
| ThrewOther.

(** The two private fields of the one instance. *)
Record Client : Type := mkClient {
  authenticator : option Authenticator;
  config : option WatsonxConfig
}.

(** The instance [getInstance] creates: both fields [null]. *)
Definition getInstance : Client := mkClient None None.

(** Truthiness of a string. *)
Definition truthy (s : string) : bool :=
  match s with
  | EmptyString => false
  | String _ _ => true
  end.

Definition setupAuthenticator (new_Authenticator : construction) (c : Client)
  : result unit * Client :=
  match config c with
  | None => (Throw "Error: Configuration not set. Call initialize() first.", c)
  | Some _ =>
      match new_Authenticator with
      | Constructed a => (Ok tt, mkClient (Some a) (config c))
      | ThrewError message =>
          (Throw ("Error: Failed to initialize authenticator: " ++ message), c)
      | ThrewOther =>
          (Throw "Error: Failed to initialize authenticator: Unknown error", c)
      end
  end.

Definition initialize (new_Authenticator : construction) (cfg : WatsonxConfig)
           (c : Client) : result unit * Client :=
  if negb (truthy (apiKey cfg))
  then (Throw "Error: IBM Cloud API Key is required for watsonx initialization", c)
  else if negb (truthy (projectId cfg))
  then (Throw "Error: Project ID is required for watsonx initialization", c)
  else setupAuthenticator new_Authenticator (mkClient (authenticator c) (Some cfg)).

Definition getConfig (c : Client) : option WatsonxConfig := config c.

Definition getAuthenticator (c : Client) : option Authenticator := authenticator c.

Definition isInitialized (c : Client) : bool :=
  match config c, authenticator c with
  | Some _, Some _ => true
  | _, _ => false
  end.

(** [validateConnection]: the value the promise resolves to, or the
    error it rejects with, and what is written to the console. *)
Definition validateConnection (c : Client) : result bool * list string :=
  if negb (isInitialized c)
  then (Throw "Error: Client not initialized. Call initialize() first.", [])
  else (Ok true, ["Validating connection to watsonx.ai service..."]).

Definition reset (c : Client) : Client := mkClient None None.

(** The four variables [initializeWatsonxFromEnv] reads. *)
Record Environment : Type := mkEnvironment {
  IBM_CLOUD_API_KEY : option string;
  WATSONX_PROJECT_ID : option string;
  WATSONX_SERVICE_URL : option string;
  WATSONX_REGION : option string
}.

(** The string a variable holds, once it is known to be set. *)
Definition value (v : option string) : string :=
  match v with
  | Some s => s
  | None => EmptyString
  end.

Definition initializeWatsonxFromEnv (env : Environment) (new_Authenticator : construction)
           (c : Client) : result unit * Client :=
  if negb (JS.env_truthy (IBM_CLOUD_API_KEY env))
     || negb (JS.env_truthy (WATSONX_PROJECT_ID env))
  then (Throw "Error: Missing required environment variables: IBM_CLOUD_API_KEY and WATSONX_PROJECT_ID", c)
  else initialize new_Authenticator
                  (mkWatsonxConfig (value (IBM_CLOUD_API_KEY env))
                                   (value (WATSONX_PROJECT_ID env))
                                   (WATSONX_SERVICE_URL env) (WATSONX_REGION env))
                  c.

(** A program using the client is a sequence of calls of its methods;
    each call that constructs an authenticator comes with what the
    constructor does then. *)
Inductive call : Type :=
| Initialize (cfg : WatsonxConfig) (new_Authenticator : construction)
| InitializeFromEnv (env : Environment) (new_Authenticator : construction)
| ValidateConnection
| Reset.

Definition exec (c : Client) (op : call) : Client :=
  match op with
  | Initialize cfg new_Authenticator => snd (initialize new_Authenticator cfg c)
  | InitializeFromEnv env new_Authenticator =>
      snd (initializeWatsonxFromEnv env new_Authenticator c)
  | ValidateConnection => c
  | Reset => reset c
  end.

Definition after (ops : list call) : Client := fold_left exec ops getInstance.

(** A configuration with both credentials present, and no authenticator
    without a configuration. *)
Definition consistent (c : Client) : Prop :=
  (authenticator c <> None -> config c <> None) /\
  (forall cfg, config c = Some cfg -> apiKey cfg <> "" /\ projectId cfg <> "").

End WatsonxClient.

(** * Properties *)

(** ** The binary64 comparison *)
Module JSNumberProps.
Import JSNumber.
Local Open Scope Z_scope.

Lemma ten_m03 : 10 * m03 = 3 * 2 ^ 54 - 2.
Proof. reflexivity. Qed.

(** [m03] is a 53-bit significand, and [m03 * 2^-54] is the double
    nearest to three tenths: the error is a fifth of a unit in the last
    place. *)
Lemma m03_nearest :
  2 ^ 52 <= m03 < 2 ^ 53 /\ 2 * Z.abs (10 * m03 - 3 * 2 ^ 54) < 10.
Proof. unfold m03. cbv. repeat split; discriminate. Qed.

(** The rounded product is a multiple of [2^s] at distance at most
    [2^s / 2] from the exact one. *)
Lemma times_0_3_near (n : Z) :
  0 <= n ->
  let '(q, s) := times_0_3 n in
  0 <= s /\ s = Z.max 0 (Z.log2 (n * m03) - 52) /\
  2 * Z.abs (q * 2 ^ s - n * m03) <= 2 ^ s /\
  (s = 0 -> q = n * m03).
Proof.
  intros Hn. unfold times_0_3.
  set (p := n * m03). set (s := Z.max 0 (Z.log2 p - 52)).
  assert (Hs : 0 <= s) by lia.
  assert (Hp : 0 <= p) by (unfold p, m03; lia).
  assert (HS : 0 < 2 ^ s) by (apply Z.pow_pos_nonneg; lia).
  rewrite Z.shiftr_div_pow2 by assumption.
  pose proof (Z.div_mod p (2 ^ s) ltac:(lia)) as Hdm.
  pose proof (Z.mod_pos_bound p (2 ^ s) HS) as Hrem.
  split; [assumption|]. split; [reflexivity|].
  destruct (Z.eq_dec s 0) as [E|E].
  - rewrite E in *. simpl (0 <? 0). cbv iota. simpl andb. cbv iota.
    change (2 ^ 0) with 1 in *. rewrite Z.div_1_r. split; [lia|auto].
  - assert (Hhalf : 2 ^ s = 2 * 2 ^ (s - 1)).
    { replace s with (Z.succ (s - 1)) at 1 by lia. rewrite Z.pow_succ_r; lia. }
    split; [|lia].
    destruct ((0 <? s) && _) eqn:Up.
    + apply andb_prop in Up as [_ Up]. apply orb_prop in Up.
      assert (2 ^ (s - 1) <= p mod 2 ^ s).
      { destruct Up as [H|H]; [apply Z.ltb_lt in H; lia|].
        apply andb_prop in H as [H _]. apply Z.eqb_eq in H. lia. }
      nia.
    + apply andb_false_iff in Up as [Up|Up]; [apply Z.ltb_ge in Up; lia|].
      apply orb_false_iff in Up as [Up _]. apply Z.ltb_ge in Up. nia.
Qed.

(** For array lengths ([n < 2^32]) the binary64 comparison
    [w > n * 0.3] decides the exact [10 w > 3 n]. *)
Lemma gt_times_0_3_exact (w n : Z) :
  0 <= w -> 0 <= n < 2 ^ 32 ->
  gt_times_0_3 w n = (3 * n <? 10 * w).
Proof.
  intros Hw Hn. unfold gt_times_0_3.
  pose proof (times_0_3_near n (proj1 Hn)) as Hnear.
  destruct (times_0_3 n) as [q s].
  destruct Hnear as (Hs0 & Hs & Hdist & Hexact).
  pose proof ten_m03 as H10.
  set (p := n * m03) in *.
  assert (Hp : 0 <= p) by (unfold p, m03; lia).
  (* the exponent of the rounding step *)
  assert (Hs32 : s <= 32).
  { destruct (Z.eq_dec p 0) as [E|E]; [rewrite E in Hs; simpl in Hs; lia|].
    assert (Z.log2 p < 85); [|lia].
    apply Z.log2_lt_pow2; [lia|]. unfold p, m03. lia. }
  assert (HS1 : 1 <= 2 ^ s) by (pose proof (Z.pow_pos_nonneg 2 s); lia).
  assert (HS32 : 2 ^ s <= 2 ^ 32) by (apply Z.pow_le_mono_r; lia).
  (* [n < 2^(s+1)] *)
  assert (Hns : n < 2 * 2 ^ s).
  { destruct (Z.eq_dec n 0) as [E|E]; [lia|].
    assert (Hppos : 0 < p) by (unfold p, m03; lia).
    pose proof (Z.log2_spec p Hppos) as [_ Hhi].
    assert (Hle : 2 ^ Z.succ (Z.log2 p) <= 2 ^ (s + 53))
      by (apply Z.pow_le_mono_r; lia).
    rewrite Z.pow_add_r in Hle by lia.
    change (2 ^ 53) with 9007199254740992 in Hle.
    assert (n * 4503599627370496 <= p) by (unfold p, m03; lia).
    lia. }
  (* [w * 2^54] is a multiple of [2^s] *)
  assert (Hw54 : w * 2 ^ 54 = (w * 2 ^ (54 - s)) * 2 ^ s).
  { rewrite <- Z.mul_assoc, <- Z.pow_add_r by lia. do 2 f_equal. lia. }
  set (S := 2 ^ s) in *. set (t := w * 2 ^ (54 - s)) in *.
  destruct (Z.ltb_spec (3 * n) (10 * w)) as [Hgt|Hle]; 
    [apply Z.ltb_lt | apply Z.ltb_ge].
  - (* 10 w >= 3 n + 1 *)
    change (2 ^ 32) with 4294967296 in *. change (2 ^ 54) with 18014398509481984 in *.
    lia.
  - change (2 ^ 32) with 4294967296 in *. 
    destruct (Z.eq_dec (10 * w) (3 * n)) as [E|E].
    + (* tie between the exact values: the product rounds up to [w] *)
      assert (Hpt : 5 * (t * S) = 5 * p + n).
      { rewrite <- Hw54. change (2 ^ 54) with 18014398509481984 in *. lia. }
      destruct (Z.eq_dec s 0) as [Es|Es].
      * rewrite (Hexact Es). subst S. rewrite Es in *.
        change (2 ^ 0) with 1 in *. lia.
      * assert (Hd : - S < q * S - t * S < S) by lia.
        assert (Hd' : - S < (q - t) * S < S)
          by (rewrite Z.mul_sub_distr_r; lia).
        assert (q = t); [|subst q; lia].
        destruct (Z_lt_le_dec q t) as [Hlt|Hge].
        { assert ((q - t) * S <= -1 * S)
            by (apply Z.mul_le_mono_nonneg_r; lia). lia. }
        destruct (Z_lt_le_dec t q) as [Hlt|Hge']; [|lia].
        assert (1 * S <= (q - t) * S)
          by (apply Z.mul_le_mono_nonneg_r; lia). lia.
    + change (2 ^ 54) with 18014398509481984 in *. lia.
Qed.

(** The integer formulation agrees with the IEEE 754 one of the Standard
    Library on all of [ieee_samples]. *)
Lemma gt_times_0_3_ieee_samples :
  forallb (fun '(w, n) => Bool.eqb (gt_times_0_3 w n) (gt_times_0_3_ieee w n))
    ieee_samples = true.
Proof. vm_compute. reflexivity. Qed.

End JSNumberProps.

(** ** [BigInt] on sample literals *)
Module JSBigIntProps.
Import JSBigInt.

Example BigInt_samples :
  map BigInt ["0x1F"; " 12 "; "-12"; "+7"; ""; "007"; "0b101"; "0o17";
              "-0x12"; "1e3"; "0x"; "1.5"; "12n"] =
  [Some 31; Some 12; Some (-12); Some 7; Some 0; Some 7; Some 5; Some 15;
   None; None; None; None; None]%Z.
Proof. reflexivity. Qed.

Example BigInt_mock_r :
  BigInt "0x1234567890abcdef1234567890abcdef1234567890abcdef1234567890abcdef" =
  Some 8234104122482341265491137074636836252947884782870784360943022469005013929455%Z.
Proof. vm_compute. reflexivity. Qed.

End JSBigIntProps.

(** ** The scanner *)
Module ScannerProps.
Import Scanner.

Lemma map_get_set_same (m : RMap) k v : map_get (map_set m k v) k = Some v.
Proof.
  induction m as [|[k' v'] m IH]; simpl.
  - now rewrite String.eqb_refl.
  - destruct (String.eqb k' k) eqn:E; simpl; rewrite E; auto.
Qed.

Lemma map_get_set_other (m : RMap) k k' v :
  k <> k' -> map_get (map_set m k v) k' = map_get m k'.
Proof.
  intros Hne. induction m as [|[k0 v0] m IH]; simpl.
  - destruct (String.eqb k k') eqn:E; auto.
    apply String.eqb_eq in E. contradiction.
  - destruct (String.eqb k0 k) eqn:E; simpl.
    + apply String.eqb_eq in E. subst k0.
      destruct (String.eqb k k') eqn:E'; auto.
      apply String.eqb_eq in E'. contradiction.
    + now rewrite IH.
Qed.

Lemma map_set_keys (m : RMap) k v :
  map fst (map_set m k v) =
  (if in_dec string_dec k (map fst m) then map fst m else map fst m ++ [k])%list.
Proof.
  induction m as [|[k' v'] m IH]; simpl; auto.
  destruct (String.eqb k' k) eqn:E; simpl.
  - apply String.eqb_eq in E. subst.
    destruct (string_dec k k); [|contradiction].
    reflexivity.
  - apply String.eqb_neq in E. rewrite IH.
    destruct (string_dec k' k); [contradiction|].
    destruct (in_dec string_dec k (map fst m)); reflexivity.
Qed.

Lemma map_set_NoDup (m : RMap) k v :
  NoDup (map fst m) -> NoDup (map fst (map_set m k v)).
Proof.
  intros H. rewrite map_set_keys.
  destruct (in_dec string_dec k (map fst m)) as [|Hn]; auto.
  apply NoDup_app; [assumption|constructor; [intros []|constructor]|].
  intros x Hx [<-|[]]. contradiction.
Qed.

Lemma map_get_In (m : RMap) k v : map_get m k = Some v -> In (k, v) m.
Proof.
  induction m as [|[k' v'] m IH]; simpl; [discriminate|].
  destruct (String.eqb k' k) eqn:E.
  - apply String.eqb_eq in E. intros [= ->]. subst. now left.
  - intros H. right. auto.
Qed.

Lemma In_map_get (m : RMap) k v :
  NoDup (map fst m) -> In (k, v) m -> map_get m k = Some v.
Proof.
  induction m as [|[k' v'] m IH]; simpl; [intros _ []|].
  intros Hnd [Heq|Hin].
  - injection Heq as -> ->. now rewrite String.eqb_refl.
  - inversion Hnd as [|? ? Hk Hnd']; subst.
    destruct (String.eqb k' k) eqn:E; auto.
    apply String.eqb_eq in E. subst k'.
    exfalso. apply Hk. apply (in_map fst) in Hin. exact Hin.
Qed.

(** What the counting loop leaves in the map, started from any map. *)
Lemma fold_count_get (sigs : list Signature) : forall (m : RMap) k,
  map_get (fold_left count_step sigs m) k =
  let c := count_occ string_dec (map sig_r sigs) k in
  match map_get m k with
  | Some v => Some (v + c)
  | None => if Nat.eqb c 0 then None else Some c
  end.
Proof.
  induction sigs as [|sig sigs IH]; intros m k; simpl.
  - destruct (map_get m k); [f_equal; lia | reflexivity].
  - rewrite IH. unfold count_step.
    destruct (string_dec (sig_r sig) k) as [->|Hne].
    + rewrite map_get_set_same. cbv zeta.
      destruct (map_get m k); simpl; f_equal; lia.
    + rewrite map_get_set_other by assumption. reflexivity.
Qed.

Lemma fold_count_NoDup (sigs : list Signature) : forall (m : RMap),
  NoDup (map fst m) -> NoDup (map fst (fold_left count_step sigs m)).
Proof.
  induction sigs as [|sig sigs IH]; intros m H; simpl; auto.
  apply IH. unfold count_step. now apply map_set_NoDup.
Qed.

(** The entries of [rValues] are exactly the occurring [r] strings with
    their number of occurrences. *)
Lemma rValues_of_entries (sigs : list Signature) k v :
  In (k, v) (rValues_of sigs) <->
  v = count_occ string_dec (map sig_r sigs) k /\ (0 < v)%nat.
Proof.
  unfold rValues_of. split.
  - intros Hin. apply In_map_get in Hin.
    2:{ apply fold_count_NoDup. constructor. }
    rewrite fold_count_get in Hin. simpl in Hin.
    destruct (Nat.eqb _ 0) eqn:E; [discriminate|].
    apply Nat.eqb_neq in E. injection Hin as <-. split; [reflexivity|lia].
  - intros [-> Hpos]. apply map_get_In.
    rewrite fold_count_get. simpl.
    destruct (Nat.eqb _ 0) eqn:E; [|reflexivity].
    apply Nat.eqb_eq in E. lia.
Qed.

Lemma first_repeated_some (m : RMap) :
  (exists k v, In (k, v) m /\ (1 < v)%nat) ->
  exists k v, In (k, v) m /\ (1 < v)%nat /\
    first_repeated m = Some (mkScanResult nonce_reuse (nonce_reuse_details v k) 95).
Proof.
  induction m as [|[k0 v0] m IH]; intros (k & v & Hin & Hv); [destruct Hin|].
  simpl. destruct (1 <? v0)%nat eqn:E.
  - apply Nat.ltb_lt in E. exists k0, v0. split; [now left|]. split; auto.
  - apply Nat.ltb_ge in E. destruct Hin as [Heq|Hin].
    + injection Heq as -> ->. lia.
    + destruct IH as (k1 & v1 & Hin1 & Hv1 & Hres); [now exists k, v|].
      exists k1, v1. split; [now right|]. split; auto.
Qed.

Lemma first_repeated_none (m : RMap) :
  first_repeated m = None <-> forall k v, In (k, v) m -> (v <= 1)%nat.
Proof.
  induction m as [|[k0 v0] m IH]; simpl.
  - split; [intros _ ? ? []|reflexivity].
  - destruct (1 <? v0)%nat eqn:E.
    + apply Nat.ltb_lt in E. split; [discriminate|].
      intros H. specialize (H k0 v0 (or_introl eq_refl)). lia.
    + apply Nat.ltb_ge in E. rewrite IH. split.
      * intros H k v [Heq|Hin]; [injection Heq as -> ->; lia | eauto].
      * intros H k v Hin. apply (H k v). now right.
Qed.

(** No finding of reuse exactly when the [r] strings are pairwise
    distinct. *)
Lemma nonceReuse_none_iff (sigs : list Signature) :
  nonceReuse sigs = None <-> NoDup (map sig_r sigs).
Proof.
  unfold nonceReuse. rewrite first_repeated_none.
  rewrite (NoDup_count_occ string_dec). split.
  - intros H x.
    destruct (Nat.eq_dec (count_occ string_dec (map sig_r sigs) x) 0) as [E|E];
      [lia|].
    apply (H x). apply rValues_of_entries. split; [reflexivity|lia].
  - intros H k v Hin. apply rValues_of_entries in Hin as [-> _]. apply H.
Qed.

Lemma nonceReuse_ext (sigs sigs' : list Signature) :
  map sig_r sigs' = map sig_r sigs -> nonceReuse sigs' = nonceReuse sigs.
Proof.
  intros H. unfold nonceReuse, rValues_of. f_equal.
  generalize (@nil (string * nat)).
  revert sigs' H. induction sigs as [|a sigs IH]; intros [|b sigs'] H m;
    simpl in *; try discriminate; auto.
  injection H as Hr Ht. unfold count_step at 2 4. rewrite Hr. now apply IH.
Qed.

(** C1. Whenever two signatures of the set (at different positions) carry
    the same [r] string, the scan returns a [nonce_reuse] finding of
    severity 95 whose detail names an [r] that occurs [count >= 2] times
    (its first ten characters) and that [count]; and the outcome depends
    on the [r] fields only, so any set with the same [r] column, whatever
    its [s], [v] and [hash], gets the same finding. *)
Theorem scan_nonce_reuse (sigs : list Signature) (i j : nat) (a b : Signature) :
  i <> j ->
  nth_error sigs i = Some a ->
  nth_error sigs j = Some b ->
  sig_r a = sig_r b ->
  (exists r count,
      count = count_occ string_dec (map sig_r sigs) r /\
      (2 <= count)%nat /\
      scanSignatures sigs =
        Ok (Some (mkScanResult nonce_reuse
                    ("Found " ++ string_of_nat count
                       ++ " signatures with same R value ("
                       ++ substring 0 10 r
                       ++ "...). Private key recovery is possible.")
                    95))) /\
  (forall sigs', map sig_r sigs' = map sig_r sigs ->
                 scanSignatures sigs' = scanSignatures sigs).
Proof.
  intros Hij Ha Hb Hr.
  assert (Hlen : (2 <= List.length sigs)%nat).
  { assert (i < List.length sigs)%nat by (apply nth_error_Some; congruence).
    assert (j < List.length sigs)%nat by (apply nth_error_Some; congruence).
    lia. }
  assert (Hdup : ~ NoDup (map sig_r sigs)).
  { intros Hnd. apply Hij.
    rewrite NoDup_nth_error in Hnd. apply Hnd.
    - rewrite length_map. apply nth_error_Some. congruence.
    - rewrite !nth_error_map, Ha, Hb. simpl. now rewrite Hr. }
  assert (Hsome : exists k v, In (k, v) (rValues_of sigs) /\ (1 < v)%nat).
  { destruct (first_repeated (rValues_of sigs)) eqn:E.
    - clear -E. induction (rValues_of sigs) as [|[k v] m IH]; [discriminate|].
      simpl in E. destruct (1 <? v)%nat eqn:Ev.
      + apply Nat.ltb_lt in Ev. exists k, v. split; [now left|assumption].
      + destruct (IH E) as (k' & v' & Hin & Hv). exists k', v'.
        split; [now right|assumption].
    - exfalso. apply Hdup. now apply nonceReuse_none_iff. }
  apply first_repeated_some in Hsome as (k & v & Hin & Hv & Hres).
  apply rValues_of_entries in Hin as [Hcount _].
  split.
  - exists k, v. split; [assumption|]. split; [lia|].
    unfold scanSignatures.
    destruct (List.length sigs <? 2)%nat eqn:E; [apply Nat.ltb_lt in E; lia|].
    unfold nonceReuse. now rewrite Hres.
  - intros sigs' Hsame. unfold scanSignatures.
    assert (Hl : List.length sigs' = List.length sigs).
    { rewrite <- (length_map sig_r sigs'), Hsame. apply length_map. }
    rewrite Hl, (nonceReuse_ext _ _ Hsame).
    destruct (List.length sigs <? 2)%nat; [reflexivity|].
    unfold nonceReuse. now rewrite Hres.
Qed.

Lemma scan_nonce_reuse_witness :
  exists r count,
    count = count_occ string_dec (map sig_r mockSigs) r /\
    (2 <= count)%nat /\
    scanSignatures mockSigs =
      Ok (Some (mkScanResult nonce_reuse
                  ("Found " ++ string_of_nat count
                     ++ " signatures with same R value ("
                     ++ substring 0 10 r
                     ++ "...). Private key recovery is possible.")
                  95)).
Proof.
  refine (proj1 (scan_nonce_reuse mockSigs 0 1 _ _ _ _ _ _)).
  - discriminate.
  - reflexivity.
  - reflexivity.
  - reflexivity.
Defined.

(** *** Differences *)

Lemma rInts_of_length (sigs : list Signature) : forall rs,
  rInts_of sigs = Ok rs -> List.length rs = List.length sigs.
Proof.
  induction sigs as [|sig sigs IH]; simpl; intros rs H.
  - now injection H as <-.
  - destruct (JSBigInt.BigInt (sig_r sig)); [|discriminate].
    destruct (rInts_of sigs); [|discriminate].
    injection H as <-. simpl. f_equal. now apply IH.
Qed.

Lemma diffs_of_length (xs : list Z) :
  List.length (diffs_of xs) = (List.length xs - 1)%nat.
Proof.
  induction xs as [|a [|b xs] IH]; simpl in *; auto.
  rewrite IH. lia.
Qed.

Lemma diffs_of_nth (xs : list Z) : forall i,
  (i + 1 < List.length xs)%nat ->
  nth i (diffs_of xs) 0%Z = (nth (i + 1) xs 0 - nth i xs 0)%Z.
Proof.
  induction xs as [|a [|b xs] IH]; intros i Hi; simpl in Hi; try lia.
  destruct i as [|i]; [reflexivity|].
  change (diffs_of (a :: b :: xs)) with ((b - a)%Z :: diffs_of (b :: xs)).
  change (nth (S i) ((b - a)%Z :: diffs_of (b :: xs)) 0%Z)
    with (nth i (diffs_of (b :: xs)) 0%Z).
  rewrite IH by (simpl; lia). reflexivity.
Qed.

(** The second differences, read off the original sequence. *)
Lemma second_diffs_nth (xs : list Z) (i : nat) :
  (i + 2 < List.length xs)%nat ->
  nth i (diffs_of (diffs_of xs)) 0%Z =
  ((nth (i + 2) xs 0 - nth (i + 1) xs 0) - (nth (i + 1) xs 0 - nth i xs 0))%Z.
Proof.
  intros Hi. rewrite diffs_of_nth by (rewrite diffs_of_length; lia).
  rewrite !diffs_of_nth by lia.
  replace (i + 1 + 1)%nat with (i + 2)%nat by lia. reflexivity.
Qed.

Lemma small_second_diff_spec (d : Z) :
  small_second_diff d = true <-> (0 <= d < 1000)%Z.
Proof.
  unfold small_second_diff.
  rewrite orb_true_iff, andb_true_iff, Z.eqb_eq, !Z.ltb_lt. lia.
Qed.

Lemma forallb_nth {A} (f : A -> bool) (d : A) (l : list A) :
  forallb f l = true <-> forall i, (i < List.length l)%nat -> f (nth i l d) = true.
Proof.
  rewrite forallb_forall. split.
  - intros H i Hi. apply H. now apply nth_In.
  - intros H x Hx. destruct (In_nth l x d Hx) as (i & Hi & <-). now apply H.
Qed.

(** [polynomialAttack] on a set of three or more parsable signatures. *)
Lemma polynomialAttack_spec (sigs : list Signature) (rs : list Z) :
  (3 <= List.length sigs)%nat ->
  rInts_of sigs = Ok rs ->
  (polynomialAttack sigs = Ok (Some polynomial_finding) \/
   polynomialAttack sigs = Ok None) /\
  (polynomialAttack sigs = Ok (Some polynomial_finding) <->
   forall i, (i + 2 < List.length rs)%nat ->
     (0 <= (nth (i + 2) rs 0 - nth (i + 1) rs 0)
           - (nth (i + 1) rs 0 - nth i rs 0) < 1000)%Z).
Proof.
  intros Hlen Hrs. pose proof (rInts_of_length _ _ Hrs) as Hl.
  unfold polynomialAttack. rewrite Hrs.
  destruct (List.length sigs <? 3)%nat eqn:E; [apply Nat.ltb_lt in E; lia|].
  destruct (2 <=? List.length (diffs_of rs))%nat eqn:E2.
  2:{ apply Nat.leb_gt in E2. rewrite diffs_of_length in E2. lia. }
  assert (Hiff : forallb small_second_diff (diffs_of (diffs_of rs)) = true <->
    forall i, (i + 2 < List.length rs)%nat ->
     (0 <= (nth (i + 2) rs 0 - nth (i + 1) rs 0)
           - (nth (i + 1) rs 0 - nth i rs 0) < 1000)%Z).
  { rewrite (forallb_nth _ 0%Z). rewrite !diffs_of_length. split.
    - intros H i Hi. rewrite <- second_diffs_nth by assumption.
      apply small_second_diff_spec. apply H. lia.
    - intros H i Hi. apply small_second_diff_spec.
      rewrite second_diffs_nth by lia. apply H. lia. }
  destruct (forallb small_second_diff (diffs_of (diffs_of rs))).
  - split; [now left|]. split; [intros _; now apply Hiff | reflexivity].
  - split; [now right|]. split; [discriminate|].
    intros H. apply Hiff in H. discriminate.
Qed.

Lemma weakNonce_type (sigs : list Signature) (f : ScanResult) :
  weakNonce sigs = Ok (Some f) -> type f = weak_nonce.
Proof.
  unfold weakNonce. destruct (rInts_of sigs); [|discriminate].
  destruct (JSNumber.gt_times_0_3 _ _); [|discriminate].
  now intros [= <-].
Qed.

(** The integers the scan works on are the [BigInt] of the [r] strings,
    one by one. *)
Lemma rInts_of_map (sigs : list Signature) : forall rs,
  rInts_of sigs = Ok rs ->
  map JSBigInt.BigInt (map sig_r sigs) = map Some rs.
Proof.
  induction sigs as [|sig sigs IH]; simpl; intros rs H.
  - now injection H as <-.
  - destruct (JSBigInt.BigInt (sig_r sig)) as [z|]; [|discriminate].
    destruct (rInts_of sigs) as [zs|]; [|discriminate].
    injection H as <-. simpl. f_equal. now apply IH.
Qed.

Lemma map_rInts_of (sigs : list Signature) : forall rs,
  map JSBigInt.BigInt (map sig_r sigs) = map Some rs -> rInts_of sigs = Ok rs.
Proof.
  induction sigs as [|sig sigs IH]; simpl; intros [|z rs] H; try discriminate.
  - reflexivity.
  - injection H as Hz Hrest. rewrite Hz, (IH rs Hrest). reflexivity.
Qed.

(** C6. For a set of three or more signatures whose [r] strings are
    pairwise distinct and denote, through [BigInt], the integers [rs], the
    scan returns the [polynomial_attack] finding (severity 85) exactly when
    every second difference [(r(i+2) - r(i+1)) - (r(i+1) - r(i))] of [rs],
    taken in the order of the set, is in [0, 1000); no other finding of
    that kind is ever returned.  Three signatures with [r] = 100, 200, 300
    give the finding, whatever their other fields, and so do 100, 200,
    1299 (second difference 999); but 100, 200, 1300 (second difference
    1000), 1, 3, 1000000 and 100, 300, 400 (second difference -100) do
    not: there the scan goes on to the weak-nonce check. *)
Theorem scan_polynomial_attack :
  (forall (sigs : list Signature) (rs : list Z),
      (3 <= List.length sigs)%nat ->
      NoDup (map sig_r sigs) ->
      map JSBigInt.BigInt (map sig_r sigs) = map Some rs ->
      (scanSignatures sigs =
         Ok (Some (mkScanResult polynomial_attack
                     "Detected polynomial nonce generation pattern. Nonce sequence is predictable."
                     85))
       <->
       forall i, (i + 2 < List.length rs)%nat ->
         (0 <= (nth (i + 2) rs 0 - nth (i + 1) rs 0)
               - (nth (i + 1) rs 0 - nth i rs 0) < 1000)%Z) /\
      (forall f, scanSignatures sigs = Ok (Some f) ->
                 type f = polynomial_attack -> severity f = 85%Z)) /\
  (forall s1 s2 s3 v1 v2 v3 h1 h2 h3,
      scanSignatures [mkSignature "100" s1 v1 h1; mkSignature "200" s2 v2 h2;
                      mkSignature "300" s3 v3 h3] =
        Ok (Some (mkScanResult polynomial_attack
                    "Detected polynomial nonce generation pattern. Nonce sequence is predictable."
                    85))) /\
  (forall s1 s2 s3 v1 v2 v3 h1 h2 h3,
      scanSignatures [mkSignature "100" s1 v1 h1; mkSignature "200" s2 v2 h2;
                      mkSignature "1299" s3 v3 h3] =
        Ok (Some (mkScanResult polynomial_attack
                    "Detected polynomial nonce generation pattern. Nonce sequence is predictable."
                    85))) /\
  (forall s1 s2 s3 v1 v2 v3 h1 h2 h3,
      scanSignatures [mkSignature "100" s1 v1 h1; mkSignature "200" s2 v2 h2;
                      mkSignature "1300" s3 v3 h3] =
        Ok (Some (mkScanResult weak_nonce
                    "3 out of 3 signatures use low-entropy nonces." 70))) /\
  (forall s1 s2 s3 v1 v2 v3 h1 h2 h3,
      scanSignatures [mkSignature "1" s1 v1 h1; mkSignature "3" s2 v2 h2;
                      mkSignature "1000000" s3 v3 h3] =
        Ok (Some (mkScanResult weak_nonce
                    "3 out of 3 signatures use low-entropy nonces." 70))) /\
  (forall s1 s2 s3 v1 v2 v3 h1 h2 h3,
      scanSignatures [mkSignature "100" s1 v1 h1; mkSignature "300" s2 v2 h2;
                      mkSignature "400" s3 v3 h3] =
        Ok (Some (mkScanResult weak_nonce
                    "3 out of 3 signatures use low-entropy nonces." 70))).
Proof.
  split; [|repeat split; intros; vm_compute; reflexivity].
  intros sigs rs Hlen Hnd Hparsed.
  pose proof (map_rInts_of sigs rs Hparsed) as Hrs.
  destruct (polynomialAttack_spec sigs rs Hlen Hrs) as [Hcases Hiff].
  apply nonceReuse_none_iff in Hnd.
  unfold scanSignatures. rewrite Hnd.
  destruct (List.length sigs <? 2)%nat eqn:E; [apply Nat.ltb_lt in E; lia|].
  fold polynomial_finding. fold polynomial_finding in Hiff.
  destruct Hcases as [Hp|Hp]; rewrite Hp.
  - split; [split; [intros _; now apply Hiff | reflexivity]|].
    now intros f [= <-].
  - split.
    + rewrite <- Hiff, Hp. split; [|discriminate].
      intros H. apply weakNonce_type in H. discriminate.
    + intros f H Hty. apply weakNonce_type in H. congruence.
Qed.

Lemma scan_polynomial_attack_witness :
  scanSignatures [mkSignature "1" "1" 27 "a"; mkSignature "3" "2" 27 "b";
                  mkSignature "0xA" "3" 28 "c"; mkSignature "20" "4" 28 "d"] =
    Ok (Some (mkScanResult polynomial_attack
                "Detected polynomial nonce generation pattern. Nonce sequence is predictable."
                85)) /\
  scanSignatures [mkSignature "1" "1" 27 "a"; mkSignature "3" "2" 27 "b";
                  mkSignature "1000000" "3" 28 "c"] <>
    Ok (Some (mkScanResult polynomial_attack
                "Detected polynomial nonce generation pattern. Nonce sequence is predictable."
                85)).
Proof.
  split.
  - refine (proj2 (proj1 (proj1 scan_polynomial_attack _ [1; 3; 10; 20]%Z
                            _ _ _)) _).
    + simpl. lia.
    + repeat constructor; simpl; intuition discriminate.
    + reflexivity.
    + intros [|[|i]] Hi; simpl in *; lia.
  - intros H.
    refine (_ (proj1 (proj1 (proj1 scan_polynomial_attack _ [1; 3; 1000000]%Z
                               _ _ _)) H 0%nat _)).
    + simpl. lia.
    + simpl. lia.
    + repeat constructor; simpl; intuition discriminate.
    + reflexivity.
    + simpl. lia.
Defined.

(** *** Weak nonces *)

Lemma weak_bound_value :
  weak_bound =
  115792089237316195423570985008687907853269984665640564039457584007913129639%Z.
Proof. reflexivity. Qed.

Lemma weak_count_le (rs : list Z) : (weak_count rs <= List.length rs)%nat.
Proof. unfold weak_count. apply filter_length_le. Qed.

(** C7. For a set of two or more signatures (fewer than 2^32, the bound
    on an array) with integer [r] values, on which neither the reuse check
    nor the polynomial check reports anything, the scan returns the
    [weak_nonce] finding of severity 70, its detail giving the count and
    the total, exactly when the number of [r] below [maxR / 1000] is more
    than three tenths of the number of signatures, and returns no finding
    otherwise; so 4 of 10 give the finding and 2 of 10 give none. *)
Theorem scan_weak_nonce (sigs : list Signature) (rs : list Z) :
  (2 <= List.length sigs)%nat ->
  (Z.of_nat (List.length sigs) < 2 ^ 32)%Z ->
  nonceReuse sigs = None ->
  polynomialAttack sigs = Ok None ->
  rInts_of sigs = Ok rs ->
  let total := List.length sigs in
  let weak := List.length (filter (fun r => (r <? Z.quot maxR 1000)%Z) rs) in
  (scanSignatures sigs =
     Ok (Some (mkScanResult weak_nonce
                 (string_of_nat weak ++ " out of " ++ string_of_nat total
                    ++ " signatures use low-entropy nonces.")
                 70))
   <-> (3 * total < 10 * weak)%nat) /\
  (scanSignatures sigs = Ok None <-> (10 * weak <= 3 * total)%nat) /\
  (total = 10%nat -> weak = 4%nat ->
   scanSignatures sigs =
     Ok (Some (mkScanResult weak_nonce
                 "4 out of 10 signatures use low-entropy nonces." 70))) /\
  (total = 10%nat -> weak = 2%nat -> scanSignatures sigs = Ok None).
Proof.
  intros Hlen Hbound Hreuse Hpoly Hrs total weak.
  assert (Hscan : scanSignatures sigs =
    if (3 * Z.of_nat total <? 10 * Z.of_nat weak)%Z
    then Ok (Some (mkScanResult weak_nonce (weak_details weak total) 70))
    else Ok None).
  { unfold scanSignatures. rewrite Hreuse, Hpoly.
    destruct (List.length sigs <? 2)%nat eqn:E; [apply Nat.ltb_lt in E; lia|].
    unfold weakNonce. rewrite Hrs.
    rewrite JSNumberProps.gt_times_0_3_exact by (fold total; lia).
    reflexivity. }
  assert (Hcases :
    ((3 * total < 10 * weak)%nat /\
     scanSignatures sigs =
       Ok (Some (mkScanResult weak_nonce (weak_details weak total) 70))) \/
    ((10 * weak <= 3 * total)%nat /\ scanSignatures sigs = Ok None)).
  { rewrite Hscan.
    destruct (Z.ltb_spec (3 * Z.of_nat total) (10 * Z.of_nat weak));
      [left|right]; (split; [lia|reflexivity]). }
  unfold weak_details in Hcases.
  destruct Hcases as [[Hc Hres]|[Hc Hres]]; rewrite Hres.
  - split; [tauto|]. split; [split; [discriminate|lia]|].
    split; [|intros; lia].
    intros Ht Hw. now rewrite Ht, Hw.
  - split; [split; [discriminate|lia]|]. split; [tauto|].
    split; [intros; lia|reflexivity].
Qed.

Lemma scan_weak_nonce_witness :
  scanSignatures four_weak_of_ten =
    Ok (Some (mkScanResult weak_nonce
                "4 out of 10 signatures use low-entropy nonces." 70)) /\
  scanSignatures two_weak_of_ten = Ok None.
Proof.
  split.
  - refine (proj1 (proj2 (proj2
              (scan_weak_nonce four_weak_of_ten
                 [1; 5; 2; 7; 8 * 16 ^ 63; 9 * 16 ^ 63; 10 * 16 ^ 63;
                  11 * 16 ^ 63; 12 * 16 ^ 63; 13 * 16 ^ 63]%Z _ _ _ _ _)))
              _ _).
    + simpl. lia.
    + simpl. lia.
    + reflexivity.
    + reflexivity.
    + vm_compute. reflexivity.
    + reflexivity.
    + reflexivity.
  - refine (proj2 (proj2 (proj2
              (scan_weak_nonce two_weak_of_ten
                 [1; 5; 8 * 16 ^ 63; 9 * 16 ^ 63; 10 * 16 ^ 63;
                  11 * 16 ^ 63; 12 * 16 ^ 63; 13 * 16 ^ 63; 14 * 16 ^ 63;
                  15 * 16 ^ 63]%Z _ _ _ _ _)))
              _ _).
    + simpl. lia.
    + simpl. lia.
    + reflexivity.
    + reflexivity.
    + vm_compute. reflexivity.
    + reflexivity.
    + reflexivity.
Defined.


(** C9. With the built-in signature source, every address gets the same
    [nonce_reuse] finding of severity 95: the address is ignored, the two
    mock signatures share their [r], and the polynomial, weak-nonce and
    no-finding branches are never reached. *)
Theorem scan_always_nonce_reuse (addr : string) :
  extractSignatures addr = mockSigs /\
  scan addr =
    Ok (Some (mkScanResult nonce_reuse
                "Found 2 signatures with same R value (0x12345678...). Private key recovery is possible."
                95)) /\
  nonceReuse (extractSignatures addr) <> None.
Proof.
  split; [reflexivity|]. split; [reflexivity|].
  discriminate.
Qed.

End ScannerProps.

(** ** Prioritization *)
Module WatsonxProps.
Import Watsonx.
Local Open Scope Z_scope.

Example addr_hash_samples :
  map addr_hash ["a"; "zz"; "0xaaa"; "0xabcdef0123456789"] =
  [97; 3904; 48000249; -5236689680].
Proof. reflexivity. Qed.

Lemma tier_index_range (hash : Z) : 0 <= Z.rem (Z.abs hash) 3 < 3.
Proof. apply Z.rem_bound_pos; lia. Qed.

(** The tier and the depth of any hash value go together, and the risk
    is below 100.  This holds of every integer, hence also of a hash
    that a very long address has pushed past 2^53, where a number is no
    longer the exact integer of [addr_hash]. *)
Lemma prioritization_of_hash_coupled (hash : Z) :
  let p := prioritization_of_hash hash in
  nth_error priorityMap (Z.to_nat (Z.rem (Z.abs hash) 3)) = Some (priority p) /\
  (priority p = H <-> depth p = 1) /\
  (priority p = M <-> depth p = 2) /\
  (priority p = L <-> depth p = 3) /\
  0 <= risk p <= 99.
Proof.
  pose proof (tier_index_range hash) as Hr.
  assert (Hrisk : 0 <= Z.abs (Z.rem hash 100) <= 99).
  { pose proof (Z.rem_bound_abs hash 100 ltac:(lia)). lia. }
  unfold prioritization_of_hash. cbn [priority depth risk].
  assert (Hc : Z.rem (Z.abs hash) 3 = 0 \/ Z.rem (Z.abs hash) 3 = 1 \/
               Z.rem (Z.abs hash) 3 = 2) by lia.
  destruct Hc as [E|[E|E]]; rewrite E; simpl;
    (split; [reflexivity|]);
    repeat split; try assumption; try lia; try discriminate; try reflexivity.
Qed.

(** C10. Offline, that is with the mock that [prioritize] always uses,
    every address gets a tier and a depth read off the same residue of
    its hash modulo 3: H exactly with depth 1, M exactly with depth 2,
    L exactly with depth 3; and a risk between 0 and 99. *)
Theorem prioritize_tier_depth_coupled (addr : string) :
  let p := prioritize addr in
  p = generateMockPrioritization addr /\
  depth p = Z.rem (Z.abs (addr_hash addr)) 3 + 1 /\
  nth_error priorityMap (Z.to_nat (Z.rem (Z.abs (addr_hash addr)) 3))
    = Some (priority p) /\
  (priority p = H <-> depth p = 1) /\
  (priority p = M <-> depth p = 2) /\
  (priority p = L <-> depth p = 3) /\
  0 <= risk p <= 99.
Proof.
  cbv zeta. split; [reflexivity|]. split; [reflexivity|].
  apply (prioritization_of_hash_coupled (addr_hash addr)).
Qed.

End WatsonxProps.

(** ** The decision policy *)
Module DecisionProps.
Import JS DecisionAI.
Local Open Scope Z_scope.

(** C4. The fallback is a function of the state (so it is total and
    deterministic), and it is the table: for every state exactly one row
    of the printed table applies, and the action and confidence returned
    are those of that row.  Every threshold is strict, so High with risk
    exactly 70 is a standard scan of confidence 95, and 71 a deep scan. *)
Theorem fallbackDecide_table (state : DecisionState) :
  (exists cond,
      rows_for state =
        [(priority state, cond,
          action (fallbackDecide state), confidence (fallbackDecide state))]) /\
  (forall p cond a c,
      In (p, cond, a, c) rule_table ->
      p = priority state -> cond (risk state) = true ->
      action (fallbackDecide state) = a /\ confidence (fallbackDecide state) = c) /\
  (priority state = Watsonx.H -> risk state = 70 ->
      action (fallbackDecide state) = SCAN /\ confidence (fallbackDecide state) = 95) /\
  (priority state = Watsonx.H -> risk state = 71 ->
      action (fallbackDecide state) = DEEP /\ confidence (fallbackDecide state) = 98).
Proof.
  assert (Hrows : exists cond,
      rows_for state =
        [(priority state, cond,
          action (fallbackDecide state), confidence (fallbackDecide state))]).
  { unfold rows_for, fallbackDecide, rule_table. simpl.
    rewrite !Z.gtb_ltb.
    destruct (priority state); simpl;
      repeat match goal with
        | |- context [?a <? ?b] =>
            let E := fresh "E" in
            destruct (Z.ltb_spec a b) as [E|E];
            [ assert ((b <=? a) = false) as -> by (apply Z.leb_gt; lia)
            | assert ((b <=? a) = true) as -> by (apply Z.leb_le; lia) ]
        end; simpl; eexists; reflexivity. }
  split; [exact Hrows|].
  assert (Hall : forall p cond a c,
      In (p, cond, a, c) rule_table ->
      p = priority state -> cond (risk state) = true ->
      action (fallbackDecide state) = a /\ confidence (fallbackDecide state) = c).
  { intros p cond a c Hin Hp Hc.
    assert (Hf : In (p, cond, a, c) (rows_for state)).
    { unfold rows_for. apply filter_In. split; [assumption|].
      rewrite Hc, Hp. now destruct (priority state). }
    destruct Hrows as [cond' Hrows]. rewrite Hrows in Hf.
    destruct Hf as [Heq|[]]. injection Heq as _ _ -> ->. now split. }
  split; [exact Hall|].
  split; intros Hp Hr.
  - apply (Hall Watsonx.H (fun risk => risk <=? 70)); simpl; auto.
    rewrite Hr. reflexivity.
  - apply (Hall Watsonx.H (fun risk => risk >? 70)); simpl; auto.
    rewrite Hr. reflexivity.
Qed.

Lemma fallbackDecide_table_witness :
  let state := mkState "0xabc" Watsonx.H 70 1 None in
  action (fallbackDecide state) = SCAN /\ confidence (fallbackDecide state) = 95.
Proof.
  refine (proj1 (proj2 (proj2 (fallbackDecide_table
                                 (mkState "0xabc" Watsonx.H 70 1 None)))) _ _).
  - reflexivity.
  - reflexivity.
Defined.

Example jsonMatch_samples :
  map jsonMatch ["I cannot decide"; "} {"; "a {b} c {d} e"; "{"; "x{}y"] =
  [None; None; Some "{b} c {d}"; None; Some "{}"].
Proof. reflexivity. Qed.

Section ModelPath.

Variable JSON_parse : string -> result json.
Variables WATSONX_API_KEY WATSONX_SPACE_ID : option string.
Variable generate : string -> result string.

Let decide := decide JSON_parse WATSONX_API_KEY WATSONX_SPACE_ID generate.

(** C5, as the code has it.  On the model path (credentials set, the
    service answered with [response]):
    - a response in which the pattern finds no JSON object, or whose
      match [JSON.parse] rejects, gives the fixed decision
      SLEEP / "Error parsing AI decision, defaulting to sleep" / 0,
      whatever the state, and logs the parse error;
    - a match that parses to an object is passed on field by field,
      absent fields as [undefined], without any validation.
    The rule table answers only when there is no API key, or when the
    call to the service throws (then with a warning logged). *)
Theorem decide_parse_failure (state : DecisionState) :
  (forall response,
      env_truthy WATSONX_API_KEY = true ->
      env_truthy WATSONX_SPACE_ID = true ->
      generate (decide_prompt state) = Ok response ->
      (jsonMatch response = None ->
         decide state =
           (raw_of (mkDecision SLEEP
                      "Error parsing AI decision, defaulting to sleep" 0),
            [ErrParse "Error: No JSON found in response"])) /\
      (forall text error,
         jsonMatch response = Some text -> JSON_parse text = Throw error ->
         decide state =
           (raw_of (mkDecision SLEEP
                      "Error parsing AI decision, defaulting to sleep" 0),
            [ErrParse error])) /\
      (forall text props,
         jsonMatch response = Some text -> JSON_parse text = Ok (JObj props) ->
         decide state =
           (mkRaw (lookup props "action") (lookup props "reasoning")
                  (lookup props "confidence"), []))) /\
  (env_truthy WATSONX_API_KEY = false ->
     decide state = (raw_of (fallbackDecide state), [])) /\
  (forall error,
     env_truthy WATSONX_API_KEY = true ->
     env_truthy WATSONX_SPACE_ID = true ->
     generate (decide_prompt state) = Throw error ->
     decide state = (raw_of (fallbackDecide state), [ErrApi error; WarnFallback])).
Proof.
  unfold decide, DecisionAI.decide, callWatsonxAPI.
  split; [|split].
  - intros response Hk Hs Hg. rewrite Hk, Hs, Hg. simpl.
    unfold parseDecisionResponse, parse_response.
    split; [|split].
    + intros ->. reflexivity.
    + intros text error -> ->. reflexivity.
    + intros text props -> ->. reflexivity.
  - intros ->. reflexivity.
  - intros error Hk Hs Hg. rewrite Hk, Hs, Hg. reflexivity.
Qed.

End ModelPath.

Lemma decide_parse_failure_witness :
  decide (fun _ => Throw "SyntaxError") (Some "key") (Some "space")
         (fun _ => Ok "I cannot decide")
         (mkState "0xabc" Watsonx.H 90 1 None) =
    (raw_of (mkDecision SLEEP "Error parsing AI decision, defaulting to sleep" 0),
     [ErrParse "Error: No JSON found in response"]).
Proof.
  refine (proj1 (proj1 (decide_parse_failure
                          (fun _ => Throw "SyntaxError") (Some "key") (Some "space")
                          (fun _ => Ok "I cannot decide")
                          (mkState "0xabc" Watsonx.H 90 1 None))
                       "I cannot decide" _ _ _) _);
    reflexivity.
Defined.

(** C5 as stated fails: with credentials set, the state High / risk 90
    and the unparsable answer "I cannot decide", [decide] returns
    SLEEP with confidence 0, while the rule table gives DEEP with
    confidence 98 for that state. *)
Lemma decide_parse_failure_counterexample :
  let state := mkState "0xabc" Watsonx.H 90 1 None in
  let response := "I cannot decide" in
  let d := fst (decide (fun _ => Throw "SyntaxError") (Some "key") (Some "space")
                       (fun _ => Ok response) state) in
  jsonMatch response = None /\
  fallbackDecide state =
    mkDecision DEEP "Critical priority with high risk requires deep analysis" 98 /\
  d = raw_of (mkDecision SLEEP "Error parsing AI decision, defaulting to sleep" 0) /\
  d <> raw_of (fallbackDecide state).
Proof.
  cbv zeta. split; [reflexivity|]. split; [reflexivity|].
  split; [reflexivity|]. discriminate.
Qed.

End DecisionProps.

(** ** The scheduler *)
Module SchedulerProps.
Import JS Scheduler.

Section Generic.

Context {W : Type} {collaborators : Collaborators W}.

Lemma starts_ret {A} (a : A) : starts (W:=W) [] (ret a).
Proof.
  intros e. simpl. rewrite app_nil_r. split; [reflexivity|].
  exists []. now rewrite app_nil_r.
Qed.

Lemma starts_log (line : log_line) : starts (W:=W) [] (log line).
Proof.
  intros e. simpl. rewrite app_nil_r. split; [reflexivity|]. now exists [line].
Qed.

Lemma starts_invoke {A} (c : call) (f : Collab W A) :
  starts (started [c]) (invoke c f).
Proof.
  intros e. unfold invoke. destruct (f (world e)) as [[r lines] w]. simpl.
  split; [|now exists lines].
  unfold started. now rewrite flat_map_app.
Qed.

Lemma starts_bind {A B} (l : list string) (c : M W A) (k : A -> M W B) :
  starts l c -> (forall a, starts [] (k a)) -> starts l (bind c k).
Proof.
  intros Hc Hk e. unfold bind. specialize (Hc e).
  destruct (c e) as [[a|error] e1]; simpl in *; [|exact Hc].
  destruct Hc as [Hs [l1 Hl1]]. destruct (Hk a e1) as [Hs2 [l2 Hl2]].
  rewrite Hs2, Hs, app_nil_r. split; [reflexivity|].
  exists (l1 ++ l2)%list. now rewrite Hl2, Hl1, app_assoc.
Qed.

Lemma starts_try {A} (l : list string) (body : M W A) (handler : string -> M W A) :
  starts l body -> (forall error, starts [] (handler error)) ->
  starts l (try_catch body handler).
Proof.
  intros Hb Hh e. unfold try_catch. specialize (Hb e).
  destruct (body e) as [[a|error] e1]; simpl in *; [exact Hb|].
  destruct Hb as [Hs [l1 Hl1]]. destruct (Hh error e1) as [Hs2 [l2 Hl2]].
  rewrite Hs2, Hs, app_nil_r. split; [reflexivity|].
  exists (l1 ++ l2)%list. now rewrite Hl2, Hl1, app_assoc.
Qed.

Lemma processAddress_body_starts (addr : string) :
  starts [addr] (processAddress_body addr).
Proof.
  unfold processAddress_body.
  apply starts_bind; [apply (starts_invoke (CallPrioritize addr))|].
  intros prioritization.
  apply starts_bind; [apply (starts_invoke (CallDecide addr))|].
  intros decision.
  destruct (action_is decision "SLEEP"); [apply starts_log|].
  destruct (action_is decision "SCAN" || action_is decision "DEEP");
    [|apply starts_ret].
  apply starts_bind; [apply (starts_invoke (CallScan addr))|].
  intros [v|]; [|apply starts_log].
  apply starts_bind; [apply (starts_invoke (CallStore addr))|].
  intros _. apply starts_bind; [apply starts_log|].
  intros _. apply starts_log.
Qed.

Lemma processAddress_starts (addr : string) : starts [addr] (processAddress addr).
Proof.
  apply starts_try; [apply processAddress_body_starts|].
  intros error. apply starts_log.
Qed.

(** Whatever the collaborators do, [processAddress] returns. *)
Lemma processAddress_ok (addr : string) (e : Env W) :
  fst (processAddress addr e) = Ok tt.
Proof.
  unfold processAddress, try_catch.
  destruct (processAddress_body addr e) as [[[]|error] e1]; reflexivity.
Qed.

Lemma processAddress_caught (addr : string) (e e1 : Env W) (error : string) :
  processAddress_body addr e = (Throw error, e1) ->
  processAddress addr e = (Ok tt, say (ErrProcessing addr error) e1).
Proof. intros H. unfold processAddress, try_catch. now rewrite H. Qed.

Lemma for_each_processAddress (addresses : list string) : forall e,
  for_each addresses processAddress e = (Ok tt, after addresses e).
Proof.
  induction addresses as [|addr rest IH]; intros e; [reflexivity|].
  simpl. unfold bind. pose proof (processAddress_ok addr e) as Hok.
  destruct (processAddress addr e) as [r e1]. simpl in Hok. subst r.
  apply IH.
Qed.

Lemma after_starts (addresses : list string) : forall e,
  started (calls (after addresses e)) = (started (calls e) ++ addresses)%list /\
  exists lines, console (after addresses e) = (console e ++ lines)%list.
Proof.
  induction addresses as [|addr rest IH]; intros e; simpl.
  - rewrite app_nil_r. split; [reflexivity|]. exists []. now rewrite app_nil_r.
  - destruct (processAddress_starts addr e) as [Hs [l1 Hl1]].
    destruct (IH (snd (processAddress addr e))) as [Hs2 [l2 Hl2]].
    unfold after in *. rewrite Hs2, Hs, <- app_assoc. split; [reflexivity|].
    exists (l1 ++ l2)%list. now rewrite Hl2, Hl1, app_assoc.
Qed.

Lemma after_cons (addr : string) (rest : list string) (e : Env W) :
  after (addr :: rest) e = after rest (snd (processAddress addr e)).
Proof. reflexivity. Qed.

Lemma after_app (xs ys : list string) (e : Env W) :
  after (xs ++ ys) e = after ys (after xs e).
Proof. apply fold_left_app. Qed.

(** With the schedules at hand, the cycle is the [for] loop. *)
Lemma scanCycle_fetched (e : Env W) schedules lines w :
  getSchedules (world e) = (Ok schedules, lines, w) ->
  scanCycle e =
    (Ok tt, after (map target (filter isActive schedules))
                  (mkEnv w (console e ++ lines) (calls e ++ [CallGetSchedules]))).
Proof.
  intros H. unfold scanCycle, try_catch, getAddressesToCheck, bind, invoke.
  rewrite H. simpl. now rewrite for_each_processAddress.
Qed.

Lemma scanCycle_ok (e : Env W) : fst (scanCycle e) = Ok tt.
Proof.
  unfold scanCycle, try_catch.
  match goal with |- context [match ?c with _ => _ end] => destruct c as [[[]|error] e1] end;
    reflexivity.
Qed.

(** A cycle in flight that is left to go on step by step does what
    [scanCycle] does in one go. *)
Lemma drain_targets (addresses : list string) : forall e,
  drain (List.length addresses) (next_of addresses) e = (None, after addresses e).
Proof.
  induction addresses as [|addr rest IH]; intros e; [reflexivity|].
  pose proof (processAddress_ok addr e) as Hok.
  change (drain (S (List.length rest)) (Some (CycleTargets (addr :: rest))) e
          = (None, after rest (snd (processAddress addr e)))).
  cbn [drain step_cycle].
  destruct (processAddress addr e) as [r e1]. cbn [fst snd] in *. subst r.
  apply IH.
Qed.

Lemma drain_scanCycle (e : Env W) :
  exists n, drain n (Some CycleFetching) e = (None, snd (scanCycle e)).
Proof.
  unfold scanCycle, try_catch, bind.
  destruct (getAddressesToCheck e) as [[addresses|error] e1] eqn:E.
  - exists (S (List.length addresses)). simpl. rewrite E.
    rewrite for_each_processAddress. apply drain_targets.
  - exists 1%nat. simpl. now rewrite E.
Qed.

(** *** Timers under passive steps *)

Lemma tick_armed (id : nat) (s : Sys W) :
  armed id s = true ->
  tick id s = Some (mkSys (loop s) (timers s) (next_timer s) (env s)
                          (inflight s ++ [CycleFetching])).
Proof. intros H. unfold tick. now rewrite H. Qed.

Lemma exec_passive (l : label) (s s' : Sys W) :
  passive l = true -> exec l s = Some s' ->
  timers s' = timers s /\ loop s' = loop s.
Proof.
  destruct l as [secs| |id|i]; simpl; try discriminate; intros _.
  - unfold tick. destruct (armed id s); [|discriminate].
    intros [= <-]. now split.
  - unfold resume. destruct (nth_error (inflight s) i); [|discriminate].
    destruct (step_cycle c (env s)). intros [= <-]. now split.
Qed.

Lemma run_passive (ls : list label) : forall (s s' : Sys W),
  forallb passive ls = true -> run ls s = Some s' ->
  timers s' = timers s /\ loop s' = loop s.
Proof.
  induction ls as [|l ls IH]; simpl; intros s s' Hp Hrun.
  - injection Hrun as <-. now split.
  - apply andb_prop in Hp as [Hl Hls].
    destruct (exec l s) as [s1|] eqn:E; [|discriminate].
    destruct (exec_passive _ _ _ Hl E) as [Ht Hlo].
    destruct (IH _ _ Hls Hrun) as [Ht' Hlo']. split; congruence.
Qed.

(** C2. Whatever the collaborators do (return, throw, log):
    - a cycle returns normally;
    - an exception raised while a target is processed is caught by
      [processAddress], which logs it with the address and returns;
    - once the schedules are fetched, every active target is
      processed, in order: the cycle is [processAddress] on each of
      them in turn, the targets begun are exactly the active ones, and
      the error of each target that failed is on the console at the end;
    - the same work is done when the cycle goes on step by step from
      the timer firing;
    - the timer stays armed through firings and cycle steps, so the
      next firing starts a new cycle. *)
Theorem cycle_isolates_target_failures (e : Env W) :
  fst (scanCycle e) = Ok tt /\
  (forall addr e0 error e1,
      processAddress_body addr e0 = (Throw error, e1) ->
      processAddress addr e0 = (Ok tt, say (ErrProcessing addr error) e1)) /\
  (forall schedules lines w,
      getSchedules (world e) = (Ok schedules, lines, w) ->
      let addresses := map target (filter isActive schedules) in
      let e0 := mkEnv w (console e ++ lines) (calls e ++ [CallGetSchedules]) in
      scanCycle e = (Ok tt, after addresses e0) /\
      started (calls (snd (scanCycle e))) = (started (calls e) ++ addresses)%list /\
      (forall i addr error e1,
          nth_error addresses i = Some addr ->
          processAddress_body addr (after (firstn i addresses) e0)
            = (Throw error, e1) ->
          In (ErrProcessing addr error) (console (snd (scanCycle e))))) /\
  (exists n, drain n (Some CycleFetching) e = (None, snd (scanCycle e))) /\
  (forall (s s' : Sys W) id ls,
      armed id s = true -> forallb passive ls = true -> run ls s = Some s' ->
      exists s'', tick id s' = Some s'' /\
                  inflight s'' = (inflight s' ++ [CycleFetching])%list).
Proof.
  split; [apply scanCycle_ok|].
  split; [intros addr e0 error e1; apply processAddress_caught|].
  split; [|split; [apply drain_scanCycle|]].
  - intros schedules lines w Hget addresses e0.
    pose proof (scanCycle_fetched e schedules lines w Hget) as Hcycle.
    fold addresses e0 in Hcycle. rewrite Hcycle. cbn [snd].
    split; [reflexivity|]. split.
    + destruct (after_starts addresses e0) as [Hs _]. rewrite Hs.
      subst e0. cbn [calls]. unfold started at 1.
      rewrite flat_map_app. simpl. now rewrite app_nil_r.
    + intros i addr error e1 Hnth Hthrow.
      assert (Hsplit : addresses =
                (firstn i addresses ++ addr :: skipn (S i) addresses)%list).
      { rewrite <- (firstn_skipn i addresses) at 1. f_equal.
        clear -Hnth. revert i Hnth.
        induction addresses as [|a l IH]; intros [|i] H; simpl in *;
          try discriminate.
        - now injection H as ->.
        - now apply IH. }
      rewrite Hsplit, after_app, after_cons.
      rewrite (processAddress_caught _ _ _ _ Hthrow). cbn [snd].
      destruct (after_starts (skipn (S i) addresses)
                  (say (ErrProcessing addr error) e1)) as [_ [more Hmore]].
      rewrite Hmore.
      apply in_or_app. left. simpl. apply in_or_app. right. now left.
  - intros s s' id ls Harmed Hp Hrun.
    destruct (run_passive ls s s' Hp Hrun) as [Ht _].
    assert (Harmed' : armed id s' = true) by (unfold armed in *; now rewrite Ht).
    rewrite (tick_armed id s' Harmed'). eexists. split; reflexivity.
Qed.

End Generic.

Lemma cycle_isolates_target_failures_witness :
  started (calls (snd (scanCycle (mkEnv sample_db [] [])))) =
    ["0xaaa"; "0xabcdef0123456789"; "zz"] /\
  In (ErrProcessing "0xaaa" "TypeError: storage.storeVulnerability is not a function")
     (console (snd (scanCycle (mkEnv sample_db [] [])))).
Proof.
  destruct (cycle_isolates_target_failures (mkEnv sample_db [] []))
    as (_ & _ & H & _).
  destruct (H sample_db [] sample_db eq_refl) as (_ & Hstarted & Hlogged).
  split.
  - exact Hstarted.
  - exact (Hlogged 0%nat "0xaaa" _ _ eq_refl eq_refl).
Defined.

Section Timer.

Context {W : Type} {collaborators : Collaborators W}.

Lemma run_app (ls1 ls2 : list label) : forall (s : Sys W),
  run (ls1 ++ ls2) s =
  match run ls1 s with Some s1 => run ls2 s1 | None => None end.
Proof.
  induction ls1 as [|l ls1 IH]; intros s; simpl; [reflexivity|].
  destruct (exec l s); [apply IH | reflexivity].
Qed.

Lemma reachable_run (w : W) (s s' : Sys W) (ls : list label) :
  reachable w s -> run ls s = Some s' -> reachable w s'.
Proof.
  intros [ls0 H0] Hrun. exists (ls0 ++ ls)%list. now rewrite run_app, H0.
Qed.

Lemma start_inv (secs : Z) (s : Sys W) : timer_inv s -> timer_inv (start secs s).
Proof.
  intros H. unfold start.
  destruct (isRunning (loop s)) eqn:E; [exact H|].
  unfold timer_inv in *.
  destruct (interval (loop s)); [destruct H as [H _]; congruence|].
  destruct H as [_ Ht]. simpl. rewrite Ht. simpl.
  split; [reflexivity|]. eexists. reflexivity.
Qed.

Lemma stop_inv (s : Sys W) : timer_inv s -> timer_inv (stop s).
Proof.
  unfold timer_inv, stop. intros H. simpl. split; [reflexivity|].
  destruct (interval (loop s)) as [id|].
  - destruct H as [_ [period ->]]. simpl. now rewrite Nat.eqb_refl.
  - apply H.
Qed.

Lemma exec_inv (l : label) (s s' : Sys W) :
  timer_inv s -> exec l s = Some s' -> timer_inv s'.
Proof.
  intros H. destruct l as [secs| |id|i]; simpl.
  - intros [= <-]. now apply start_inv.
  - intros [= <-]. now apply stop_inv.
  - unfold tick. destruct (armed id s); [|discriminate]. now intros [= <-].
  - unfold resume. destruct (nth_error (inflight s) i); [|discriminate].
    destruct (step_cycle c (env s)). now intros [= <-].
Qed.

Lemma reachable_inv (w : W) (s : Sys W) : reachable w s -> timer_inv s.
Proof.
  intros [ls Hrun].
  assert (Hinit : timer_inv (init w)) by (split; reflexivity).
  revert Hrun Hinit. generalize (init w).
  induction ls as [|l ls IH]; simpl; intros s0 Hrun H0.
  - now injection Hrun as <-.
  - destruct (exec l s0) as [s1|] eqn:E; [|discriminate].
    apply (IH s1 Hrun). now apply (exec_inv l s0).
Qed.

Lemma ticks_pile_up (id : nat) (n : nat) : forall (s : Sys W),
  armed id s = true ->
  exists s', run (repeat (Tick id) n) s = Some s' /\
             inflight s' = (inflight s ++ repeat CycleFetching n)%list.
Proof.
  induction n as [|n IH]; intros s Ha; simpl.
  - exists s. now rewrite app_nil_r.
  - rewrite (tick_armed id s Ha).
    destruct (IH (mkSys (loop s) (timers s) (next_timer s) (env s)
                        (inflight s ++ [CycleFetching]))) as (s' & Hrun & Hin);
      [exact Ha|].
    exists s'. split; [exact Hrun|]. rewrite Hin. simpl.
    now rewrite <- app_assoc.
Qed.

(** C3, as the code has it.  The timer is a plain [setInterval]: a
    firing of the armed timer starts a new cycle without looking at the
    cycles in flight (nothing is awaited, [isRunning] is read by
    [start] only), so any number of cycles can be in flight together. *)
Theorem timer_fires_regardless (w : W) (s : Sys W) (id : nat) :
  reachable w s ->
  armed id s = true ->
  tick id s = Some (mkSys (loop s) (timers s) (next_timer s) (env s)
                          (inflight s ++ [CycleFetching])) /\
  (forall n, exists s',
      reachable w s' /\
      List.length (inflight s') = (List.length (inflight s) + n)%nat).
Proof.
  intros Hreach Ha. split; [now apply tick_armed|].
  intros n. destruct (ticks_pile_up id n s Ha) as (s' & Hrun & Hin).
  exists s'. split; [exact (reachable_run w s s' _ Hreach Hrun)|].
  now rewrite Hin, length_app, repeat_length.
Qed.

(** C8. In every state the loop can reach:
    - at most one timer is armed;
    - [start] on a running loop changes nothing, so two calls of
      [start] in a row arm one timer and are the same as the first;
    - [stop] leaves no timer and a loop that is not running, and a
      second [stop] in a row changes nothing but to print its line again;
    - [start] after [stop] arms a timer with the new period, and that
      timer firing starts a cycle. *)
Theorem start_stop_state_machine (w : W) (s : Sys W) :
  reachable w s ->
  (List.length (timers s) <= 1)%nat /\
  (isRunning (loop s) = true -> forall secs, start secs s = s) /\
  (forall a b, start b (start a s) = start a s /\
               List.length (timers (start a s)) = 1%nat) /\
  (timers (stop s) = [] /\ loop (stop s) = mkLoop false None) /\
  stop (stop s) =
    mkSys (loop (stop s)) (timers (stop s)) (next_timer (stop s))
          (say LogStopped (env (stop s))) (inflight (stop s)) /\
  (forall secs,
      let s' := start secs (stop s) in
      exists id,
        loop s' = mkLoop true (Some id) /\
        timers s' = [(id, secs * 1000)%Z] /\
        tick id s' = Some (mkSys (loop s') (timers s') (next_timer s') (env s')
                                 (inflight s ++ [CycleFetching]))).
Proof.
  intros Hreach. pose proof (reachable_inv w s Hreach) as Hinv.
  pose proof (stop_inv s Hinv) as Hstop.
  assert (Hstopped : timers (stop s) = [] /\ loop (stop s) = mkLoop false None).
  { split; [|reflexivity]. unfold timer_inv in Hstop. simpl in Hstop. apply Hstop. }
  split; [|split; [|split; [|split; [exact Hstopped|split]]]].
  - unfold timer_inv in Hinv. destruct (interval (loop s)).
    + destruct Hinv as [_ [period ->]]. simpl. lia.
    + destruct Hinv as [_ ->]. simpl. lia.
  - intros Hrun secs. unfold start. now rewrite Hrun.
  - intros a b. split.
    + assert (Hr : isRunning (loop (start a s)) = true).
      { unfold start. destruct (isRunning (loop s)) eqn:E; [exact E|reflexivity]. }
      unfold start at 1. now rewrite Hr.
    + pose proof (start_inv a s Hinv) as Hs. unfold timer_inv in Hs.
      unfold start in *. destruct (isRunning (loop s)) eqn:E.
      * destruct (interval (loop s)); [|destruct Hs; congruence].
        destruct Hs as [_ [period ->]]. reflexivity.
      * simpl in Hs. destruct Hs as [_ [period ->]]. reflexivity.
  - destruct Hstopped as [Ht Hl]. unfold stop at 1. rewrite Hl. reflexivity.
  - intros secs s'. destruct Hstopped as [Ht Hl].
    assert (Hst : s' =
              mkSys (mkLoop true (Some (next_timer s)))
                    [(next_timer s, (secs * 1000)%Z)] (S (next_timer s))
                    (say (LogStarted secs) (env (stop s))) (inflight s)).
    { subst s'. unfold start. rewrite Hl. cbn [isRunning]. now rewrite Ht. }
    rewrite Hst. exists (next_timer s). cbn [loop timers next_timer env].
    split; [reflexivity|]. split; [reflexivity|].
    unfold tick, armed. simpl. now rewrite Nat.eqb_refl.
Qed.

End Timer.

Lemma timer_fires_regardless_witness :
  exists s',
    reachable sample_db s' /\
    List.length (inflight s') =
      (List.length (inflight (start 30 (init sample_db))) + 2)%nat.
Proof.
  refine (proj2 (timer_fires_regardless sample_db (start 30 (init sample_db)) 0 _ _) 2%nat).
  - exists [Start 30]. reflexivity.
  - reflexivity.
Defined.

(** C3 as stated fails: after [start(30)], the timer fires, the first
    cycle fetches the schedules and processes its first target; the
    timer fires again while two targets of the first cycle are still to
    be processed, and a second cycle is in flight next to it. *)
Lemma cycles_overlap_counterexample :
  exists s,
    run [Start 30; Tick 0; Resume 0; Resume 0; Tick 0] (init sample_db) = Some s /\
    inflight s = [CycleTargets ["0xabcdef0123456789"; "zz"]; CycleFetching] /\
    ~ non_overlapping s.
Proof.
  eexists. split; [vm_compute; reflexivity|]. split; [reflexivity|].
  unfold non_overlapping. simpl. lia.
Qed.

Lemma start_stop_state_machine_witness :
  let s := start 10 (start 30 (init sample_db)) in
  start 10 (start 30 s) = start 30 s /\
  List.length (timers (start 30 s)) = 1%nat.
Proof.
  refine (proj1 (proj2 (proj2 (start_stop_state_machine sample_db
                                 (start 10 (start 30 (init sample_db))) _))) 30%Z 10%Z).
  exists [Start 30; Start 10]. reflexivity.
Defined.

End SchedulerProps.

(** * Further properties *)

(** ** More on the scanner *)
Module ScannerMore.
Import Scanner ScannerProps.

(** *** When [scan] throws *)

Lemma polynomialAttack_throws (sigs : list Signature) (msg : string) :
  polynomialAttack sigs = Throw msg <->
  (3 <= List.length sigs)%nat /\ rInts_of sigs = Throw msg.
Proof.
  unfold polynomialAttack.
  destruct (Nat.ltb_spec (List.length sigs) 3) as [Hlt|Hge].
  - split; [discriminate|]. intros [H _]. lia.
  - destruct (rInts_of sigs) as [rs|error].
    + split; [|intros [_ H]; discriminate].
      destruct (2 <=? List.length (diffs_of rs))%nat; [|discriminate].
      destruct (forallb small_second_diff (diffs_of (diffs_of rs))); discriminate.
    + split; [intros [= ->]; now split | intros [_ [= ->]]; reflexivity].
Qed.

Lemma polynomialAttack_ok_parses (sigs : list Signature) (found : option ScanResult) :
  (3 <= List.length sigs)%nat ->
  polynomialAttack sigs = Ok found -> exists rs, rInts_of sigs = Ok rs.
Proof.
  intros Hlen. unfold polynomialAttack.
  destruct (Nat.ltb_spec (List.length sigs) 3) as [Hlt|Hge]; [lia|].
  destruct (rInts_of sigs) as [rs|error]; [eauto|discriminate].
Qed.

Lemma weakNonce_throws (sigs : list Signature) (msg : string) :
  weakNonce sigs = Throw msg <-> rInts_of sigs = Throw msg.
Proof.
  unfold weakNonce. destruct (rInts_of sigs) as [rs|error].
  - destruct (JSNumber.gt_times_0_3 _ _); split; discriminate.
  - split; intros [= ->]; reflexivity.
Qed.

(** The first [r] that is not an integer literal decides the message. *)
Lemma rInts_of_first_bad (before : list Signature) (bad : Signature)
      (rest : list Signature) :
  Forall (fun sig => JSBigInt.BigInt (sig_r sig) <> None) before ->
  JSBigInt.BigInt (sig_r bad) = None ->
  rInts_of (before ++ bad :: rest) =
    Throw ("SyntaxError: Cannot convert " ++ sig_r bad ++ " to a BigInt").
Proof.
  intros Hall Hbad. induction Hall as [|sig before Hsig _ IH]; simpl.
  - now rewrite Hbad.
  - destruct (JSBigInt.BigInt (sig_r sig)); [|congruence]. now rewrite IH.
Qed.

Lemma rInts_of_throws (sigs : list Signature) (msg : string) :
  rInts_of sigs = Throw msg <->
  exists before bad rest,
    sigs = (before ++ bad :: rest)%list /\
    Forall (fun sig => JSBigInt.BigInt (sig_r sig) <> None) before /\
    JSBigInt.BigInt (sig_r bad) = None /\
    msg = "SyntaxError: Cannot convert " ++ sig_r bad ++ " to a BigInt".
Proof.
  split.
  - revert msg. induction sigs as [|sig sigs IH]; simpl; intros msg; [discriminate|].
    destruct (JSBigInt.BigInt (sig_r sig)) as [z|] eqn:E.
    + destruct (rInts_of sigs) as [zs|error]; [discriminate|].
      intros [= <-].
      destruct (IH error eq_refl) as (before & bad & rest & Heq & Hall & Hbad & Hmsg).
      exists (sig :: before), bad, rest. rewrite Heq. repeat split; auto.
      constructor; [congruence|assumption].
    + intros [= <-]. exists [], sig, sigs. repeat split; auto.
  - intros (before & bad & rest & Heq & Hall & Hbad & Hmsg).
    rewrite Heq, Hmsg. now apply rInts_of_first_bad.
Qed.

(** X1. [scan] throws exactly on a set of two or more signatures with
    pairwise distinct [r] strings one of which is not an integer literal;
    the exception is the [SyntaxError] of [BigInt] on the first such [r].
    With fewer than two signatures, or with a repeated [r], nothing is
    parsed and nothing is thrown. *)
Theorem scanSignatures_throws (sigs : list Signature) (msg : string) :
  scanSignatures sigs = Throw msg <->
  (2 <= List.length sigs)%nat /\
  NoDup (map sig_r sigs) /\
  exists before bad rest,
    sigs = (before ++ bad :: rest)%list /\
    Forall (fun sig => JSBigInt.BigInt (sig_r sig) <> None) before /\
    JSBigInt.BigInt (sig_r bad) = None /\
    msg = "SyntaxError: Cannot convert " ++ sig_r bad ++ " to a BigInt".
Proof.
  rewrite <- rInts_of_throws, <- nonceReuse_none_iff.
  unfold scanSignatures.
  destruct (Nat.ltb_spec (List.length sigs) 2) as [Hlt|Hge].
  - split; [discriminate|]. intros [H _]. lia.
  - destruct (nonceReuse sigs) as [found|].
    + split; [discriminate|]. intros (_ & H & _). discriminate.
    + destruct (polynomialAttack sigs) as [[found|]|error] eqn:Ep.
      * split; [discriminate|]. intros (_ & _ & Hthrow).
        destruct (Nat.ltb_spec (List.length sigs) 3) as [Hlt|Hge3].
        -- unfold polynomialAttack in Ep.
           destruct (Nat.ltb_spec (List.length sigs) 3); [discriminate|lia].
        -- destruct (polynomialAttack_ok_parses _ _ Hge3 Ep) as [rs Hrs]. congruence.
      * rewrite weakNonce_throws. tauto.
      * apply polynomialAttack_throws in Ep as [_ Ep].
        split; [intros [= <-]; auto | intros (_ & _ & H); congruence].
Qed.

(** *** What a finding says about the set *)

Lemma first_repeated_kind (m : RMap) (f : ScanResult) :
  first_repeated m = Some f -> type f = nonce_reuse /\ severity f = 95%Z.
Proof.
  induction m as [|[k v] m IH]; simpl; [discriminate|].
  destruct (1 <? v)%nat; [intros [= <-]; now split | exact IH].
Qed.

Lemma polynomialAttack_kind (sigs : list Signature) (f : ScanResult) :
  polynomialAttack sigs = Ok (Some f) ->
  f = polynomial_finding /\ (3 <= List.length sigs)%nat.
Proof.
  unfold polynomialAttack.
  destruct (Nat.ltb_spec (List.length sigs) 3) as [Hlt|Hge]; [discriminate|].
  destruct (rInts_of sigs) as [rs|]; [|discriminate].
  destruct (2 <=? List.length (diffs_of rs))%nat; [|discriminate].
  destruct (forallb small_second_diff (diffs_of (diffs_of rs))); [|discriminate].
  intros [= <-]. now split.
Qed.

(** X2. A finding always comes from a set of at least two signatures,
    and its kind fixes its severity and says which check fired:
    [nonce_reuse] / 95 only when some [r] string repeats;
    [polynomial_attack] / 85 only on three or more signatures with
    distinct [r]; [weak_nonce] / 70 only with distinct [r]. *)
Theorem finding_kind_and_severity (sigs : list Signature) (f : ScanResult) :
  scanSignatures sigs = Ok (Some f) ->
  (2 <= List.length sigs)%nat /\
  ((type f = nonce_reuse /\ severity f = 95%Z /\ ~ NoDup (map sig_r sigs)) \/
   (type f = polynomial_attack /\ severity f = 85%Z /\
    NoDup (map sig_r sigs) /\ (3 <= List.length sigs)%nat) \/
   (type f = weak_nonce /\ severity f = 70%Z /\ NoDup (map sig_r sigs))).
Proof.
  unfold scanSignatures.
  destruct (Nat.ltb_spec (List.length sigs) 2) as [Hlt|Hge]; [discriminate|].
  intros H. split; [assumption|].
  destruct (nonceReuse sigs) as [found|] eqn:En.
  - injection H as <-. left.
    destruct (first_repeated_kind _ _ En) as [Ht Hs].
    split; [assumption|]. split; [assumption|].
    intros Hnd. apply nonceReuse_none_iff in Hnd. congruence.
  - apply nonceReuse_none_iff in En. right.
    destruct (polynomialAttack sigs) as [[found|]|error] eqn:Ep; [| |discriminate].
    + injection H as <-. left.
      destruct (polynomialAttack_kind _ _ Ep) as [-> Hlen]. now repeat split.
    + right. pose proof (weakNonce_type _ _ H) as Ht.
      split; [assumption|]. split; [|assumption].
      unfold weakNonce in H. destruct (rInts_of sigs); [|discriminate].
      destruct (JSNumber.gt_times_0_3 _ _); [|discriminate].
      now injection H as <-.
Qed.

Lemma finding_kind_and_severity_witness :
  let f := mkScanResult weak_nonce
             "4 out of 10 signatures use low-entropy nonces." 70 in
  (2 <= List.length four_weak_of_ten)%nat /\
  ((type f = nonce_reuse /\ severity f = 95%Z /\
    ~ NoDup (map sig_r four_weak_of_ten)) \/
   (type f = polynomial_attack /\ severity f = 85%Z /\
    NoDup (map sig_r four_weak_of_ten) /\ (3 <= List.length four_weak_of_ten)%nat) \/
   (type f = weak_nonce /\ severity f = 70%Z /\ NoDup (map sig_r four_weak_of_ten))).
Proof.
  refine (finding_kind_and_severity four_weak_of_ten
            (mkScanResult weak_nonce
               "4 out of 10 signatures use low-entropy nonces." 70) _).
  vm_compute. reflexivity.
Defined.

(** *** The integers behind the strings *)

Lemma NoDup_map_Some {A} (l : list A) : NoDup l -> NoDup (map Some l).
Proof.
  induction 1 as [|x l Hx _ IH]; simpl; constructor; [|assumption].
  rewrite in_map_iff. intros (y & [= ->] & Hy). contradiction.
Qed.

(** Distinct integers can only come from distinct strings. *)
Lemma distinct_values_distinct_strings (sigs : list Signature) (rs : list Z) :
  rInts_of sigs = Ok rs -> NoDup rs -> NoDup (map sig_r sigs).
Proof.
  intros Hrs Hnd. apply rInts_of_map in Hrs.
  apply (NoDup_map_inv JSBigInt.BigInt). rewrite Hrs.
  now apply NoDup_map_Some.
Qed.

(** X3. Nonces in arithmetic progression are caught: if the [r] of three
    or more signatures denote [a, a + d, a + 2 d, ...] with [d <> 0]
    (increasing or decreasing), the scan returns the [polynomial_attack]
    finding, whatever the size of the values. *)
Theorem arithmetic_progression_detected
        (sigs : list Signature) (rs : list Z) (a d : Z) :
  (3 <= List.length sigs)%nat ->
  rInts_of sigs = Ok rs ->
  d <> 0%Z ->
  (forall i, (i < List.length rs)%nat -> nth i rs 0%Z = (a + Z.of_nat i * d)%Z) ->
  scanSignatures sigs = Ok (Some polynomial_finding).
Proof.
  intros Hlen Hrs Hd Hap.
  assert (Hnd : NoDup rs).
  { apply (NoDup_nth rs 0%Z). intros i j Hi Hj Heq.
    rewrite (Hap i Hi), (Hap j Hj) in Heq.
    assert (Z.of_nat i * d = Z.of_nat j * d)%Z by lia.
    apply Z.mul_reg_r in H; [lia|assumption]. }
  pose proof (distinct_values_distinct_strings sigs rs Hrs Hnd) as Hstr.
  apply nonceReuse_none_iff in Hstr.
  destruct (polynomialAttack_spec sigs rs Hlen Hrs) as [_ Hiff].
  unfold scanSignatures. rewrite Hstr.
  destruct (Nat.ltb_spec (List.length sigs) 2) as [Hlt|Hge]; [lia|].
  assert (Hp : polynomialAttack sigs = Ok (Some polynomial_finding)).
  { apply Hiff. intros i Hi.
    rewrite (Hap (i + 2)%nat), (Hap (i + 1)%nat), (Hap i) by lia. lia. }
  now rewrite Hp.
Qed.

Lemma arithmetic_progression_detected_witness :
  scanSignatures (sample_sigs ["0x3e8"; "900"; "800"; "700"]) =
    Ok (Some polynomial_finding).
Proof.
  refine (arithmetic_progression_detected
            (sample_sigs ["0x3e8"; "900"; "800"; "700"])
            [1000; 900; 800; 700]%Z 1000%Z (-100)%Z _ _ _ _).
  - simpl. lia.
  - reflexivity.
  - discriminate.
  - intros [|[|[|[|i]]]] Hi; simpl in *; try reflexivity; lia.
Defined.

Lemma diffs_of_shift (k : Z) (xs : list Z) :
  diffs_of (map (fun x => x + k)%Z xs) = diffs_of xs.
Proof.
  induction xs as [|a [|b xs] IH]; try reflexivity.
  change (map (fun x => x + k)%Z (a :: b :: xs))
    with ((a + k)%Z :: map (fun x => x + k)%Z (b :: xs)).
  change (diffs_of (a :: b :: xs)) with ((b - a)%Z :: diffs_of (b :: xs)).
  rewrite <- IH. simpl. f_equal. lia.
Qed.

(** X4. The polynomial check looks at differences only: two sets whose
    [r] values differ by the same constant throughout get the same
    verdict. *)
Theorem polynomialAttack_shift (sigs sigs' : list Signature) (rs : list Z) (k : Z) :
  rInts_of sigs = Ok rs ->
  rInts_of sigs' = Ok (map (fun r => r + k)%Z rs) ->
  polynomialAttack sigs' = polynomialAttack sigs.
Proof.
  intros Hrs Hrs'. unfold polynomialAttack. rewrite Hrs, Hrs'.
  rewrite <- (rInts_of_length _ _ Hrs), <- (rInts_of_length _ _ Hrs').
  rewrite length_map, diffs_of_shift. reflexivity.
Qed.

Lemma polynomialAttack_shift_witness :
  polynomialAttack (sample_sigs ["110"; "0xd2"; "310"]) =
  polynomialAttack (sample_sigs ["100"; "200"; "300"]).
Proof.
  refine (polynomialAttack_shift (sample_sigs ["100"; "200"; "300"])
            (sample_sigs ["110"; "0xd2"; "310"]) [100; 200; 300]%Z 10%Z _ _);
    reflexivity.
Defined.

(** X5. Reuse is looked for among the strings, not among the values: two
    signatures whose [r] strings differ but denote the same integer [z]
    are not reported as [nonce_reuse]; they give [weak_nonce] (2 out of 2)
    when [z] is below the bound and no finding otherwise. *)
Theorem same_value_other_spelling (a b : Signature) (z : Z) :
  sig_r a <> sig_r b ->
  JSBigInt.BigInt (sig_r a) = Some z ->
  JSBigInt.BigInt (sig_r b) = Some z ->
  scanSignatures [a; b] =
    if (z <? weak_bound)%Z
    then Ok (Some (mkScanResult weak_nonce
                     "2 out of 2 signatures use low-entropy nonces." 70))
    else Ok None.
Proof.
  intros Hne Ha Hb.
  assert (Hnd : nonceReuse [a; b] = None).
  { apply nonceReuse_none_iff. simpl. constructor.
    - intros [H|[]]. congruence.
    - constructor; [intros []|constructor]. }
  unfold scanSignatures. rewrite Hnd. simpl.
  unfold weakNonce. simpl. rewrite Ha, Hb. unfold weak_count. simpl.
  destruct (z <? weak_bound)%Z; reflexivity.
Qed.

Lemma same_value_other_spelling_witness :
  scanSignatures [mkSignature "0xAB" "1" 27 "h1"; mkSignature "0xab" "2" 28 "h2"] =
    Ok (Some (mkScanResult weak_nonce
                "2 out of 2 signatures use low-entropy nonces." 70)).
Proof.
  refine (same_value_other_spelling
            (mkSignature "0xAB" "1" 27 "h1") (mkSignature "0xab" "2" 28 "h2")
            171%Z _ _ _).
  - discriminate.
  - reflexivity.
  - reflexivity.
Defined.

Lemma weak_count_none (rs : list Z) :
  Forall (fun r => (weak_bound <= r)%Z) rs -> weak_count rs = 0%nat.
Proof.
  unfold weak_count. induction 1 as [|r rs Hr _ IH]; simpl; [reflexivity|].
  destruct (Z.ltb_spec r weak_bound); [lia|assumption].
Qed.

Lemma weak_count_all (rs : list Z) :
  Forall (fun r => (r < weak_bound)%Z) rs -> weak_count rs = List.length rs.
Proof.
  unfold weak_count. induction 1 as [|r rs Hr _ IH]; simpl; [reflexivity|].
  destruct (Z.ltb_spec r weak_bound); [simpl; now f_equal|lia].
Qed.

(** X6. The two ends of the weak-nonce check, for sets of fewer than
    2^32 signatures with integer [r]: if no [r] is below [maxR / 1000] the
    scan never answers [weak_nonce]; if the [r] strings are distinct and
    every [r] is below it, the scan never comes back clean: it answers
    [polynomial_attack], or [weak_nonce] with all signatures counted. *)
Theorem weak_nonce_extremes (sigs : list Signature) (rs : list Z) :
  rInts_of sigs = Ok rs ->
  (Z.of_nat (List.length sigs) < 2 ^ 32)%Z ->
  (Forall (fun r => (weak_bound <= r)%Z) rs ->
   forall f, scanSignatures sigs = Ok (Some f) -> type f <> weak_nonce) /\
  ((2 <= List.length sigs)%nat -> NoDup (map sig_r sigs) ->
   Forall (fun r => (r < weak_bound)%Z) rs ->
   scanSignatures sigs = Ok (Some polynomial_finding) \/
   scanSignatures sigs =
     Ok (Some (mkScanResult weak_nonce
                 (weak_details (List.length sigs) (List.length sigs)) 70))).
Proof.
  intros Hrs Hbound. pose proof (rInts_of_length _ _ Hrs) as Hl. split.
  - intros Hall f Hscan Hty.
    unfold scanSignatures in Hscan.
    destruct (Nat.ltb_spec (List.length sigs) 2); [discriminate|].
    destruct (nonceReuse sigs) as [found|] eqn:En.
    + injection Hscan as <-. apply first_repeated_kind in En as [En _]. congruence.
    + destruct (polynomialAttack sigs) as [[found|]|] eqn:Ep; [| |discriminate].
      * injection Hscan as <-. apply polynomialAttack_kind in Ep as [-> _].
        discriminate.
      * unfold weakNonce in Hscan. rewrite Hrs, (weak_count_none rs Hall) in Hscan.
        rewrite JSNumberProps.gt_times_0_3_exact in Hscan by lia.
        destruct (Z.ltb_spec (3 * Z.of_nat (List.length sigs)) (10 * Z.of_nat 0));
          [lia|discriminate].
  - intros Hlen Hnd Hall. apply nonceReuse_none_iff in Hnd.
    unfold scanSignatures. rewrite Hnd.
    destruct (Nat.ltb_spec (List.length sigs) 2); [lia|].
    destruct (polynomialAttack sigs) as [[found|]|error] eqn:Ep.
    + left. apply polynomialAttack_kind in Ep as [-> _]. reflexivity.
    + right. unfold weakNonce. rewrite Hrs, (weak_count_all rs Hall), Hl.
      rewrite JSNumberProps.gt_times_0_3_exact by lia.
      destruct (Z.ltb_spec (3 * Z.of_nat (List.length sigs))
                           (10 * Z.of_nat (List.length sigs))); [reflexivity|lia].
    + apply polynomialAttack_throws in Ep as [_ Ep]. congruence.
Qed.

Lemma weak_nonce_extremes_witness :
  scanSignatures (sample_sigs ["5"; "1"; "9"]) = Ok (Some polynomial_finding) \/
  scanSignatures (sample_sigs ["5"; "1"; "9"]) =
    Ok (Some (mkScanResult weak_nonce (weak_details 3 3) 70)).
Proof.
  refine (proj2 (weak_nonce_extremes (sample_sigs ["5"; "1"; "9"]) [5; 1; 9]%Z _ _)
                _ _ _).
  - reflexivity.
  - simpl. lia.
  - simpl. lia.
  - repeat constructor; simpl; intuition discriminate.
  - repeat constructor.
Defined.

End ScannerMore.

(** ** More on the decision policy *)
Module DecisionMore.
Import JS DecisionAI Ranks.
Local Open Scope Z_scope.

(** X7. The rule table is monotone: a state with at least the priority
    and at least the risk of another never gets a weaker action.  High
    priority is never skipped, a deep scan is only ever chosen for High
    priority with risk above 70, and the confidence stays within
    [75, 98]. *)
Theorem fallbackDecide_monotone (s1 s2 : DecisionState) :
  (priority_level (priority s1) <= priority_level (priority s2))%nat ->
  risk s1 <= risk s2 ->
  (action_level (action (fallbackDecide s1))
     <= action_level (action (fallbackDecide s2)))%nat /\
  (priority s2 = Watsonx.H -> action (fallbackDecide s2) <> SLEEP) /\
  (action (fallbackDecide s2) = DEEP <-> priority s2 = Watsonx.H /\ 70 < risk s2) /\
  75 <= confidence (fallbackDecide s2) <= 98.
Proof.
  intros Hp Hr. unfold fallbackDecide.
  destruct (priority s1), (priority s2); simpl in Hp; try lia;
    repeat match goal with
      | |- context [?a <? ?b] => destruct (Z.ltb_spec a b)
      end; simpl;
    repeat split; try lia; try discriminate; try tauto;
    try (intros [? ?]; try discriminate; lia).
Qed.

Lemma fallbackDecide_monotone_witness :
  (action_level (action (fallbackDecide (mkState "a" Watsonx.M 61 2 None)))
     <= action_level (action (fallbackDecide (mkState "b" Watsonx.H 71 1 None))))%nat.
Proof.
  refine (proj1 (fallbackDecide_monotone (mkState "a" Watsonx.M 61 2 None)
                   (mkState "b" Watsonx.H 71 1 None) _ _)).
  - simpl. lia.
  - simpl. lia.
Defined.

(** *** What the pattern extracts *)

Local Close Scope Z_scope.

Lemma append_assoc' (a b c : string) : (a ++ b) ++ c = a ++ (b ++ c).
Proof. induction a as [|x a IH]; simpl; [reflexivity|now rewrite IH]. Qed.

Lemma append_empty_r (a : string) : a ++ "" = a.
Proof. induction a as [|x a IH]; simpl; [reflexivity|now rewrite IH]. Qed.

Lemma occurs_app (n : nat) (a b : string) :
  occurs n (a ++ b) = occurs n a || occurs n b.
Proof.
  induction a as [|x a IH]; simpl; [reflexivity|].
  now rewrite IH, orb_assoc.
Qed.

Lemma is_char_eq (n : nat) (c : ascii) :
  (n < 256)%nat -> is_char n c = true -> c = ascii_of_nat n.
Proof.
  unfold is_char. intros Hn H. apply Nat.eqb_eq in H.
  rewrite <- H. symmetry. apply ascii_nat_embedding.
Qed.

Lemma from_first_open_some (s t : string) :
  from_first_open s = Some t ->
  exists pre rest, s = pre ++ t /\ t = open_brace ++ rest /\ occurs 123 pre = false.
Proof.
  induction s as [|c s IH]; simpl; [discriminate|].
  destruct (is_char 123 c) eqn:E.
  - intros [= <-]. exists "", s. split; [reflexivity|]. split; [|reflexivity].
    apply is_char_eq in E; [|lia]. now rewrite E.
  - intros H. destruct (IH H) as (pre & rest & -> & Ht & Hpre).
    exists (String c pre), rest. split; [reflexivity|]. split; [assumption|].
    simpl. now rewrite E.
Qed.

Lemma from_first_open_none (s : string) :
  from_first_open s = None <-> occurs 123 s = false.
Proof.
  induction s as [|c s IH]; simpl; [tauto|].
  destruct (is_char 123 c); simpl; [split; discriminate|exact IH].
Qed.

Lemma upto_last_close_none (t : string) :
  upto_last_close t = None <-> occurs 125 t = false.
Proof.
  induction t as [|c t IH]; simpl; [tauto|].
  destruct (upto_last_close t) as [m|].
  - split; [discriminate|]. intros H. apply orb_false_iff in H as [_ H].
    apply IH in H. discriminate.
  - destruct (is_char 125 c); simpl; [split; discriminate|].
    split; [intros _; now apply IH | reflexivity].
Qed.

Lemma upto_last_close_some (t m : string) :
  upto_last_close t = Some m ->
  exists body suf, t = m ++ suf /\ m = body ++ close_brace /\ occurs 125 suf = false.
Proof.
  revert m. induction t as [|c t IH]; simpl; intros m; [discriminate|].
  destruct (upto_last_close t) as [m'|] eqn:E.
  - intros [= <-]. destruct (IH m' eq_refl) as (body & suf & -> & -> & Hsuf).
    exists (String c body), suf. now repeat split.
  - destruct (is_char 125 c) eqn:Ec; [|discriminate].
    intros [= <-]. exists "", t. split; [reflexivity|].
    split; [|now apply upto_last_close_none].
    apply is_char_eq in Ec; [|lia]. now rewrite Ec.
Qed.

(** In a string that has an opening brace at some place, what follows
    the first opening brace contains what follows that place. *)
Lemma first_open_covers (pre0 t pre y : string) :
  occurs 123 pre0 = false ->
  pre0 ++ t = pre ++ open_brace ++ y ->
  (exists rest, t = open_brace ++ rest) ->
  exists z, t = z ++ open_brace ++ y.
Proof.
  revert pre. induction pre0 as [|c pre0 IH]; simpl; intros pre Hocc Heq Ht.
  - exists pre. exact Heq.
  - apply orb_false_iff in Hocc as [Hc Hocc].
    destruct pre as [|d pre]; simpl in Heq.
    + injection Heq as -> _. discriminate.
    + injection Heq as _ Heq. now apply (IH pre).
Qed.

(** X8. [response.match(/\{[\s\S]*\}/)] is greedy.  When it matches, the
    match runs from the first opening brace of the response to its last
    closing brace: nothing before it contains an opening brace and nothing
    after it a closing one, so a response with two JSON objects yields one
    match that spans both.  It fails exactly when no closing brace comes
    after an opening brace. *)
Theorem jsonMatch_span (response : string) :
  match jsonMatch response with
  | Some m =>
      exists pre body suf,
        response = pre ++ m ++ suf /\
        m = open_brace ++ body ++ close_brace /\
        occurs 123 pre = false /\ occurs 125 suf = false
  | None =>
      forall pre body suf,
        response <> pre ++ open_brace ++ body ++ close_brace ++ suf
  end.
Proof.
  unfold jsonMatch.
  destruct (from_first_open response) as [t|] eqn:Ef.
  - destruct (from_first_open_some _ _ Ef) as (pre & rest & Hresp & Ht & Hpre).
    destruct (upto_last_close t) as [m|] eqn:Eu.
    + destruct (upto_last_close_some _ _ Eu) as (body0 & suf & Htm & Hm & Hsuf).
      exists pre. destruct body0 as [|b body].
      * exfalso. rewrite Hm in Htm. rewrite Ht in Htm. discriminate.
      * exists body, suf. split; [now rewrite Hresp, Htm|].
        split; [|now split].
        rewrite Hm in Htm. rewrite Ht in Htm. simpl in Htm.
        injection Htm as <- _. exact Hm.
    + intros pre' body suf Heq.
      destruct (first_open_covers pre t pre' (body ++ close_brace ++ suf) Hpre)
        as [z Hz]; [now rewrite <- Hresp, Heq | eauto |].
      apply upto_last_close_none in Eu. rewrite Hz in Eu.
      rewrite !occurs_app in Eu. simpl in Eu.
      rewrite !orb_true_r in Eu. discriminate.
  - intros pre body suf Heq. apply from_first_open_none in Ef.
    rewrite Heq, !occurs_app in Ef. simpl in Ef.
    rewrite orb_true_r in Ef. discriminate.
Qed.

Section MissingCredentials.

Variable JSON_parse : string -> result json.
Variable generate : string -> result string.

(** X9. Without both credentials the service is not consulted: with no
    API key [decide] answers from the rule table silently; with a key but
    no space id the credentials error of [callWatsonxAPI] is caught and
    [decide] answers from the rule table with a warning.  Either way the
    answer does not depend on what the service would have said. *)
Theorem decide_without_credentials
        (key space : option string) (state : DecisionState) :
  env_truthy key = false \/ env_truthy space = false ->
  fst (decide JSON_parse key space generate state) = raw_of (fallbackDecide state) /\
  snd (decide JSON_parse key space generate state) =
    (if env_truthy key then [WarnFallback] else []) /\
  forall JSON_parse' generate',
    decide JSON_parse' key space generate' state =
    decide JSON_parse key space generate state.
Proof.
  intros H. unfold decide, callWatsonxAPI.
  destruct (env_truthy key) eqn:Ek.
  - destruct H as [H|H]; [discriminate|]. rewrite H. simpl. now repeat split.
  - now repeat split.
Qed.

End MissingCredentials.

Lemma decide_without_credentials_witness :
  fst (decide (fun _ => Throw "SyntaxError") (Some "key") None
              (fun _ => Ok "{}") (mkState "0xabc" Watsonx.H 90 1 None)) =
  raw_of (fallbackDecide (mkState "0xabc" Watsonx.H 90 1 None)).
Proof.
  refine (proj1 (decide_without_credentials (fun _ => Throw "SyntaxError")
                   (fun _ => Ok "{}") (Some "key") None
                   (mkState "0xabc" Watsonx.H 90 1 None) _)).
  right. reflexivity.
Defined.

End DecisionMore.

(** ** More on the prioritization hash *)
Module WatsonxMore.
Import Watsonx.
Local Open Scope Z_scope.

Lemma toInt32_range (z : Z) : - 2 ^ 31 <= toInt32 z < 2 ^ 31.
Proof.
  unfold toInt32. pose proof (Z.mod_pos_bound z (2 ^ 32) ltac:(lia)) as H.
  destruct (Z.leb_spec (2 ^ 31) (z mod 2 ^ 32)); lia.
Qed.

Lemma hash_step_bound (h c : Z) :
  0 <= c < 256 -> Z.abs (hash_step h c) <= Z.abs h + (2 ^ 31 + 255).
Proof.
  intros Hc. unfold hash_step, shl5.
  pose proof (toInt32_range (Z.shiftl (toInt32 h) 5)). lia.
Qed.

Lemma charCodes_range (s : string) : Forall (fun c => 0 <= c < 256) (charCodes s).
Proof.
  unfold charCodes. induction s as [|c s IH]; simpl; constructor; [|exact IH].
  pose proof (nat_ascii_bounded c). lia.
Qed.

Lemma charCodes_length (s : string) :
  List.length (charCodes s) = String.length s.
Proof.
  unfold charCodes. rewrite length_map.
  induction s as [|c s IH]; simpl; [reflexivity|now rewrite IH].
Qed.

Lemma fold_hash_bound (cs : list Z) : forall h,
  Forall (fun c => 0 <= c < 256) cs ->
  Z.abs (fold_left hash_step cs h)
    <= Z.abs h + (2 ^ 31 + 255) * Z.of_nat (List.length cs).
Proof.
  induction cs as [|c cs IH]; intros h Hall; simpl fold_left.
  - simpl. lia.
  - inversion Hall as [|? ? Hc Hcs]; subst.
    specialize (IH (hash_step h c) Hcs).
    pose proof (hash_step_bound h c Hc).
    change (List.length (c :: cs)) with (S (List.length cs)).
    rewrite Nat2Z.inj_succ. lia.
Qed.

Lemma length_append (a b : string) :
  String.length (a ++ b) = (String.length a + String.length b)%nat.
Proof. induction a as [|x a IH]; simpl; [reflexivity|now rewrite IH]. Qed.

(** X10. The hash stays a safe integer.  After any prefix of the
    address the running value of the reducer is at most
    [(2^31 + 255)] times the number of characters read, so for an address
    of up to four million characters every intermediate value is below
    2^53 in magnitude: there the numbers of the source are the exact
    integers of [addr_hash]. *)
Theorem addr_hash_safe_integer (addr read rest : string) :
  addr = read ++ rest ->
  Z.abs (addr_hash read) <= (2 ^ 31 + 255) * Z.of_nat (String.length read) /\
  (Z.of_nat (String.length addr) <= 4000000 -> Z.abs (addr_hash read) < 2 ^ 53).
Proof.
  intros Haddr.
  assert (Hb : Z.abs (addr_hash read)
               <= (2 ^ 31 + 255) * Z.of_nat (String.length read)).
  { unfold addr_hash.
    pose proof (fold_hash_bound (charCodes read) 0 (charCodes_range read)) as H.
    rewrite charCodes_length in H. simpl Z.abs in H. lia. }
  split; [exact Hb|]. intros Hlen.
  rewrite Haddr, length_append, Nat2Z.inj_add in Hlen.
  change (2 ^ 53) with 9007199254740992. change (2 ^ 31) with 2147483648 in *.
  lia.
Qed.

Lemma addr_hash_safe_integer_witness :
  Z.abs (addr_hash "0xabcdef") < 2 ^ 53.
Proof.
  refine (proj2 (addr_hash_safe_integer "0xabcdef0123456789" "0xabcdef" "0123456789" _) _).
  - reflexivity.
  - simpl. lia.
Defined.

End WatsonxMore.

(** ** More on the scheduler *)
Module SchedulerMore.
Import JS Scheduler SchedulerProps Reports.

Section Generic.

Context {W : Type} {collaborators : Collaborators W}.

(** X11. [processAddress] calls its collaborators in a fixed order and
    stops at the first that fails or makes the rest pointless: the calls
    it adds are [prioritize], then [decide], then [scan], then
    [storeVulnerability], up to some point.  [scan] is called only after
    [decide] returned an action that is the string SCAN or DEEP, and
    [storeVulnerability] only after [scan] returned a finding.  When
    [decide] returns any other action than SLEEP, SCAN or DEEP (the model
    path does not validate it), the target is dropped without a line on
    the console. *)
Theorem processAddress_call_order (addr : string) (e : Env W) :
  let e1 := snd (processAddress addr e) in
  (exists cs,
      calls e1 = (calls e ++ cs)%list /\
      (cs = [CallPrioritize addr] \/
       cs = [CallPrioritize addr; CallDecide addr] \/
       cs = [CallPrioritize addr; CallDecide addr; CallScan addr] \/
       cs = [CallPrioritize addr; CallDecide addr; CallScan addr; CallStore addr]) /\
      (In (CallScan addr) cs ->
       exists p l1 w1 d l2 w2,
         prioritize addr (world e) = (Ok p, l1, w1) /\
         decide (DecisionAI.mkState addr (Watsonx.priority p) (Watsonx.risk p)
                   (Watsonx.depth p) None) w1 = (Ok d, l2, w2) /\
         (action_is d "SCAN" || action_is d "DEEP") = true /\
         (In (CallStore addr) cs ->
          exists v l3 w3, scan addr w2 = (Ok (Some v), l3, w3)))) /\
  (forall p l1 w1 d l2 w2,
      prioritize addr (world e) = (Ok p, l1, w1) ->
      decide (DecisionAI.mkState addr (Watsonx.priority p) (Watsonx.risk p)
                (Watsonx.depth p) None) w1 = (Ok d, l2, w2) ->
      action_is d "SLEEP" = false -> action_is d "SCAN" = false ->
      action_is d "DEEP" = false ->
      e1 = mkEnv w2 ((console e ++ l1) ++ l2)
                 ((calls e ++ [CallPrioritize addr]) ++ [CallDecide addr])).
Proof.
  cbv zeta.
  unfold processAddress, try_catch, processAddress_body, bind, invoke, log, ret.
  destruct (prioritize addr (world e)) as [[[p|error] l1] w1] eqn:Ep; cbn [world console calls snd fst].
  2:{ split; [|intros; discriminate].
      exists [CallPrioritize addr]. cbn. split; [reflexivity|].
      split; [tauto|]. intros [H|[]]. discriminate. }
  destruct (decide _ w1) as [[[d|error] l2] w2] eqn:Ed; cbn [world console calls snd fst].
  2:{ split; [|intros ? ? ? ? ? ? [= <- <- <-]; rewrite Ed; discriminate].
      exists [CallPrioritize addr; CallDecide addr]. cbn.
      rewrite <- app_assoc. split; [reflexivity|]. split; [tauto|].
      intros [H|[H|[]]]; discriminate. }
  destruct (action_is d "SLEEP") eqn:Esleep; cbn [world console calls snd fst].
  { split; [|intros ? ? ? ? ? ? [= <- <- <-]; rewrite Ed; intros [= <- <- <-]; congruence].
    exists [CallPrioritize addr; CallDecide addr]. cbn.
    rewrite <- app_assoc. split; [reflexivity|]. split; [tauto|].
    intros [H|[H|[]]]; discriminate. }
  destruct (action_is d "SCAN" || action_is d "DEEP") eqn:Escan;
    cbn [world console calls snd fst].
  2:{ split.
      - exists [CallPrioritize addr; CallDecide addr]. cbn.
        rewrite <- app_assoc. split; [reflexivity|]. split; [tauto|].
        intros [H|[H|[]]]; discriminate.
      - intros ? ? ? ? ? ? [= <- <- <-]. rewrite Ed. intros [= <- <- <-] _ _ _.
        reflexivity. }
  split.
  2:{ intros ? ? ? ? ? ? [= <- <- <-]. rewrite Ed. intros [= <- <- <-] _ H1 H2.
      rewrite H1, H2 in Escan. discriminate. }
  destruct (scan addr w2) as [[[[v|]|error] l3] w3] eqn:Es;
    cbn [world console calls snd fst].
  - destruct (storeVulnerability _ w3) as [[[[]|error] l4] w4];
      cbn [world console calls snd fst];
      (exists [CallPrioritize addr; CallDecide addr; CallScan addr; CallStore addr];
       cbn; rewrite <- !app_assoc; split; [reflexivity|]; split; [tauto|];
       intros _; exists p, l1, w1, d, l2, w2; repeat split; auto;
       intros _; eauto).
  - exists [CallPrioritize addr; CallDecide addr; CallScan addr].
    cbn. rewrite <- !app_assoc. split; [reflexivity|]. split; [tauto|].
    intros _. exists p, l1, w1, d, l2, w2. repeat split; auto.
    intros [H|[H|[H|[]]]]; discriminate.
  - exists [CallPrioritize addr; CallDecide addr; CallScan addr].
    cbn. rewrite <- !app_assoc. split; [reflexivity|]. split; [tauto|].
    intros _. exists p, l1, w1, d, l2, w2. repeat split; auto.
    intros [H|[H|[H|[]]]]; discriminate.
Qed.

(** X12. A cycle without targets.  If fetching the schedules throws, the
    cycle logs the error as a cycle error and ends normally; if no
    schedule is active, it ends without a line.  In both cases its only
    call is the fetch. *)
Theorem cycle_without_targets (e : Env W) :
  (forall error lines w,
      getSchedules (world e) = (Throw error, lines, w) ->
      scanCycle e =
        (Ok tt, mkEnv w ((console e ++ lines) ++ [ErrCycle error])
                      (calls e ++ [CallGetSchedules]))) /\
  (forall schedules lines w,
      getSchedules (world e) = (Ok schedules, lines, w) ->
      Forall (fun s => isActive s = false) schedules ->
      scanCycle e =
        (Ok tt, mkEnv w (console e ++ lines) (calls e ++ [CallGetSchedules]))).
Proof.
  split.
  - intros error lines w H.
    unfold scanCycle, try_catch, getAddressesToCheck, bind, invoke, log.
    now rewrite H.
  - intros schedules lines w H Hall.
    rewrite (scanCycle_fetched e schedules lines w H).
    assert (Hnone : filter isActive schedules = []).
    { clear H. induction Hall as [|s l Hs _ IH]; simpl; [reflexivity|].
      now rewrite Hs. }
    now rewrite Hnone.
Qed.

(** *** After [stop] *)

Lemma put_cycle_length (i : nat) (c : Cycle) (c' : option Cycle) (cs : list Cycle) :
  nth_error cs i = Some c ->
  (List.length (put_cycle i c' cs) <= List.length cs)%nat.
Proof.
  intros H. assert (Hi : (i < List.length cs)%nat) by (apply nth_error_Some; congruence).
  unfold put_cycle. rewrite !length_app, length_firstn, length_skipn.
  destruct c'; simpl; lia.
Qed.

Lemma disarmed_run (ls : list label) : forall (s s' : Sys W),
  timers s = [] -> forallb passive ls = true -> run ls s = Some s' ->
  (forall id, ~ In (Tick id) ls) /\
  (List.length (inflight s') <= List.length (inflight s))%nat.
Proof.
  induction ls as [|l ls IH]; simpl; intros s s' Ht Hp Hrun.
  - injection Hrun as <-. split; [intros id []|lia].
  - apply andb_prop in Hp as [Hl Hls].
    destruct (exec l s) as [s1|] eqn:E; [|discriminate].
    destruct l as [secs| |id|i]; simpl in Hl, E; try discriminate.
    + unfold tick, armed in E. rewrite Ht in E. discriminate.
    + unfold resume in E. destruct (nth_error (inflight s) i) as [c|] eqn:En;
        [|discriminate].
      destruct (step_cycle c (env s)) as [c' e'].
      injection E as <-.
      destruct (IH (mkSys (loop s) (timers s) (next_timer s) e'
                          (put_cycle i c' (inflight s))) s' Ht Hls Hrun)
        as [Hno Hlen].
      cbn [inflight] in Hlen.
      pose proof (put_cycle_length i c c' (inflight s) En).
      split; [|lia].
      intros id [H'|H']; [discriminate|now apply (Hno id)].
Qed.

(** X13. [stop] takes effect before the next firing and aborts nothing.
    From any reachable state, after [stop] no timer can fire; the cycles
    in flight and the world are left as they were and every such cycle can
    still go on; and as long as [start] is not called again, no new cycle
    begins: the number of cycles in flight can only go down. *)
Theorem stop_lets_cycles_finish (w : W) (s : Sys W) :
  reachable w s ->
  (forall id, tick id (stop s) = None) /\
  inflight (stop s) = inflight s /\
  world (env (stop s)) = world (env s) /\
  (forall i c, nth_error (inflight s) i = Some c ->
               exists s', resume i (stop s) = Some s') /\
  (forall ls s',
      forallb passive ls = true -> run ls (stop s) = Some s' ->
      (forall id, ~ In (Tick id) ls) /\
      (List.length (inflight s') <= List.length (inflight s))%nat).
Proof.
  intros Hreach.
  pose proof (stop_inv s (reachable_inv w s Hreach)) as Hinv.
  assert (Ht : timers (stop s) = []) by (unfold timer_inv in Hinv; simpl in Hinv; apply Hinv).
  split; [|split; [reflexivity|split; [reflexivity|split]]].
  - intros id. unfold tick, armed. now rewrite Ht.
  - intros i c Hc. unfold resume. cbn [inflight stop]. rewrite Hc.
    destruct (step_cycle c (env (stop s))). eauto.
  - intros ls s' Hp Hrun.
    apply (disarmed_run ls (stop s) s' Ht Hp Hrun).
Qed.

End Generic.

Lemma processAddress_call_order_witness :
  snd (processAddress (collaborators := stray_model) "0xaaa" (mkEnv tt [] [])) =
  mkEnv tt [] [CallPrioritize "0xaaa"; CallDecide "0xaaa"].
Proof.
  refine (proj2 (processAddress_call_order (collaborators := stray_model)
                   "0xaaa" (mkEnv tt [] []))
                _ [] tt _ [] tt _ _ _ _ _);
    reflexivity.
Defined.

Lemma cycle_without_targets_witness :
  scanCycle (mkEnv [mkSchedule "0xbbb" false] [] []) =
    (Ok tt, mkEnv [mkSchedule "0xbbb" false] [] [CallGetSchedules]).
Proof.
  refine (proj2 (cycle_without_targets (mkEnv [mkSchedule "0xbbb" false] [] []))
                [mkSchedule "0xbbb" false] [] [mkSchedule "0xbbb" false] _ _).
  - reflexivity.
  - repeat constructor.
Defined.

Lemma stop_lets_cycles_finish_witness :
  tick 0 (stop (start 30 (init sample_db))) = None.
Proof.
  refine (proj1 (stop_lets_cycles_finish sample_db (start 30 (init sample_db)) _) 0%nat).
  exists [Start 30]. reflexivity.
Defined.

(** *** The loop with the repository's own collaborators *)

Lemma wired_decide (state : DecisionAI.DecisionState) (db : Database) :
  decide state db = (Ok (DecisionAI.raw_of (DecisionAI.fallbackDecide state)), [], db).
Proof. reflexivity. Qed.

Lemma wired_processAddress (addr : string) (e : Env Database) :
  let state :=
    DecisionAI.mkState addr (Watsonx.priority (Watsonx.prioritize addr))
      (Watsonx.risk (Watsonx.prioritize addr))
      (Watsonx.depth (Watsonx.prioritize addr)) None in
  processAddress addr e =
    (Ok tt,
     match DecisionAI.action (DecisionAI.fallbackDecide state) with
     | DecisionAI.SLEEP =>
         mkEnv (world e)
           (console e ++ [LogSleep (substring 0 10 addr)
                            (Some (JStr (DecisionAI.reasoning
                                           (DecisionAI.fallbackDecide state))))])
           (calls e ++ [CallPrioritize addr; CallDecide addr])
     | _ =>
         mkEnv (world e)
           (console e ++ [ErrProcessing addr no_store_method])
           (calls e ++ [CallPrioritize addr; CallDecide addr;
                        CallScan addr; CallStore addr])
     end).
Proof.
  cbv zeta.
  unfold processAddress, try_catch, processAddress_body, bind, invoke.
  cbn [prioritize wired world console calls].
  set (p := Watsonx.prioritize addr).
  change (decide ?st ?db) with
    (Ok (DecisionAI.raw_of (DecisionAI.fallbackDecide st)), @nil log_line, db).
  cbn [world console calls].
  set (d := DecisionAI.fallbackDecide _).
  unfold action_is, DecisionAI.raw_of. cbn [DecisionAI.raw_action DecisionAI.raw_reasoning].
  destruct (DecisionAI.action d); cbn -[Watsonx.prioritize substring];
    rewrite ?app_nil_r, <- ?app_assoc; reflexivity.
Qed.

Lemma wired_step_cycle (c : Cycle) (e : Env Database) :
  world (snd (step_cycle c e)) = world e /\
  exists lines,
    console (snd (step_cycle c e)) = (console e ++ lines)%list /\
    Forall (fun line => reports_scan line = false) lines.
Proof.
  destruct c as [|[|addr rest]].
  - cbn. split; [reflexivity|]. exists []. split; [reflexivity|constructor].
  - cbn. split; [reflexivity|]. exists []. split; [now rewrite app_nil_r|constructor].
  - cbn [step_cycle]. rewrite wired_processAddress. cbv zeta.
    destruct (DecisionAI.action _); cbn [snd world console];
      (split; [reflexivity|]); eexists; (split; [reflexivity|]);
      repeat constructor.
Qed.

Lemma wired_exec (db : Database) (l : label) (s s' : Sys Database) :
  world (env s) = db /\
  Forall (fun line => reports_scan line = false) (console (env s)) ->
  exec l s = Some s' ->
  world (env s') = db /\
  Forall (fun line => reports_scan line = false) (console (env s')).
Proof.
  intros [Hw Hc]. destruct l as [secs| |id|i]; simpl.
  - intros [= <-]. unfold start. destruct (isRunning (loop s)); [now split|].
    cbn. split; [assumption|]. apply Forall_app. split; [assumption|].
    repeat constructor.
  - intros [= <-]. cbn. split; [assumption|]. apply Forall_app.
    split; [assumption|]. repeat constructor.
  - unfold tick. destruct (armed id s); [|discriminate]. intros [= <-]. now split.
  - unfold resume. destruct (nth_error (inflight s) i) as [c|]; [|discriminate].
    destruct (wired_step_cycle c (env s)) as [Hw' (lines & Hl & Hq)].
    destruct (step_cycle c (env s)) as [c' e']. cbn [snd] in *.
    intros [= <-]. cbn [env]. split; [congruence|].
    rewrite Hl. apply Forall_app. now split.
Qed.

(** X14. The loop as the repository wires it, with no watsonx
    credentials configured, never reports a scan.
    [storage] has no [storeVulnerability] method and the built-in scan
    always has a finding, so every target that is not put to sleep ends,
    after four calls, in the caught [TypeError].  In every state the loop
    can reach, the console has no vulnerability line, no decision line and
    no clean-scan line, and the schedules are as they were at the start. *)
Theorem wired_loop_never_reports (db : Database) (s : Sys Database) :
  reachable db s ->
  world (env s) = db /\
  Forall (fun line => reports_scan line = false) (console (env s)) /\
  (forall addr e,
      snd (processAddress addr e) =
        mkEnv (world e)
          (console e ++ [ErrProcessing addr no_store_method])
          (calls e ++ [CallPrioritize addr; CallDecide addr;
                       CallScan addr; CallStore addr]) \/
      exists reasoning,
        snd (processAddress addr e) =
          mkEnv (world e)
            (console e ++ [LogSleep (substring 0 10 addr) reasoning])
            (calls e ++ [CallPrioritize addr; CallDecide addr])).
Proof.
  intros [ls Hrun].
  assert (Hinv : world (env s) = db /\
                 Forall (fun line => reports_scan line = false) (console (env s))).
  { assert (H0 : world (env (init db)) = db /\
                 Forall (fun line => reports_scan line = false)
                        (console (env (init db)))) by (split; [reflexivity|constructor]).
    revert Hrun H0. generalize (init db).
    induction ls as [|l ls IH]; simpl; intros s0 Hrun H0.
    - now injection Hrun as <-.
    - destruct (exec l s0) as [s1|] eqn:E; [|discriminate].
      apply (IH s1 Hrun). now apply (wired_exec db l s0). }
  destruct Hinv as [Hw Hc]. split; [assumption|]. split; [assumption|].
  intros addr e. rewrite wired_processAddress. cbv zeta.
  destruct (DecisionAI.action _); cbn [snd]; [left|left|right]; eauto.
Qed.

Lemma wired_loop_never_reports_witness :
  Forall (fun line => reports_scan line = false)
    (console (env (mkSys (mkLoop true (Some 0%nat)) [(0%nat, 30000%Z)] 1
                        (snd (scanCycle (mkEnv sample_db [LogStarted 30] [])))
                        []))).
Proof.
  refine (proj1 (proj2 (wired_loop_never_reports sample_db _ _))).
  exists [Start 30; Tick 0; Resume 0; Resume 0; Resume 0; Resume 0].
  vm_compute. reflexivity.
Defined.

End SchedulerMore.

(** ** The background pipeline of a manual scan *)
Module RoutesProps.
Import Routes.

Section Pipeline.

Variable W : Type.
Variable storage : storage_write -> W -> result unit * W.
Variable random_above_half : W -> bool * W.

Let run := processScanInBackground W storage random_above_half.

(** X15. The pipeline has no error handling of its own.  Whatever the
    database does, the status is only ever written as "processing" and
    then "completed", for this scan; "failed" is never written.  If all
    writes go through, they are the four of the pipeline in order and the
    completion line is the last on the console; if a write throws, the
    exception leaves the function, no later write is made, and the scan
    is not marked completed. *)
Theorem pipeline_status_discipline (scanId : Z) (target : string) (e : Env W) :
  let r := fst (run scanId target e) in
  let e1 := snd (run scanId target e) in
  exists ws,
    written e1 = (written e ++ ws)%list /\
    (forall id status, In (UpdateScanStatus id status) ws ->
       id = scanId /\ (status = "processing" \/ status = "completed")) /\
    (r = Ok tt ->
       exists raw score findings priority reasoning model confidence,
         ws = [UpdateScanStatus scanId "processing";
               CreateScanResult scanId raw score findings;
               CreateDecision scanId priority reasoning model confidence;
               UpdateScanStatus scanId "completed"] /\
         console e1 =
           (console e ++ [starting_line scanId; completed_line scanId priority])%list) /\
    (forall error, r = Throw error ->
       ~ In (UpdateScanStatus scanId "completed") ws /\
       console e1 = (console e ++ [starting_line scanId])%list).
Proof.
  cbv zeta. unfold run, processScanInBackground, bind, log, write, random.
  cbn [world console written].
  destruct (storage (UpdateScanStatus scanId "processing") (world e))
    as [[[]|err1] w1] eqn:E1; cbn [world console written fst snd].
  2:{ exists []. rewrite app_nil_r. split; [reflexivity|].
      split; [intros ? ? []|]. split; [discriminate|]. intros ? _. now split. }
  destruct (random_above_half w1) as [isVulnerable w2]; cbn [world console written fst snd].
  match goal with |- context [storage (CreateScanResult ?a ?b ?c ?d) w2] =>
    destruct (storage (CreateScanResult a b c d) w2) as [[[]|err2] w3] eqn:E2 end;
    cbn [world console written fst snd].
  2:{ exists [UpdateScanStatus scanId "processing"]. split; [reflexivity|].
      split; [intros ? ? [[= <- <-]|[]]; auto|]. split; [discriminate|].
      intros ? _. split; [intros [H|[]]; discriminate|reflexivity]. }
  match goal with |- context [storage (CreateDecision ?a ?b ?c ?d ?f) w3] =>
    destruct (storage (CreateDecision a b c d f) w3) as [[[]|err3] w4] eqn:E3 end;
    cbn [world console written fst snd].
  2:{ eexists [UpdateScanStatus scanId "processing"; CreateScanResult _ _ _ _].
      rewrite <- app_assoc. split; [reflexivity|].
      split; [intros ? ? [[= <- <-]|[H|[]]]; [auto|discriminate]|].
      split; [discriminate|].
      intros ? _. split; [intros [H|[H|[]]]; discriminate|reflexivity]. }
  destruct (storage (UpdateScanStatus scanId "completed") w4)
    as [[[]|err4] w5] eqn:E4; cbn [world console written fst snd].
  - eexists [UpdateScanStatus scanId "processing"; CreateScanResult _ _ _ _;
             CreateDecision _ _ _ _ _; UpdateScanStatus scanId "completed"].
    rewrite <- !app_assoc. split; [reflexivity|].
    split.
    { intros ? ? [[= <- <-]|[H|[H|[[= <- <-]|[]]]]]; auto; discriminate. }
    split; [|discriminate].
    intros _. do 7 eexists. split; reflexivity.
  - eexists [UpdateScanStatus scanId "processing"; CreateScanResult _ _ _ _;
             CreateDecision _ _ _ _ _].
    rewrite <- !app_assoc. split; [reflexivity|].
    split; [intros ? ? [[= <- <-]|[H|[H|[]]]]; auto; discriminate|].
    split; [discriminate|].
    intros ? _. split; [intros [H|[H|[H|[]]]]; discriminate|reflexivity].
Qed.


End Pipeline.

Lemma pipeline_status_discipline_witness :
  ~ In (UpdateScanStatus 7 "completed")
       (written (snd (processScanInBackground unit refusing (fun w => (true, w)) 7
                        "0xaaa" (mkEnv tt [] [])))).
Proof.
  destruct (pipeline_status_discipline unit refusing (fun w => (true, w)) 7
              "0xaaa" (mkEnv tt [] [])) as (ws & Hw & _ & _ & Hthrow).
  rewrite Hw. exact (proj1 (Hthrow "Error: connection terminated" eq_refl)).
Defined.


End RoutesProps.

(** ** The block cache *)
Module BlockCacheProps.
Import BlockCache.

Section Cache.

Variable V : Type.

Lemma get_set_same (c : Cache V) k v : get (set c k v) k = Some v.
Proof.
  induction c as [|[k' v'] c IH]; simpl.
  - now rewrite String.eqb_refl.
  - destruct (String.eqb k' k) eqn:E; simpl; rewrite E; auto.
Qed.

Lemma get_set_other (c : Cache V) k k' v :
  k <> k' -> get (set c k v) k' = get c k'.
Proof.
  intros Hne. induction c as [|[k0 v0] c IH]; simpl.
  - destruct (String.eqb k k') eqn:E; auto.
    apply String.eqb_eq in E. contradiction.
  - destruct (String.eqb k0 k) eqn:E; simpl.
    + apply String.eqb_eq in E. subst k0.
      destruct (String.eqb k k') eqn:E'; auto.
      apply String.eqb_eq in E'. contradiction.
    + now rewrite IH.
Qed.

Lemma set_length (c : Cache V) k v :
  List.length (set c k v) =
  match get c k with Some _ => List.length c | None => S (List.length c) end.
Proof.
  induction c as [|[k' v'] c IH]; simpl; [reflexivity|].
  destruct (String.eqb k' k); simpl; [reflexivity|].
  rewrite IH. now destruct (get c k).
Qed.

Lemma set_keys_NoDup (c : Cache V) k v :
  NoDup (map fst c) -> NoDup (map fst (set c k v)).
Proof.
  induction c as [|[k' v'] c IH]; simpl; intros H.
  - constructor; [intros []|constructor].
  - inversion H as [|? ? Hk Hc]; subst.
    destruct (String.eqb k' k) eqn:E; simpl; [now constructor|].
    constructor; [|now apply IH].
    intros Hin. apply Hk. clear -Hin E.
    induction c as [|[k0 v0] c IH]; simpl in *.
    + destruct Hin as [<-|[]]. now rewrite String.eqb_refl in E.
    + destruct (String.eqb k0 k); simpl in Hin; [assumption|].
      destruct Hin as [<-|Hin]; [now left|right; auto].
Qed.

(** With distinct keys, deleting the first key drops the first entry. *)
Lemma delete_first (k : string) (v : V) (c : Cache V) :
  NoDup (map fst ((k, v) :: c)) -> delete ((k, v) :: c) k = c.
Proof.
  intros H. inversion H as [|? ? Hk Hc]; subst.
  unfold delete. simpl. rewrite String.eqb_refl. simpl.
  clear H Hc. induction c as [|[k' v'] c IH]; simpl; [reflexivity|].
  destruct (String.eqb k' k) eqn:E.
  - apply String.eqb_eq in E. subst. exfalso. apply Hk. now left.
  - simpl. f_equal. apply IH. intros Hin. apply Hk. now right.
Qed.

Lemma cacheData_well_formed (key : string) (data : V) (c : Cache V) :
  well_formed c -> well_formed (cacheData key data c).
Proof.
  intros [Hnd Hlen]. unfold cacheData.
  destruct (Nat.leb_spec maxCacheSize (List.length c)) as [Hfull|Hroom].
  - destruct c as [|[k0 v0] c]; [unfold maxCacheSize in Hfull; simpl in Hfull; lia|].
    rewrite (delete_first k0 v0 c Hnd). inversion Hnd; subst. split.
    + now apply set_keys_NoDup.
    + rewrite set_length. simpl in Hlen. destruct (get c key); lia.
  - split; [now apply set_keys_NoDup|].
    rewrite set_length. destruct (get c key); lia.
Qed.

Lemma filled_well_formed (entries : list (string * V)) : well_formed (filled entries).
Proof.
  unfold filled.
  assert (H0 : well_formed (@nil (string * V)))
    by (split; [constructor|unfold maxCacheSize; simpl; lia]).
  revert H0. generalize (@nil (string * V)).
  induction entries as [|[k v] entries IH]; simpl; intros c Hc; [assumption|].
  apply IH. now apply cacheData_well_formed.
Qed.

(** X17. The cache is bounded and reads back what was put in: however
    many blocks are cached on a fresh collector, the cache holds at most
    1000 entries under distinct keys, and right after [cacheData key data]
    a lookup of [key] gives [data]. *)
Theorem cache_bounded_and_readable
        (entries : list (string * V)) (key : string) (data : V) :
  (List.length (filled entries) <= 1000)%nat /\
  NoDup (map fst (filled entries)) /\
  get (filled (entries ++ [(key, data)])) key = Some data.
Proof.
  destruct (filled_well_formed entries) as [Hnd Hlen].
  split; [exact Hlen|]. split; [exact Hnd|].
  unfold filled. rewrite fold_left_app. simpl.
  unfold cacheData at 1. apply get_set_same.
Qed.

(** X18. Eviction is first in, first out and only at the limit.  On a
    cache with distinct keys, [cacheData key data] leaves every other
    key's entry as it was, except that when the cache already holds 1000
    entries the oldest one is dropped; this happens even if [key] was
    already cached, in which case the cache shrinks to 999 entries. *)
Theorem cache_evicts_oldest_only
        (key : string) (data : V) (c : Cache V) (k : string) :
  NoDup (map fst c) ->
  k <> key ->
  get (cacheData key data c) k =
    (if (1000 <=? List.length c)%nat
     then match c with
          | (oldest, _) :: _ => if String.eqb oldest k then None else get c k
          | [] => get c k
          end
     else get c k) /\
  ((1000 <= List.length c)%nat -> get (tl c) key <> None ->
   List.length (cacheData key data c) = (List.length c - 1)%nat).
Proof.
  intros Hnd Hne. unfold cacheData. change maxCacheSize with 1000%nat.
  destruct (Nat.leb_spec 1000 (List.length c)) as [Hfull|Hroom].
  - destruct c as [|[k0 v0] c]; [simpl in Hfull; lia|].
    rewrite (delete_first k0 v0 c Hnd). split.
    + rewrite get_set_other by congruence. simpl.
      destruct (String.eqb k0 k) eqn:E; [|reflexivity].
      apply String.eqb_eq in E. subst k0. inversion Hnd as [|? ? Hk _]; subst.
      clear -Hk. induction c as [|[k' v'] c IH]; simpl; [reflexivity|].
      destruct (String.eqb k' k) eqn:E.
      * apply String.eqb_eq in E. subst. exfalso. apply Hk. now left.
      * apply IH. intros H. apply Hk. now right.
    + intros _ Hin. simpl in Hin. rewrite set_length.
      destruct (get c key); [simpl; lia|congruence].
  - split; [now rewrite get_set_other by congruence|]. intros H. lia.
Qed.

End Cache.

Lemma cache_evicts_oldest_only_witness :
  List.length full_cache = 1000%nat /\
  get full_cache "0" = Some 0%nat /\
  get (tl full_cache) "7" = Some 7%nat /\
  get (cacheData "7" 70%nat full_cache) "0" = None /\
  get (cacheData "7" 70%nat full_cache) "1" = Some 1%nat /\
  get (cacheData "7" 70%nat full_cache) "7" = Some 70%nat /\
  List.length (cacheData "7" 70%nat full_cache) = 999%nat.
Proof.
  assert (Hnd : NoDup (map fst full_cache))
    by exact (proj1 (filled_well_formed nat full_entries)).
  assert (Hlen : List.length full_cache = 1000%nat) by (vm_compute; reflexivity).
  assert (Hold : "0" <> "7") by discriminate.
  assert (Hnext : "1" <> "7") by discriminate.
  assert (Hkey : get (tl full_cache) "7" = Some 7%nat) by (vm_compute; reflexivity).
  pose proof (cache_evicts_oldest_only nat "7" 70%nat full_cache "0" Hnd Hold)
    as [Hgone Hshrink].
  pose proof (cache_evicts_oldest_only nat "7" 70%nat full_cache "1" Hnd Hnext)
    as [Hkept _].
  split; [exact Hlen|].
  split; [vm_compute; reflexivity|].
  split; [exact Hkey|].
  split; [rewrite Hgone; vm_compute; reflexivity|].
  split; [rewrite Hkept; vm_compute; reflexivity|].
  split; [vm_compute; reflexivity|].
  rewrite Hshrink.
  - rewrite Hlen. reflexivity.
  - rewrite Hlen. apply le_n.
  - rewrite Hkey. discriminate.
Defined.

End BlockCacheProps.

(** ** The DER signature parser *)
Module DerParserProps.
Import DerParser.

(** *** Hexadecimal *)

Lemma hex_digit_value (n : nat) :
  (n < 16)%nat -> JSBigInt.digit_val 16 (hex_digit n) = Some (Z.of_nat n).
Proof.
  intros H. do 16 (destruct n as [|n]; [reflexivity|]). lia.
Qed.

Lemma hex_digit_not_ws (n : nat) : JSBigInt.is_ws (hex_digit n) = false.
Proof. do 15 (destruct n as [|n]; [reflexivity|]). reflexivity. Qed.

Lemma hex_value_digit (n : nat) : (n < 16)%nat -> hex_value (hex_digit n) = Some n.
Proof.
  intros H. unfold hex_value. rewrite hex_digit_value by assumption.
  simpl. now rewrite Nat2Z.id.
Qed.

(** Bytes survive the way through text: [Buffer.from(buf.toString('hex'),
    'hex')] is [buf]. *)
Lemma hex_decode_encode (bytes : Buffer) :
  is_bytes bytes -> hex_decode (hex_encode bytes) = bytes.
Proof.
  induction 1 as [|b bytes Hb _ IH]; [reflexivity|].
  cbn [hex_encode hex_decode].
  assert (b / 16 < 16)%nat by (apply Nat.Div0.div_lt_upper_bound; lia).
  assert (b mod 16 < 16)%nat by (apply Nat.mod_upper_bound; lia).
  rewrite !hex_value_digit, IH by assumption.
  f_equal. rewrite (Nat.div_mod_eq b 16) at 3. lia.
Qed.

Lemma trim_right_no_ws (t : string) :
  (forall c, In c (list_ascii_of_string t) -> JSBigInt.is_ws c = false) ->
  JSBigInt.trim_right t = t.
Proof.
  induction t as [|c t IH]; intros H; [reflexivity|].
  simpl. rewrite IH by (intros x Hx; apply H; now right).
  destruct t; [|reflexivity].
  now rewrite (H c (or_introl eq_refl)).
Qed.

Lemma hex_encode_no_ws (bytes : Buffer) (c : ascii) :
  In c (list_ascii_of_string (hex_encode bytes)) -> JSBigInt.is_ws c = false.
Proof.
  induction bytes as [|b bytes IH]; simpl; [intros []|].
  intros [<-|[<-|H]]; auto using hex_digit_not_ws.
Qed.

Lemma digits_from_hex (bytes : Buffer) : forall acc,
  is_bytes bytes ->
  JSBigInt.digits_from 16 acc (hex_encode bytes) =
  Some (fold_left (fun a b => a * 256 + Z.of_nat b)%Z bytes acc).
Proof.
  induction bytes as [|b bytes IH]; intros acc H; [reflexivity|].
  inversion H as [|? ? Hb Hrest]; subst.
  assert (b / 16 < 16)%nat by (apply Nat.Div0.div_lt_upper_bound; lia).
  assert (b mod 16 < 16)%nat by (apply Nat.mod_upper_bound; lia).
  cbn [hex_encode JSBigInt.digits_from fold_left].
  rewrite !hex_digit_value by assumption. rewrite IH by assumption.
  do 2 f_equal. rewrite (Nat.div_mod_eq b 16) at 3.
  rewrite Nat2Z.inj_add, Nat2Z.inj_mul. simpl Z.of_nat. lia.
Qed.

(** [BigInt('0x' + hex)] of a run of bytes: their big-endian value, and a
    [SyntaxError] when there is no byte at all. *)
Lemma bigint_of_bytes_value (bytes : Buffer) :
  is_bytes bytes ->
  bigint_of_bytes bytes =
    match bytes with
    | [] => Throw (syntax_error "0x")
    | _ => Ok (be_value bytes)
    end.
Proof.
  intros H. unfold bigint_of_bytes, JSBigInt.BigInt, JSBigInt.trim.
  change ("0x" ++ hex_encode bytes) with (String "0" (String "x" (hex_encode bytes))).
  cbn [JSBigInt.trim_left]. change (JSBigInt.is_ws "0") with false. cbv iota.
  rewrite trim_right_no_ws.
  2:{ intros c [<-|[<-|Hc]]; [reflexivity|reflexivity|].
      now apply (hex_encode_no_ws bytes). }
  cbv beta iota. unfold JSBigInt.digits.
  destruct bytes as [|b bytes]; [reflexivity|].
  change (hex_encode (b :: bytes)) with
    (String (hex_digit (b / 16)) (String (hex_digit (b mod 16)) (hex_encode bytes))).
  change (String (hex_digit (b / 16)) (String (hex_digit (b mod 16)) (hex_encode bytes)))
    with (hex_encode (b :: bytes)).
  assert (Hd : JSBigInt.digits_from 16 0 (hex_encode (b :: bytes))
               = Some (be_value (b :: bytes))) by (now apply digits_from_hex).
  cbn [hex_encode] in *. rewrite Hd. reflexivity.
Qed.


Local Open Scope list_scope.

(** *** The loop body looks ahead from [offset] only *)

Lemma at_skipn (buffer : Buffer) (offset k : nat) :
  at_ (skipn offset buffer) k = at_ buffer (offset + k).
Proof. unfold at_. apply nth_error_skipn. Qed.

Lemma slice_skipn (buffer : Buffer) (offset a : nat) (x : option nat) :
  slice (skipn offset buffer) a (plus_opt a x) =
  slice buffer (offset + a) (plus_opt (offset + a) x).
Proof.
  destruct x as [x|]; [|reflexivity]. unfold slice, plus_opt, option_map.
  rewrite skipn_skipn. f_equal; [lia|]. f_equal. lia.
Qed.

Lemma loop_body_view (buffer : Buffer) (txid : string) (timestamp : Z) (offset : nat) :
  (offset <= List.length buffer)%nat ->
  loop_body buffer txid timestamp offset =
  loop_body (skipn offset buffer) txid timestamp 0.
Proof.
  intros Hoff. unfold loop_body. cbn [Nat.add].
  rewrite !at_skipn, length_skipn, ?Nat.add_0_r.
  destruct (is_not (at_ buffer offset) 48); [reflexivity|].
  assert (Hbreak :
    match at_ buffer (offset + 1) with
    | Some t => (List.length buffer - offset <? t + 2)%nat
    | None => false
    end =
    match at_ buffer (offset + 1) with
    | Some t => (List.length buffer <? offset + t + 2)%nat
    | None => false
    end).
  { destruct (at_ buffer (offset + 1)) as [t|]; [|reflexivity].
    destruct (Nat.ltb_spec (List.length buffer - offset) (t + 2)),
             (Nat.ltb_spec (List.length buffer) (offset + t + 2)); auto; lia. }
  rewrite Hbreak. clear Hbreak.
  destruct (match at_ buffer (offset + 1) with Some _ => _ | None => _ end);
    [reflexivity|].
  destruct (is_not (at_ buffer (offset + 2)) 2); [reflexivity|].
  rewrite (slice_skipn buffer offset 4).
  destruct (bigint_of_bytes _) as [rv|error]; [|reflexivity].
  destruct (at_ buffer (offset + 3)) as [rl|]; [|reflexivity].
  cbn [plus_opt option_map].
  rewrite !at_skipn.
  replace (offset + (4 + rl))%nat with (offset + 4 + rl)%nat by lia.
  replace (offset + (4 + rl + 1))%nat with (offset + 4 + rl + 1)%nat by lia.
  assert (Hshort : (List.length buffer - offset <=? 4 + rl + 2)%nat =
                   (List.length buffer <=? offset + 4 + rl + 2)%nat).
  { destruct (Nat.leb_spec (List.length buffer - offset) (4 + rl + 2)),
             (Nat.leb_spec (List.length buffer) (offset + 4 + rl + 2)); auto; lia. }
  rewrite Hshort. clear Hshort.
  destruct (_ || _); [reflexivity|].
  assert (Hs : slice (skipn offset buffer) (4 + rl + 2)
                  (plus_opt (4 + rl + 2) (at_ buffer (offset + 4 + rl + 1))) =
               slice buffer (offset + 4 + rl + 2)
                  (plus_opt (offset + 4 + rl + 2) (at_ buffer (offset + 4 + rl + 1)))).
  { rewrite slice_skipn. f_equal; [lia|]. f_equal. lia. }
  rewrite Hs. clear Hs.
  destruct (bigint_of_bytes _) as [sv|error]; [|reflexivity].
  pose proof (slice_skipn buffer offset 0
                (option_map (fun t => t + 2)%nat (at_ buffer (offset + 1)))) as Hd.
  rewrite Nat.add_0_r in Hd. rewrite Hd. reflexivity.
Qed.

(** *** Fuel *)

Lemma loop_body_advance (buffer : Buffer) txid timestamp offset found advance :
  loop_body buffer txid timestamp offset = Push found advance ->
  exists t, at_ buffer (offset + 1) = Some t /\ advance = Some (t + 2)%nat /\
            (offset + t + 2 <= List.length buffer)%nat.
Proof.
  unfold loop_body.
  destruct (is_not (at_ buffer offset) 48); [discriminate|].
  destruct (at_ buffer (offset + 1)) as [t|] eqn:Et.
  - destruct (Nat.ltb_spec (List.length buffer) (offset + t + 2)); [discriminate|].
    destruct (is_not _ 2); [discriminate|].
    destruct (bigint_of_bytes _); [|discriminate].
    destruct (plus_opt _ _); [|discriminate].
    destruct (_ || _); [discriminate|].
    destruct (bigint_of_bytes _); [|discriminate].
    intros [= _ <-]. exists t. now repeat split.
  - destruct (is_not (at_ buffer (offset + 2)) 2) eqn:E2; [discriminate|].
    exfalso. unfold is_not in E2.
    destruct (at_ buffer (offset + 2)) eqn:E; [|discriminate].
    unfold at_ in *. apply nth_error_None in Et.
    assert (offset + 2 < List.length buffer)%nat by (apply nth_error_Some; congruence).
    lia.
Qed.

(** The relation is what the loop computes, whenever there is a unit of
    fuel for every byte from [offset] on, and one more. *)
Lemma runs_parse_from (buffer : Buffer) txid timestamp offset signatures res :
  runs buffer txid timestamp offset signatures res ->
  forall fuel, (List.length buffer - offset < fuel)%nat ->
  parse_from fuel buffer txid timestamp offset signatures = Some res.
Proof.
  induction 1 as [off sigs Hend | off sigs res Hin Hbody _ IH | off sigs Hin Hbody
                  | off sigs error Hin Hbody | off sigs found adv res Hin Hbody _ IH];
    intros [|fuel] Hfuel; try lia; cbn [parse_from].
  - destruct (Nat.leb_spec (List.length buffer) off); [reflexivity|lia].
  - destruct (Nat.leb_spec (List.length buffer) off); [lia|].
    rewrite Hbody. apply IH. lia.
  - destruct (Nat.leb_spec (List.length buffer) off); [lia|]. now rewrite Hbody.
  - destruct (Nat.leb_spec (List.length buffer) off); [lia|]. now rewrite Hbody.
  - destruct (Nat.leb_spec (List.length buffer) off); [lia|].
    rewrite Hbody. apply IH.
    destruct (loop_body_advance _ _ _ _ _ _ Hbody) as (t & _ & [= ->] & _). lia.
Qed.

(** The loop always ends. *)
Lemma runs_total (buffer : Buffer) txid timestamp :
  forall n offset signatures,
    (List.length buffer - offset <= n)%nat ->
    exists res, runs buffer txid timestamp offset signatures res.
Proof.
  induction n as [|n IH]; intros offset signatures Hn.
  - exists (Ok signatures). apply runs_end. lia.
  - destruct (Nat.le_gt_cases (List.length buffer) offset) as [Hend|Hin].
    { exists (Ok signatures). now apply runs_end. }
    destruct (loop_body buffer txid timestamp offset) as [| |error|found [adv|]] eqn:Hbody.
    + destruct (IH (S offset) signatures ltac:(lia)) as [res Hres].
      exists res. now apply runs_continue.
    + exists (Ok signatures). now apply runs_break.
    + exists (Throw error). now apply runs_raise.
    + destruct (loop_body_advance _ _ _ _ _ _ Hbody) as (t & _ & [= ->] & _).
      destruct (IH (offset + (t + 2))%nat (signatures ++ [found])%list ltac:(lia))
        as [res Hres].
      exists res. now apply (runs_push _ _ _ _ _ found (t + 2)%nat).
    + destruct (loop_body_advance _ _ _ _ _ _ Hbody) as (t & _ & H & _). discriminate.
Qed.

Lemma parseDERSignature_runs (hex txid : string) (timestamp : Z)
      (res : result (list ECDSASignature)) :
  runs (hex_decode hex) txid timestamp 0 [] res ->
  parseDERSignature hex txid timestamp =
    match res with
    | Ok [] => (None, [])
    | Ok signatures => (Some signatures, [])
    | Throw error => (None, [("[!] Error parsing DER signature: " ++ error)%string])
    end.
Proof.
  intros H. unfold parseDERSignature.
  rewrite (runs_parse_from _ _ _ _ _ _ H) by lia. reflexivity.
Qed.


(** *** One well-formed signature *)

Lemma firstn_exact {A} (a b : list A) : firstn (List.length a) (a ++ b) = a.
Proof. induction a as [|x a IH]; simpl; [reflexivity|now rewrite IH]. Qed.

Lemma skipn_exact {A} (a b : list A) : skipn (List.length a) (a ++ b) = b.
Proof. induction a as [|x a IH]; simpl; [reflexivity|exact IH]. Qed.

Lemma at_app_exact (a b : Buffer) (k : nat) :
  at_ (a ++ b) (List.length a + k) = at_ b k.
Proof.
  unfold at_. rewrite nth_error_app2 by lia. f_equal. lia.
Qed.

Lemma der_length (rb sb : Buffer) :
  List.length (der rb sb) = (4 + List.length rb + List.length sb + 2)%nat.
Proof. unfold der. simpl. rewrite !length_app. simpl. lia. Qed.

Lemma der_view (rb sb rest : Buffer) :
  let view := der rb sb ++ rest in
  List.length view = (4 + List.length rb + List.length sb + 2 + List.length rest)%nat /\
  at_ view 0 = Some 48%nat /\
  at_ view 1 = Some (4 + List.length rb + List.length sb)%nat /\
  at_ view 2 = Some 2%nat /\
  at_ view 3 = Some (List.length rb) /\
  slice view 4 (Some (4 + List.length rb)%nat) = rb /\
  at_ view (4 + List.length rb) = Some 2%nat /\
  at_ view (4 + List.length rb + 1) = Some (List.length sb) /\
  slice view (4 + List.length rb + 2)
        (Some (4 + List.length rb + 2 + List.length sb)%nat) = sb /\
  slice view 0 (Some (0 + (4 + List.length rb + List.length sb + 2))%nat) = der rb sb.
Proof.
  cbv zeta.
  assert (Hsplit : der rb sb ++ rest =
            [48; 4 + List.length rb + List.length sb; 2; List.length rb]%nat
              ++ rb ++ [2; List.length sb]%nat ++ sb ++ rest).
  { unfold der. now rewrite <- !app_assoc. }
  split; [rewrite length_app, der_length; lia|].
  do 4 (split; [reflexivity|]).
  split.
  { rewrite Hsplit. unfold slice. cbn [app skipn].
    replace (4 + List.length rb - 4)%nat with (List.length rb) by lia.
    apply firstn_exact. }
  split.
  { rewrite Hsplit. unfold at_. cbn [app Nat.add nth_error].
    rewrite nth_error_app2 by lia. now rewrite Nat.sub_diag. }
  split.
  { rewrite Hsplit. unfold at_. cbn [app Nat.add nth_error].
    rewrite nth_error_app2 by lia.
    replace (List.length rb + 1 - List.length rb)%nat with 1%nat by lia. reflexivity. }
  split.
  { unfold slice.
    replace (4 + List.length rb + 2 + List.length sb - (4 + List.length rb + 2))%nat
      with (List.length sb) by lia.
    assert (Hsk : skipn (4 + List.length rb + 2) (der rb sb ++ rest) = sb ++ rest).
    { rewrite Hsplit.
      replace ([48; 4 + List.length rb + List.length sb; 2; List.length rb]%nat
                 ++ rb ++ [2; List.length sb]%nat ++ sb ++ rest)
        with (([48; 4 + List.length rb + List.length sb; 2; List.length rb]%nat
                 ++ rb ++ [2; List.length sb]%nat) ++ sb ++ rest)
        by (now rewrite <- !app_assoc).
      replace (4 + List.length rb + 2)%nat
        with (List.length ([48; 4 + List.length rb + List.length sb; 2;
                            List.length rb]%nat ++ rb ++ [2; List.length sb]%nat))
        by (rewrite !length_app; simpl; lia).
      apply skipn_exact. }
    rewrite Hsk. apply firstn_exact. }
  unfold slice. cbn [skipn]. rewrite Nat.sub_0_r. cbn [Nat.add].
  change (S (S (S (S (List.length rb + List.length sb + 2)))))
    with (4 + List.length rb + List.length sb + 2)%nat.
  rewrite <- der_length. apply firstn_exact.
Qed.

Lemma loop_body_der (rb sb rest : Buffer) (txid : string) (timestamp : Z) :
  is_bytes rb -> is_bytes sb -> rb <> [] -> sb <> [] ->
  loop_body (der rb sb ++ rest) txid timestamp 0 =
    Push (signature_of rb sb txid timestamp)
         (Some (4 + List.length rb + List.length sb + 2)%nat).
Proof.
  intros Hrb Hsb Hr Hs.
  destruct (der_view rb sb rest)
    as (Hlen & H0 & H1 & H2 & H3 & Hrs & Hm & Hsl & Hss & Hd).
  remember (der rb sb ++ rest) as view eqn:Hview.
  unfold loop_body. cbn [Nat.add].
  rewrite H0, H1, H2, H3, Hlen.
  cbn [is_not Nat.eqb negb plus_opt option_map].
  destruct (Nat.ltb_spec (4 + List.length rb + List.length sb + 2 + List.length rest)
                         (4 + List.length rb + List.length sb + 2)); [lia|].
  rewrite Hrs, (bigint_of_bytes_value rb Hrb).
  destruct rb as [|r0 rb']; [congruence|].
  rewrite Hm, Hsl.
  destruct (Nat.leb_spec
              (4 + List.length (r0 :: rb') + List.length sb + 2 + List.length rest)
              (4 + List.length (r0 :: rb') + 2)) as [Hle|_].
  { destruct sb; [congruence|]. simpl in Hle. lia. }
  cbn [orb is_not Nat.eqb negb plus_opt option_map].
  rewrite Hss, (bigint_of_bytes_value sb Hsb).
  destruct sb as [|s0 sb']; [congruence|].
  repeat match goal with
    | |- context [slice view 0 ?e] =>
        lazymatch e with
        | Some (0 + (4 + List.length (r0 :: rb') + List.length (s0 :: sb') + 2))%nat => fail
        | _ =>
            replace e
              with (Some (0 + (4 + List.length (r0 :: rb') + List.length (s0 :: sb') + 2))%nat)
              by (f_equal; lia)
        end
    end.
  rewrite Hd. unfold signature_of. reflexivity.
Qed.

(** Bytes other than the marker are stepped over one by one. *)
Lemma runs_scan (seg : Buffer) txid timestamp : forall (a c : Buffer) signatures res,
  ~ In 48%nat seg ->
  runs (a ++ seg ++ c) txid timestamp (List.length a + List.length seg) signatures res ->
  runs (a ++ seg ++ c) txid timestamp (List.length a) signatures res.
Proof.
  induction seg as [|b seg IH]; intros a c signatures res Hno Hrun.
  - simpl in Hrun. now rewrite Nat.add_0_r in Hrun.
  - assert (Hb : at_ (a ++ (b :: seg) ++ c) (List.length a) = Some b).
    { rewrite <- (Nat.add_0_r (List.length a)). now rewrite at_app_exact. }
    apply runs_continue.
    + rewrite length_app. simpl. lia.
    + unfold loop_body. rewrite Hb. simpl.
      destruct (Nat.eqb_spec b 48); [|reflexivity].
      subst. exfalso. apply Hno. now left.
    + replace (a ++ (b :: seg) ++ c) with ((a ++ [b]) ++ seg ++ c) in *
        by (rewrite <- app_assoc; reflexivity).
      replace (S (List.length a)) with (List.length (a ++ [b]))
        by (rewrite length_app; simpl; lia).
      apply IH; [intros H; apply Hno; now right|].
      rewrite length_app. simpl.
      replace (List.length a + 1 + List.length seg)%nat
        with (List.length a + S (List.length seg))%nat by lia.
      exact Hrun.
Qed.

Lemma is_bytes_der (rb sb : Buffer) :
  is_bytes rb -> is_bytes sb ->
  (4 + List.length rb + List.length sb < 256)%nat ->
  is_bytes (der rb sb).
Proof.
  intros Hrb Hsb Hlen. unfold der, is_bytes.
  repeat (apply Forall_cons; [lia|]).
  apply Forall_app. split; [assumption|].
  repeat (apply Forall_cons; [lia|]). assumption.
Qed.

(** X19. The parser recovers a DER signature embedded in a script.  Take
    non-empty byte strings [R] and [S] whose encoding
    [30 len 02 |R| R 02 |S| S] has a one-byte length, and put it between
    bytes that contain no [0x30] marker (a push opcode before, a sighash
    byte after).  Parsing the hexadecimal text of that script returns
    exactly one signature: [r] and [s] are the big-endian values of [R] and
    [S], [derEncoded] is the encoding, [rawHex] its hexadecimal text.  The
    message hash it carries is the digest of the empty input, whatever
    the transaction. *)
Theorem der_round_trip (pre rb sb suf : Buffer) (txid : string) (timestamp : Z) :
  is_bytes pre -> is_bytes rb -> is_bytes sb -> is_bytes suf ->
  rb <> [] -> sb <> [] ->
  (4 + List.length rb + List.length sb < 256)%nat ->
  ~ In 48%nat pre -> ~ In 48%nat suf ->
  parseDERSignature (hex_encode (pre ++ der rb sb ++ suf)) txid timestamp =
    (Some [mkECDSASignature (be_value rb) (be_value sb) None (der rb sb)
                            (hex_encode (der rb sb)) sha256_of_nothing
                            timestamp txid],
     []).
Proof.
  intros Hpre Hrb Hsb Hsuf Hr Hs Hlen Hnpre Hnsuf.
  rewrite (parseDERSignature_runs _ _ _ (Ok [signature_of rb sb txid timestamp]));
    [reflexivity|].
  rewrite hex_decode_encode.
  2:{ apply Forall_app. split; [assumption|]. apply Forall_app.
      split; [now apply is_bytes_der|assumption]. }
  change 0%nat with (List.length (@nil nat)).
  change (pre ++ der rb sb ++ suf) with ([] ++ pre ++ der rb sb ++ suf).
  apply runs_scan; [assumption|]. cbn [app List.length Nat.add].
  apply (runs_push _ _ _ _ _ (signature_of rb sb txid timestamp)
                   (4 + List.length rb + List.length sb + 2)%nat).
  - rewrite !length_app, der_length. lia.
  - rewrite loop_body_view by (rewrite length_app; lia).
    rewrite skipn_exact. now apply loop_body_der.
  - cbn [app].
    replace (pre ++ der rb sb ++ suf) with ((pre ++ der rb sb) ++ suf ++ [])
      by (now rewrite app_nil_r, <- app_assoc).
    replace (List.length pre + (4 + List.length rb + List.length sb + 2))%nat
      with (List.length (pre ++ der rb sb))
      by (rewrite length_app, der_length; lia).
    apply runs_scan; [assumption|].
    apply runs_end. rewrite !length_app. simpl. lia.
Qed.

Lemma der_round_trip_witness :
  parseDERSignature "483007020200ff020101014121" "tx" 0 =
    (Some [mkECDSASignature 255 1 None [48; 7; 2; 2; 0; 255; 2; 1; 1]%nat
                            "3007020200ff020101" sha256_of_nothing 0 "tx"],
     []).
Proof.
  refine (der_round_trip [72]%nat [0; 255]%nat [1]%nat [1; 65; 33]%nat "tx" 0
                         _ _ _ _ _ _ _ _ _).
  - repeat constructor.
  - repeat constructor.
  - repeat constructor.
  - repeat constructor.
  - discriminate.
  - discriminate.
  - simpl. lia.
  - simpl. intuition discriminate.
  - simpl. intuition discriminate.
Defined.


(** X20. An empty number field discards everything.  When the script
    holds a good signature and, after it, a marker whose R field has
    length 0 ([30 t 02 00 ...], with the [t + 2] bytes it announces
    present), [BigInt('0x')] throws: the parser returns [null] and logs
    the error, and the signature it had already found is lost. *)
Theorem empty_field_discards_found (pre rb sb rest : Buffer) (t : nat)
        (txid : string) (timestamp : Z) :
  is_bytes pre -> is_bytes rb -> is_bytes sb -> is_bytes rest ->
  rb <> [] -> sb <> [] ->
  (4 + List.length rb + List.length sb < 256)%nat ->
  ~ In 48%nat pre ->
  (t < 256)%nat -> (t + 2 <= 4 + List.length rest)%nat ->
  parseDERSignature (hex_encode (pre ++ der rb sb ++ [48; t; 2; 0]%nat ++ rest))
                    txid timestamp =
    (None, [("[!] Error parsing DER signature: " ++ syntax_error "0x")%string]).
Proof.
  intros Hpre Hrb Hsb Hrest Hr Hs Hlen Hnpre Ht Hfit.
  rewrite (parseDERSignature_runs _ _ _ (Throw (syntax_error "0x")));
    [reflexivity|].
  rewrite hex_decode_encode.
  2:{ apply Forall_app. split; [assumption|]. apply Forall_app.
      split; [now apply is_bytes_der|].
      repeat (apply Forall_cons; [lia|]). assumption. }
  set (tail := [48; t; 2; 0]%nat ++ rest).
  change 0%nat with (List.length (@nil nat)).
  change (pre ++ der rb sb ++ tail) with ([] ++ pre ++ der rb sb ++ tail).
  apply runs_scan; [assumption|]. cbn [app List.length Nat.add].
  apply (runs_push _ _ _ _ _ (signature_of rb sb txid timestamp)
                   (4 + List.length rb + List.length sb + 2)%nat).
  - rewrite !length_app, der_length. lia.
  - rewrite loop_body_view by (rewrite length_app; lia).
    rewrite skipn_exact. now apply loop_body_der.
  - assert (Hview : skipn (List.length pre + (4 + List.length rb + List.length sb + 2))
                          (pre ++ der rb sb ++ tail) = tail).
    { rewrite <- (der_length rb sb), <- length_app, app_assoc. apply skipn_exact. }
    apply runs_raise.
    + rewrite !length_app, der_length. subst tail. simpl. lia.
    + rewrite loop_body_view by (rewrite !length_app, der_length; lia).
      rewrite Hview. subst tail. unfold loop_body. cbn [at_ nth_error app Nat.add is_not].
      simpl List.length.
      destruct (Nat.ltb_spec (S (S (S (S (List.length rest))))) (t + 2)); [lia|].
      reflexivity.
Qed.

Lemma empty_field_discards_found_witness :
  parseDERSignature "483007020200ff0201013002020041" "tx" 0 =
    (None, [("[!] Error parsing DER signature: " ++ syntax_error "0x")%string]).
Proof.
  refine (empty_field_discards_found [72]%nat [0; 255]%nat [1]%nat [65]%nat 2 "tx" 0
                                     _ _ _ _ _ _ _ _ _ _).
  - repeat constructor.
  - repeat constructor.
  - repeat constructor.
  - repeat constructor.
  - discriminate.
  - discriminate.
  - simpl. lia.
  - simpl. intuition discriminate.
  - lia.
  - simpl. lia.
Defined.

(** X21. A script without the marker byte holds no signature: if no
    byte of the decoded script is [0x30], the parser returns [null] and
    logs nothing. *)
Theorem no_marker_no_signature (hex txid : string) (timestamp : Z) :
  ~ In 48%nat (hex_decode hex) ->
  parseDERSignature hex txid timestamp = (None, []).
Proof.
  intros Hno.
  rewrite (parseDERSignature_runs _ _ _ (Ok [])); [reflexivity|].
  change 0%nat with (List.length (@nil nat)).
  rewrite <- (app_nil_r (hex_decode hex)).
  change (hex_decode hex ++ []) with ([] ++ hex_decode hex ++ []).
  apply runs_scan; [assumption|].
  apply runs_end. simpl. rewrite app_nil_r. lia.
Qed.

Lemma no_marker_no_signature_witness :
  parseDERSignature "4104ffee0302" "tx" 0 = (None, []).
Proof.
  apply (no_marker_no_signature "4104ffee0302" "tx" 0).
  simpl. intuition discriminate.
Defined.

(** X22. The loop ends.  Whatever the bytes, the [while] loop of
    [parseDERSignature] comes to an end within one turn per byte: the
    offset moves forward in every turn (by 1, or by [totalLength + 2]
    after a signature). *)
Theorem parse_loop_terminates (buffer : Buffer) (txid : string) (timestamp : Z) :
  exists res,
    parse_from (S (List.length buffer)) buffer txid timestamp 0 [] = Some res /\
    runs buffer txid timestamp 0 [] res.
Proof.
  destruct (runs_total buffer txid timestamp (List.length buffer) 0 [] ltac:(lia))
    as [res Hres].
  exists res. split; [|assumption].
  apply (runs_parse_from _ _ _ _ _ _ Hres). lia.
Qed.

(** *** What is returned *)

Lemma hex_value_bound (c : ascii) (x : nat) : hex_value c = Some x -> (x < 16)%nat.
Proof.
  unfold hex_value, JSBigInt.digit_val.
  set (n := Z.of_nat (nat_of_ascii c)).
  destruct ((48 <=? n)%Z && (n <=? 57)%Z) eqn:E1.
  - apply andb_prop in E1 as [?%Z.leb_le ?%Z.leb_le].
    destruct (n - 48 <? 16)%Z eqn:E; [|discriminate].
    apply Z.ltb_lt in E. simpl. intros [= <-]. lia.
  - destruct ((97 <=? n)%Z && (n <=? 102)%Z) eqn:E2.
    + apply andb_prop in E2 as [?%Z.leb_le ?%Z.leb_le].
      destruct (n - 87 <? 16)%Z eqn:E; [|discriminate].
      apply Z.ltb_lt in E. simpl. intros [= <-]. lia.
    + destruct ((65 <=? n)%Z && (n <=? 70)%Z) eqn:E3; [|discriminate].
      apply andb_prop in E3 as [?%Z.leb_le ?%Z.leb_le].
      destruct (n - 55 <? 16)%Z eqn:E; [|discriminate].
      apply Z.ltb_lt in E. simpl. intros [= <-]. lia.
Qed.

(** [Buffer.from(_, 'hex')] gives bytes. *)
Lemma is_bytes_hex_decode (hex : string) : is_bytes (hex_decode hex).
Proof.
  assert (H : forall n hex, (String.length hex <= n)%nat -> is_bytes (hex_decode hex)).
  { induction n as [|n IH]; intros [|a [|b rest]] Hn; try (now constructor).
    - simpl in Hn. lia.
    - cbn [hex_decode].
      destruct (hex_value a) as [x|] eqn:Ea; [|constructor].
      destruct (hex_value b) as [y|] eqn:Eb; [|constructor].
      apply hex_value_bound in Ea, Eb.
      constructor; [lia|]. apply IH. simpl in Hn. lia. }
  now apply (H (String.length hex)).
Qed.

Lemma is_bytes_slice (buffer : Buffer) (start : nat) (end_ : option nat) :
  is_bytes buffer -> is_bytes (slice buffer start end_).
Proof.
  intros H. unfold slice. destruct end_ as [e|]; [|constructor].
  unfold is_bytes in *. rewrite Forall_forall in *. intros b Hin.
  apply H. rewrite <- (firstn_skipn start buffer). apply in_or_app. right.
  rewrite <- (firstn_skipn (e - start) (skipn start buffer)).
  apply in_or_app. now left.
Qed.

Lemma be_value_nonneg (bytes : Buffer) : (0 <= be_value bytes)%Z.
Proof.
  unfold be_value.
  assert (H : forall acc, (0 <= acc)%Z ->
            (0 <= fold_left (fun acc b => acc * 256 + Z.of_nat b)%Z bytes acc)%Z).
  { induction bytes as [|b bytes IH]; intros acc Hacc; [assumption|].
    simpl. apply IH. lia. }
  apply H. lia.
Qed.

Lemma bigint_of_bytes_nonneg (bytes : Buffer) (z : Z) :
  is_bytes bytes -> bigint_of_bytes bytes = Ok z -> (0 <= z)%Z.
Proof.
  intros H. rewrite (bigint_of_bytes_value _ H).
  destruct bytes; [discriminate|]. intros [= <-]. apply be_value_nonneg.
Qed.

Lemma skipn_at (buffer : Buffer) : forall (i b : nat),
  at_ buffer i = Some b -> skipn i buffer = b :: skipn (S i) buffer.
Proof.
  unfold at_. induction buffer as [|x buffer IH]; intros [|i] b H;
    try discriminate.
  - now injection H as ->.
  - simpl in H. apply (IH _ _ H).
Qed.

Lemma is_not_false (x : option nat) (b : nat) : is_not x b = false -> x = Some b.
Proof.
  destruct x as [y|]; [|discriminate]. simpl.
  destruct (Nat.eqb_spec y b); [now subst|discriminate].
Qed.

(** The signature a turn of the loop pushes. *)
Lemma loop_body_found (buffer : Buffer) txid timestamp offset found advance :
  is_bytes buffer ->
  loop_body buffer txid timestamp offset = Push found advance ->
  cut_at_marker buffer txid timestamp found.
Proof.
  intros Hb Hbody.
  destruct (loop_body_advance _ _ _ _ _ _ Hbody) as (t & Et & _ & Hfit).
  revert Hbody. unfold loop_body.
  destruct (is_not (at_ buffer offset) 48) eqn:E0; [discriminate|].
  apply is_not_false in E0. rewrite Et.
  destruct (Nat.ltb_spec (List.length buffer) (offset + t + 2)); [discriminate|].
  destruct (is_not _ 2); [discriminate|].
  destruct (bigint_of_bytes _) as [rv|] eqn:Er; [|discriminate].
  destruct (plus_opt _ _); [|discriminate].
  destruct (_ || _); [discriminate|].
  destruct (bigint_of_bytes (slice buffer (n + 2) _)) as [sv|] eqn:Es; [|discriminate].
  intros [= <- _].
  apply bigint_of_bytes_nonneg in Er; [|now apply is_bytes_slice].
  apply bigint_of_bytes_nonneg in Es; [|now apply is_bytes_slice].
  unfold cut_at_marker. cbn [r s recoveryId messageHash DerParser.timestamp
                              DerParser.txid rawHex derEncoded].
  repeat (split; [assumption || reflexivity|]).
  cbn [option_map plus_opt slice].
  replace (offset + (t + 2) - offset)%nat with (S (S t)) by lia.
  rewrite (skipn_at _ _ _ E0).
  replace (offset + 1)%nat with (S offset) in Et by lia.
  rewrite (skipn_at _ _ _ Et). cbn [firstn].
  exists (firstn offset buffer), (firstn t (skipn (S (S offset)) buffer)),
         (skipn t (skipn (S (S offset)) buffer)).
  split.
  - rewrite <- !app_comm_cons, firstn_skipn.
    rewrite <- (skipn_at _ _ _ Et), <- (skipn_at _ _ _ E0).
    symmetry. apply firstn_skipn.
  - rewrite length_firstn, length_skipn. do 2 f_equal. lia.
Qed.

Lemma runs_found (buffer : Buffer) txid timestamp offset signatures res :
  is_bytes buffer ->
  runs buffer txid timestamp offset signatures res ->
  forall found, res = Ok found ->
  Forall (cut_at_marker buffer txid timestamp) signatures ->
  Forall (cut_at_marker buffer txid timestamp) found.
Proof.
  intros Hb. induction 1 as [off sigs Hend | off sigs res Hin Hbody _ IH
                             | off sigs Hin Hbody | off sigs error Hin Hbody
                             | off sigs sg adv res Hin Hbody _ IH];
    intros found Hres Hsigs.
  - now injection Hres as <-.
  - now apply IH.
  - now injection Hres as <-.
  - discriminate.
  - apply IH; [assumption|]. apply Forall_app. split; [assumption|].
    constructor; [|constructor]. now apply (loop_body_found _ _ _ _ _ _ Hb Hbody).
Qed.

Lemma parseDERSignature_found (hex txid : string) (timestamp : Z)
      (signatures : list ECDSASignature) :
  fst (parseDERSignature hex txid timestamp) = Some signatures ->
  signatures <> [] /\
  snd (parseDERSignature hex txid timestamp) = [] /\
  Forall (cut_at_marker (hex_decode hex) txid timestamp) signatures.
Proof.
  destruct (runs_total (hex_decode hex) txid timestamp
                       (List.length (hex_decode hex)) 0 [] ltac:(lia)) as [res Hres].
  rewrite (parseDERSignature_runs _ _ _ _ Hres).
  destruct res as [[|sg sigs]|error]; try discriminate.
  intros [= <-]. repeat split; [discriminate|].
  apply (runs_found _ _ _ _ _ _ (is_bytes_hex_decode hex) Hres); [reflexivity|constructor].
Qed.

(** X23. What a returned signature is.  When [parseDERSignature]
    returns a list, the list is not empty, nothing was logged, and every
    signature in it was cut from the script at a [0x30] marker: [r] and
    [s] are not negative, [recoveryId] is [undefined], the message hash is
    the digest of the empty input, the time stamp and the transaction id
    are the ones passed in, [rawHex] is the hexadecimal text of
    [derEncoded], and [derEncoded] is a contiguous run of the script's
    bytes that starts with [0x30] and the length byte and is exactly as
    long as that byte announces. *)
Theorem returned_signatures_cut_at_marker (hex txid : string) (timestamp : Z)
        (signatures : list ECDSASignature) :
  fst (parseDERSignature hex txid timestamp) = Some signatures ->
  signatures <> [] /\
  snd (parseDERSignature hex txid timestamp) = [] /\
  Forall (cut_at_marker (hex_decode hex) txid timestamp) signatures.
Proof. apply parseDERSignature_found. Qed.

Lemma returned_signatures_cut_at_marker_witness :
  let signatures := [signature_of [1]%nat [2]%nat "tx" 0] in
  signatures <> [] /\
  snd (parseDERSignature "3006020101020102" "tx" 0) = [] /\
  Forall (cut_at_marker (hex_decode "3006020101020102") "tx" 0) signatures.
Proof.
  apply (returned_signatures_cut_at_marker "3006020101020102" "tx" 0).
  vm_compute. reflexivity.
Defined.

(** *** [extractSignatures] *)

Lemma scan_input_found (transactions : list Transaction) (tx : Transaction) :
  In tx transactions ->
  forall (seen : list TransactionInput) acc,
    (forall input, In input seen -> In input (inputs tx)) ->
    Forall (from_a_long_script transactions) (fst acc) ->
    Forall (from_a_long_script transactions) (fst (fold_left (scan_input tx) seen acc)).
Proof.
  intros Htx. induction seen as [|input seen IH]; intros [signatures lines] Hseen Hacc;
    [assumption|].
  cbn [fold_left]. apply IH; [intros i Hi; apply Hseen; now right|].
  unfold scan_input.
  destruct (Nat.ltb_spec (String.length (scriptSig input)) 144); [assumption|].
  destruct (parseDERSignature _ _ _) as [[extracted|] logged] eqn:Ep; [|assumption].
  cbn [fst] in *. apply Forall_app. split; [assumption|].
  destruct (parseDERSignature_found (scriptSig input) (tx_txid tx) (tx_timestamp tx)
                                    extracted) as (_ & _ & Hall).
  { now rewrite Ep. }
  eapply Forall_impl; [|exact Hall].
  intros sg Hsg. exists tx, input.
  split; [assumption|]. split; [apply Hseen; now left|]. now split.
Qed.

(** X24. Where extracted signatures come from.  Every signature
    [extractSignatures] returns was cut at a marker from the script of
    an input of one of the given transactions, a script of at least 144
    characters, and carries that transaction's id and time stamp; scripts
    shorter than that contribute nothing. *)
Theorem extracted_signatures_provenance (transactions : list Transaction)
        (c : Collector) (sg : ECDSASignature) :
  In sg (fst (extractSignatures transactions c)) ->
  exists tx input,
    In tx transactions /\ In input (inputs tx) /\
    (144 <= String.length (scriptSig input))%nat /\
    cut_at_marker (hex_decode (scriptSig input)) (tx_txid tx) (tx_timestamp tx) sg.
Proof.
  unfold extractSignatures.
  assert (H : forall (seen : list Transaction) acc,
            (forall tx, In tx seen -> In tx transactions) ->
            Forall (from_a_long_script transactions) (fst acc) ->
            Forall (from_a_long_script transactions)
                   (fst (fold_left (fun acc tx => fold_left (scan_input tx) (inputs tx) acc)
                                   seen acc))).
  { induction seen as [|tx seen IH]; intros acc Hseen Hacc; [assumption|].
    cbn [fold_left]. apply IH; [intros t Ht; apply Hseen; now right|].
    apply scan_input_found; [apply Hseen; now left|auto|assumption]. }
  specialize (H transactions ([], []) (fun _ Hin => Hin) (Forall_nil _)).
  destruct (fold_left _ transactions ([], [])) as [signatures lines].
  cbn [fst] in *. intros Hin.
  rewrite Forall_forall in H. exact (H sg Hin).
Qed.

Lemma extracted_signatures_provenance_witness :
  exists tx input,
    In tx [sample_transaction] /\ In input (inputs tx) /\
    (144 <= String.length (scriptSig input))%nat /\
    cut_at_marker (hex_decode (scriptSig input)) (tx_txid tx) (tx_timestamp tx)
      (signature_of
         (hex_decode "00884d142d86652a3f47ba4746ec719bbfbd040a570b1deccbb6498c75c4ae24cb")
         (hex_decode "4b9f039ff08df09cbe9f6addac960298cad530a863ea8f53982c09db8f6e3813")
         "f4184fc5" 1231731025).
Proof.
  apply (extracted_signatures_provenance [sample_transaction] (mkCollector [] [] [])).
  vm_compute. left. reflexivity.
Defined.

Example parseDERSignature_samples :
  map (fun hex => option_map (map (fun sg => (r sg, s sg)))
                             (fst (parseDERSignature hex "tx" 0)))
      ["3006020101020102"; "ff3006020101020102ff"; "300602010102010230040200";
       "300602010102010230020200"; "0102"; "30"; ""]%string =
  [Some [(1, 2)]; Some [(1, 2)]; Some [(1, 2)]; None; None; None; None]%Z.
Proof. vm_compute. reflexivity. Qed.

End DerParserProps.

(** ** The watsonx.ai client singleton *)
Module WatsonxClientProps.
Import WatsonxClient.

Lemma truthy_nonempty (s : string) : truthy s = true <-> s <> "".
Proof. destruct s; simpl; split; congruence. Qed.

Lemma initialize_consistent (new_Authenticator : construction) (cfg : WatsonxConfig)
      (c : Client) :
  consistent c -> consistent (snd (initialize new_Authenticator cfg c)).
Proof.
  intros Hc. unfold initialize.
  destruct (truthy (apiKey cfg)) eqn:Ek; [|exact Hc].
  destruct (truthy (projectId cfg)) eqn:Ep; [|exact Hc].
  apply truthy_nonempty in Ek, Ep.
  assert (Hnew : forall a, consistent (mkClient a (Some cfg))).
  { intros a. split; simpl; [discriminate|]. now intros ? [= <-]. }
  unfold setupAuthenticator. simpl.
  destruct new_Authenticator; simpl; apply Hnew.
Qed.

Lemma exec_consistent (c : Client) (op : call) : consistent c -> consistent (exec c op).
Proof.
  intros Hc. destruct op as [cfg ctor|env ctor| |]; simpl.
  - now apply initialize_consistent.
  - unfold initializeWatsonxFromEnv.
    destruct (_ || _); [exact Hc|]. now apply initialize_consistent.
  - exact Hc.
  - split; simpl; [congruence|discriminate].
Qed.

(** X25. The client never holds half a set-up.  After any sequence of
    calls on the instance, a stored configuration has a non-empty API
    key and a non-empty project id, and there is no authenticator without
    a configuration; so [validateConnection] resolves to [true] exactly
    when an authenticator is held. *)
Theorem client_consistent (ops : list call) :
  consistent (after ops) /\
  (fst (validateConnection (after ops)) = Ok true <->
   authenticator (after ops) <> None).
Proof.
  assert (H : consistent (after ops)).
  { unfold after.
    assert (G : forall c, consistent c -> consistent (fold_left exec ops c)).
    { induction ops as [|op ops IH]; intros c Hc; [exact Hc|].
      simpl. apply IH. now apply exec_consistent. }
    apply G. split; simpl; [congruence|discriminate]. }
  split; [exact H|].
  destruct H as [Hauth _]. unfold validateConnection, isInitialized.
  destruct (config (after ops)) eqn:Ec, (authenticator (after ops)) eqn:Ea; simpl;
    split; try congruence; try discriminate.
  intros _. exfalso. apply Hauth; [discriminate|reflexivity].
Qed.

(** X26. How [initialize] fails.  When [initialize] throws, either a
    credential is missing and the client is left as it was, or the
    construction of the authenticator failed: then the new configuration
    has been stored all the same, next to the authenticator the client
    held before, so a client that was initialised still says it is. *)
Theorem initialize_failure (new_Authenticator : construction) (cfg : WatsonxConfig)
        (c c' : Client) (msg : string) :
  initialize new_Authenticator cfg c = (Throw msg, c') ->
  ((apiKey cfg = "" \/ projectId cfg = "") /\ c' = c) \/
  ((forall a, new_Authenticator <> Constructed a) /\
   config c' = Some cfg /\ authenticator c' = authenticator c /\
   (isInitialized c = true -> isInitialized c' = true)).
Proof.
  unfold initialize.
  destruct (apiKey cfg) as [|k0 k] eqn:Ek; simpl.
  { intros [= _ <-]. left. auto. }
  destruct (projectId cfg) as [|p0 p] eqn:Ep; simpl.
  { intros [= _ <-]. left. auto. }
  unfold setupAuthenticator. simpl.
  destruct new_Authenticator as [a|message|]; [discriminate| |];
    intros [= _ <-]; right; simpl; (split; [discriminate|]);
    repeat split; unfold isInitialized; simpl;
    destruct (config c), (authenticator c); congruence.
Qed.

Lemma initialize_failure_witness :
  let cfg := mkWatsonxConfig "key" "project" None None in
  let c := mkClient (Some 1%nat) (Some (mkWatsonxConfig "old" "old" None None)) in
  let c' := mkClient (Some 1%nat) (Some cfg) in
  ((apiKey cfg = "" \/ projectId cfg = "") /\ c' = c) \/
  ((forall a, ThrewOther <> Constructed a) /\
   config c' = Some cfg /\ authenticator c' = authenticator c /\
   (isInitialized c = true -> isInitialized c' = true)).
Proof.
  exact (initialize_failure ThrewOther (mkWatsonxConfig "key" "project" None None)
           (mkClient (Some 1%nat) (Some (mkWatsonxConfig "old" "old" None None)))
           (mkClient (Some 1%nat) (Some (mkWatsonxConfig "key" "project" None None)))
           "Error: Failed to initialize authenticator: Unknown error" eq_refl).
Defined.

(** X27. Initialising from the environment.  [initializeWatsonxFromEnv]
    succeeds exactly when both [IBM_CLOUD_API_KEY] and
    [WATSONX_PROJECT_ID] are set and not empty and the authenticator can
    be constructed; the client then holds these two values and the two
    optional ones as read.  The checks of [initialize] itself never fire
    on this path. *)
Theorem initializeWatsonxFromEnv_outcome (env : Environment)
        (new_Authenticator : construction) (c : Client) :
  (fst (initializeWatsonxFromEnv env new_Authenticator c) = Ok tt <->
   JS.env_truthy (IBM_CLOUD_API_KEY env) = true /\
   JS.env_truthy (WATSONX_PROJECT_ID env) = true /\
   exists a, new_Authenticator = Constructed a /\
             snd (initializeWatsonxFromEnv env new_Authenticator c) =
               mkClient (Some a)
                        (Some (mkWatsonxConfig (value (IBM_CLOUD_API_KEY env))
                                               (value (WATSONX_PROJECT_ID env))
                                               (WATSONX_SERVICE_URL env)
                                               (WATSONX_REGION env)))) /\
  fst (initializeWatsonxFromEnv env new_Authenticator c) <>
    Throw "Error: IBM Cloud API Key is required for watsonx initialization" /\
  fst (initializeWatsonxFromEnv env new_Authenticator c) <>
    Throw "Error: Project ID is required for watsonx initialization".
Proof.
  unfold initializeWatsonxFromEnv, initialize, setupAuthenticator.
  destruct (IBM_CLOUD_API_KEY env) as [[|k0 k]|]; simpl;
    try (repeat split; try discriminate; intros; intuition discriminate).
  destruct (WATSONX_PROJECT_ID env) as [[|p0 p]|]; simpl;
    try (repeat split; try discriminate; intros; intuition discriminate).
  destruct new_Authenticator as [a|message|]; simpl.
  - repeat split; try discriminate. exists a. split; reflexivity.
  - repeat split; try discriminate; try (intros (_ & _ & a & Ha & _); discriminate).
  - repeat split; try discriminate; try (intros (_ & _ & a & Ha & _); discriminate).
Qed.

End WatsonxClientProps.
